(** * gif-efitor: decode, composite, edit and re-encode of animated GIFs

  A shallow embedding of the TypeScript sources
  - [src/gif/utils.ts]   ([loadFrames], [beginFile], [encodeImage], [convertPalette]),
  - [src/gif.ts]         (the older, array-returning [loadFrames]),
  - the file editor component ([onKeyDown], [download]),
  and the properties of the design document that concern them.

  The browser's 2D canvas and the omggif codec are outside the repository.
  The canvas is modelled by the pixel operations the code calls
  ([clearRect], [putImageData], [drawImage], [getImageData]); the codec's
  decoder is a field of the reader record and its writer is the log of the
  [addFrame] calls it receives. *)

From Stdlib Require Import ZArith Lia Bool.
From stdpp Require Import base numbers option list gmap.

(** ** JavaScript values and exceptions *)

Module JS.

(** The ways the modelled functions throw. *)
Inductive error : Type :=
  | TypeError                 (* a property is read from [undefined] *)
  | NoPreviousFrameToRestore  (* [throw new Error("No previous frame to restore")] *)
  | InvalidStateError.        (* [drawImage] of an [ImageBitmap] that is detached *)

Inductive result (A : Type) : Type :=
  | Ok (a : A)
  | Throw (e : error).
Arguments Ok {A} a.
Arguments Throw {A} e.

Definition bind {A B} (r : result A) (k : A -> result B) : result B :=
  match r with
  | Ok a => k a
  | Throw e => Throw e
  end.

Definition is_ok {A} (r : result A) : bool :=
  match r with Ok _ => true | Throw _ => false end.

(** [ToInt32] and the [<<] operator on numbers. *)
Definition to_int32 (z : Z) : Z :=
  let m := (z mod 2 ^ 32)%Z in
  if (m <? 2 ^ 31)%Z then m else (m - 2 ^ 32)%Z.

Definition shl (a n : Z) : Z :=
  to_int32 (Z.shiftl (to_int32 a) (n mod 32)).

(** Stores into typed arrays wrap. *)
Definition to_uint8 (z : Z) : Z := (z mod 2 ^ 8)%Z.
Definition to_uint32 (z : Z) : Z := (z mod 2 ^ 32)%Z.

(** [a[i]] on an array of numbers, used in arithmetic: [undefined]
    converts to 0 under [<<] and in a typed-array store. *)
Definition get0 (a : list Z) (i : nat) : Z := default 0%Z (a !! i).

Definition is_null {A} (o : option A) : bool :=
  match o with None => true | Some _ => false end.

(** [a[i]] for a number [i]: [undefined] outside [0 .. a.length-1]. *)
Definition index {A} (a : list A) (i : Z) : option A :=
  if (i <? 0)%Z then None else a !! Z.to_nat i.

End JS.

Notation "x <- r ;; k" := (JS.bind r (fun x => k))
(at level 100, r at next level, right associativity).

(** ** The 2D canvas *)

Module Canvas.

Record pixel : Type := RGBA { red : Z; green : Z; blue : Z; alpha : Z }.

Definition transparent_black : pixel := RGBA 0 0 0 0.

(** A canvas or an [ImageBitmap]: [width * height] pixels, row by row. *)
Record Raster : Type := { width : nat; height : nat; data : list pixel }.

(** An [ImageData]: four bytes per pixel in a flat array. *)
Record ImageData : Type := { iwidth : nat; iheight : nat; bytes : list Z }.

(** [new OffscreenCanvas(w, h)] and [new ImageData(w, h)] start transparent. *)
Definition newCanvas (w h : nat) : Raster :=
  {| width := w; height := h; data := replicate (w * h) transparent_black |}.

Definition newImageData (w h : nat) : ImageData :=
  {| iwidth := w; iheight := h; bytes := replicate (w * h * 4) 0%Z |}.

Definition pixel_at (c : Raster) (x y : nat) : option pixel :=
  data c !! (y * width c + x).

Definition image_pixel (img : ImageData) (x y : nat) : pixel :=
  let i := y * iwidth img + x in
  RGBA (JS.get0 (bytes img) (i * 4)) (JS.get0 (bytes img) (i * 4 + 1))
       (JS.get0 (bytes img) (i * 4 + 2)) (JS.get0 (bytes img) (i * 4 + 3)).

Definition in_rect (x0 y0 w h x y : nat) : bool :=
  (x0 <=? x) && (x <? x0 + w) && (y0 <=? y) && (y <? y0 + h).

(** [ctx.clearRect(x, y, w, h)]: the pixels of the rectangle become
    transparent black, every other pixel is kept. *)
Definition clearRect (c : Raster) (x y w h : nat) : Raster :=
  {| width := width c; height := height c;
     data := imap (fun i p =>
               if in_rect x y w h (i mod width c) (i / width c)
               then transparent_black else p) (data c) |}.

(** [ctx.putImageData(img, dx, dy, dirtyX, dirtyY, dirtyWidth, dirtyHeight)]:
    the pixels of the dirty rectangle of [img] replace those of the canvas
    (no blending). *)
Definition putImageData (c : Raster) (img : ImageData)
    (dx dy dirtyX dirtyY dirtyWidth dirtyHeight : nat) : Raster :=
  {| width := width c; height := height c;
     data := imap (fun i p =>
               let cx := i mod width c in
               let cy := i / width c in
               if (dx <=? cx) && (dy <=? cy)
                  && in_rect dirtyX dirtyY dirtyWidth dirtyHeight (cx - dx) (cy - dy)
                  && (cx - dx <? iwidth img) && (cy - dy <? iheight img)
               then image_pixel img (cx - dx) (cy - dy) else p) (data c) |}.

(** Source-over blending. Frames decoded from a GIF carry alpha 255 where
    the decoder wrote and alpha 0 elsewhere, and [clearRect] writes alpha 0;
    on these two values source-over keeps the destination under a
    transparent source pixel and takes the source pixel otherwise. *)
Definition source_over (src dst : pixel) : pixel :=
  if (alpha src =? 0)%Z then dst else src.

(** [ctx.drawImage(image, dx, dy)] with the default composite operation. *)
Definition drawImage (c : Raster) (image : Raster) (dx dy : nat) : Raster :=
  {| width := width c; height := height c;
     data := imap (fun i p =>
               let cx := i mod width c in
               let cy := i / width c in
               if (dx <=? cx) && (dy <=? cy)
                  && (cx - dx <? width image) && (cy - dy <? height image)
               then match pixel_at image (cx - dx) (cy - dy) with
                    | Some s => source_over s p
                    | None => p
                    end
               else p) (data c) |}.

(** [createImageBitmap(canvas)]: a snapshot, independent of later drawing. *)
Definition createImageBitmap (c : Raster) : Raster := c.

(** [ctx.getImageData(sx, sy, sw, sh)]; pixels outside the canvas read as
    transparent black. *)
Definition getImageData (c : Raster) (sx sy sw sh : nat) : ImageData :=
  {| iwidth := sw; iheight := sh;
     bytes := flat_map (fun i =>
                let x := sx + i mod sw in
                let y := sy + i / sw in
                let p := if (x <? width c) && (y <? height c)
                         then default transparent_black (pixel_at c x y)
                         else transparent_black in
                [red p; green p; blue p; alpha p]) (seq 0 (sw * sh)) |}.

End Canvas.

(** ** The omggif codec, as the code uses it *)

Module GifFrameInfo.
Record t : Type := {
  x : nat;
  y : nat;
  width : nat;
  height : nat;
  has_local_palette : bool;
  palette_offset : nat;
  palette_size : nat;
  data_offset : nat;
  data_length : nat;
  transparent_index : option nat;
  interlaced : bool;
  delay : Z;
  disposal : nat
}.
End GifFrameInfo.

Module GifReader.
(** [decodeAndBlitFrameRGBA frameNum pixels palette] returns the contents of
    the two output arrays after the call. *)
Record t : Type := {
  width : nat;
  height : nat;
  frames : list GifFrameInfo.t;
  loopCount : nat;
  decodeAndBlitFrameRGBA : nat -> list Z -> list Z -> list Z * list Z
}.
Definition numFrames (r : t) : nat := length (frames r).
Definition frameInfo (r : t) (i : nat) : option GifFrameInfo.t := frames r !! i.
End GifReader.

Module GifWriter.
Record GlobalOptions : Type := { loop : nat; gpalette : option (list Z) }.
Record FrameOptions : Type := { delay : Z; palette : option (list Z) }.
Record AddFrameCall : Type := {
  x : nat; y : nat; w : nat; h : nat;
  indexed_pixels : list Z;
  opts : FrameOptions
}.
(** The writer is the record of what it was asked to write. *)
Record t : Type := {
  buffer_length : nat;
  width : nat;
  height : nat;
  gopts : GlobalOptions;
  written : list AddFrameCall
}.
Definition new (buffer_length w h : nat) (o : GlobalOptions) : t :=
  {| buffer_length := buffer_length; width := w; height := h; gopts := o; written := [] |}.
Definition addFrame (gf : t) (c : AddFrameCall) : t :=
  {| buffer_length := buffer_length gf; width := width gf; height := height gf;
     gopts := gopts gf; written := written gf ++ [c] |}.
End GifWriter.

(** ** src/gif/utils.ts *)

Module Utils.
Import JS Canvas.

Record GifMetadata : Type := {
  width : nat;
  height : nat;
  frameCount : nat;
  loopCount : nat
}.

Record GifFrameData : Type := {
  index : nat;
  delay : Z;
  data : Raster;
  isPaletteGlobal : bool;
  palette : list Z
}.

(** [convertPalette]: three bytes per entry, red first. *)
Definition convertPalette (palette : list Z) : list Z :=
  map (fun i =>
         let r := get0 palette (i * 3) in
         let g := get0 palette (i * 3 + 1) in
         let b := get0 palette (i * 3 + 2) in
         to_uint32 (shl r 16 + shl g 8 + b))
      (seq 0 (length palette / 3)).

(** The variables of [loadFrames] that live across iterations. *)
Record LoadState : Type := {
  canvas : Raster;
  prevFrameInfo : option GifFrameInfo.t;
  prevRestorePoint : option GifFrameData;
  scratchData : ImageData
}.

Definition initLoad (gifReader : GifReader.t) : LoadState :=
  {| canvas := newCanvas (GifReader.width gifReader) (GifReader.height gifReader);
     prevFrameInfo := None;
     prevRestorePoint := None;
     scratchData := newImageData (GifReader.width gifReader) (GifReader.height gifReader) |}.

(** What the consumer of the generator does with a frame it is handed,
  before the generator resumes: [true] when it detaches the frame's bitmap, by
  naming it in the transfer list of [postMessage] or by [close()]. The frame
  yielded and the restore point are one object, so a bitmap the consumer has
  detached is detached for the generator too. *)
Definition Consumer : Type := GifFrameData -> bool.

(** The decode worker posts every frame with
  [transfer: [frame.data, frame.palette.buffer]] (src/unnamed/part_002,
  lines 32-41). *)
Definition transfers : Consumer := fun _ => true.

(** A consumer that only reads the frames it is handed. *)
Definition reads : Consumer := fun _ => false.

(** The [switch (prevFrameInfo.disposal)] statement. The restore point is a
  frame that was yielded in an earlier iteration, so the consumer has been
  handed it: [consumer rp] tells whether its bitmap is detached by now, and
  [drawImage] of a detached bitmap throws an InvalidStateError. *)
Definition dispose (consumer : Consumer) (st : LoadState) : result Raster :=
  match prevFrameInfo st with
  | None => Ok (canvas st)
  | Some prev =>
      match GifFrameInfo.disposal prev with
      | 0 | 1 => Ok (canvas st)
      | 2 => Ok (clearRect (canvas st) (GifFrameInfo.x prev) (GifFrameInfo.y prev)
                   (GifFrameInfo.width prev) (GifFrameInfo.height prev))
      | 3 => match prevRestorePoint st with
             | None => Throw NoPreviousFrameToRestore
             | Some rp =>
                 if consumer rp then Throw InvalidStateError
                 else Ok (drawImage (canvas st) (data rp) 0 0)
             end
      | _ => Ok (canvas st)
      end
  end.

(** Decoding frame [i] into the scratch image and painting its rectangle. *)
Definition decode (gifReader : GifReader.t) (i : nat) (frameInfo : GifFrameInfo.t)
    (scratch : ImageData) : ImageData * list Z :=
  let palette := replicate (GifFrameInfo.palette_size frameInfo * 3) 0%Z in
  let '(px, pal) := GifReader.decodeAndBlitFrameRGBA gifReader i (bytes scratch) palette in
  ({| iwidth := iwidth scratch; iheight := iheight scratch; bytes := px |}, pal).

Definition paint (c : Raster) (scratch : ImageData) (frameInfo : GifFrameInfo.t) : Raster :=
  putImageData c scratch 0 0 (GifFrameInfo.x frameInfo) (GifFrameInfo.y frameInfo)
    (GifFrameInfo.width frameInfo) (GifFrameInfo.height frameInfo).

(** The assignment after [yield]:
    [if (prevRestorePoint == null || frameInfo.disposal !== 3) prevRestorePoint = frameData]. *)
Definition nextRestorePoint (prevRestorePoint : option GifFrameData)
    (frameInfo : GifFrameInfo.t) (frameData : GifFrameData) : option GifFrameData :=
  if is_null prevRestorePoint || negb (GifFrameInfo.disposal frameInfo =? 3)
  then Some frameData
  else prevRestorePoint.

(** One iteration of the loop: the frame yielded and the state after it. *)
Definition loadFrame (consumer : Consumer) (gifReader : GifReader.t) (i : nat)
    (frameInfo : GifFrameInfo.t) (st : LoadState) : result (GifFrameData * LoadState) :=
  c1 <- dispose consumer st ;;
  let '(scratch, palette) := decode gifReader i frameInfo (scratchData st) in
  let c2 := paint c1 scratch frameInfo in
  let frameData :=
    {| index := i;
       data := createImageBitmap c2;
       delay := GifFrameInfo.delay frameInfo;
       palette := convertPalette palette;
       isPaletteGlobal := negb (GifFrameInfo.has_local_palette frameInfo) |} in
  Ok (frameData,
      {| canvas := c2;
         prevFrameInfo := Some frameInfo;
         prevRestorePoint := nextRestorePoint (prevRestorePoint st) frameInfo frameData;
         scratchData := scratch |}).

(** The generator's run over the remaining frames, for a given consumer: the
  frames yielded, in order, and how it ended (the final state, or the
  exception thrown). Every frame yielded is handed to the consumer before
  the next iteration starts. *)
Fixpoint loadFrames_from (consumer : Consumer) (gifReader : GifReader.t)
    (infos : list GifFrameInfo.t) (i : nat) (st : LoadState)
    : list GifFrameData * result LoadState :=
  match infos with
  | [] => ([], Ok st)
  | frameInfo :: rest =>
      match loadFrame consumer gifReader i frameInfo st with
      | Throw e => ([], Throw e)
      | Ok (frameData, st') =>
          let '(yielded, ending) := loadFrames_from consumer gifReader rest (S i) st' in
          (frameData :: yielded, ending)
      end
  end.

Definition loadFrames (consumer : Consumer) (gifReader : GifReader.t)
    : list GifFrameData * result LoadState :=
  loadFrames_from consumer gifReader (GifReader.frames gifReader) 0 (initLoad gifReader).

(** [encodeImage]. The object [indexedColors] is keyed by the decimal
    spelling of a colour, which is one key per integer; a later palette
    entry of the same colour overwrites an earlier one. *)
Fixpoint indexColors (palette : list Z) (i : nat) (indexedColors : gmap Z nat)
    : gmap Z nat :=
  match palette with
  | [] => indexedColors
  | c :: rest => indexColors rest (S i) (<[c := i]> indexedColors)
  end.

Definition color_at (image : ImageData) (i : nat) : Z :=
  let r := get0 (bytes image) (i * 4) in
  let g := get0 (bytes image) (i * 4 + 1) in
  let b := get0 (bytes image) (i * 4 + 2) in
  (shl r 16 + shl g 8 + b)%Z.

(** [result[i] = indexedColors[color]]: a missing key reads [undefined],
    which a [Uint8Array] stores as 0. *)
Definition store_index (o : option nat) : Z :=
  match o with
  | Some idx => to_uint8 (Z.of_nat idx)
  | None => 0%Z
  end.

Definition encodeImage (image : ImageData) (palette : list Z) : list Z :=
  let indexedColors := indexColors palette 0 ∅ in
  map (fun i => store_index (indexedColors !! color_at image i))
      (seq 0 (iwidth image * iheight image)).

(** [beginFile]: the closure's variables. *)
Record Assembler : Type := {
  a_width : nat;
  a_height : nat;
  framesRemaining : Z;
  context : Raster;
  gf : GifWriter.t
}.

Definition beginFile (metadata : GifMetadata) (palette : option (list Z)) : Assembler :=
  let w := width metadata in
  let h := height metadata in
  {| a_width := w;
     a_height := h;
     framesRemaining := Z.of_nat (frameCount metadata);
     context := newCanvas w h;
     gf := GifWriter.new ((w * h + 1024) * frameCount metadata) w h
             {| GifWriter.loop := loopCount metadata; GifWriter.gpalette := palette |} |}.

Definition addFrame (a : Assembler) (frame : GifFrameData) : Assembler :=
  let c := drawImage (context a) (data frame) 0 0 in
  let imageData := getImageData c 0 0 (a_width a) (a_height a) in
  let pixels := encodeImage imageData (palette frame) in
  let frameOptions :=
    {| GifWriter.delay := delay frame;
       GifWriter.palette := if isPaletteGlobal frame then None else Some (palette frame) |} in
  {| a_width := a_width a;
     a_height := a_height a;
     framesRemaining := framesRemaining a - 1;
     context := c;
     gf := GifWriter.addFrame (gf a)
             {| GifWriter.x := 0; GifWriter.y := 0;
                GifWriter.w := a_width a; GifWriter.h := a_height a;
                GifWriter.indexed_pixels := pixels;
                GifWriter.opts := frameOptions |} |}.

Definition done (a : Assembler) : bool := (framesRemaining a =? 0)%Z.

End Utils.

(** ** src/gif/gif-writer.ts and src/gif/gif-writer.worker.ts *)

Module GifWriterWorker.
Import Utils.

Inductive GifWriteWorkerInputMessage : Type :=
  | metadata (value : GifMetadata) (palette : option (list Z))
  | frame (value : GifFrameData).

(** The messages [writeGifToFile] posts to a new worker, in order. *)
Definition writeGifToFile (m : GifMetadata) (frames : list GifFrameData)
    : list GifWriteWorkerInputMessage :=
  let globalPalette := palette <$> head (filter (fun f => isPaletteGlobal f = true) frames) in
  metadata m globalPalette :: map frame frames.

(** The worker: its [writer] variable and the buffers it has posted back. *)
Record Worker : Type := {
  writer : option Assembler;
  posted : list GifWriter.t
}.

Definition idle : Worker := {| writer := None; posted := [] |}.

Definition onmessage (wk : Worker) (msg : GifWriteWorkerInputMessage) : Worker :=
  match msg with
  | metadata m p => {| writer := Some (beginFile m p); posted := posted wk |}
  | frame f =>
      match writer wk with
      | None => wk
      | Some a =>
          let a' := addFrame a f in
          {| writer := Some a';
             posted := if done a' then posted wk ++ [gf a'] else posted wk |}
      end
  end.

Definition run (msgs : list GifWriteWorkerInputMessage) : Worker :=
  fold_left onmessage msgs idle.

End GifWriterWorker.

(** ** src/gif.ts: the earlier [loadFrames], which returns an array *)

Module Gif.
Import JS Canvas.

(** [{...frameInfo, index, data}] and the palette set afterwards. *)
Record GifFrameData : Type := {
  info : GifFrameInfo.t;
  index : nat;
  data : Raster;
  paletteGlobal : option (list Z);
  paletteLocal : option (list Z)
}.

Definition disposal (f : GifFrameData) : nat := GifFrameInfo.disposal (info f).

Record LoadState : Type := {
  canvas : Raster;
  prevFrameInfo : option GifFrameInfo.t;
  scratchData : ImageData;
  result_ : list GifFrameData
}.

Definition initLoad (gifReader : GifReader.t) : LoadState :=
  {| canvas := newCanvas (GifReader.width gifReader) (GifReader.height gifReader);
     prevFrameInfo := None;
     scratchData := newImageData (GifReader.width gifReader) (GifReader.height gifReader);
     result_ := [] |}.

(** [result.filter((frame) => frame.index === 0 || frame.disposal !== 3)] *)
Definition restorePoints (res : list GifFrameData) : list GifFrameData :=
  filter (fun frame => index frame = 0 ∨ disposal frame ≠ 3) res.

Definition dispose (st : LoadState) : result Raster :=
  match prevFrameInfo st with
  | None => Ok (canvas st)
  | Some prev =>
      match GifFrameInfo.disposal prev with
      | 0 | 1 => Ok (canvas st)
      | 2 => Ok (clearRect (canvas st) (GifFrameInfo.x prev) (GifFrameInfo.y prev)
                   (GifFrameInfo.width prev) (GifFrameInfo.height prev))
      | 3 => match last (restorePoints (result_ st)) with
             | None => Throw TypeError
             | Some rp => Ok (drawImage (canvas st) (data rp) 0 0)
             end
      | _ => Ok (canvas st)
      end
  end.

Definition loadFrame (gifReader : GifReader.t) (i : nat) (frameInfo : GifFrameInfo.t)
    (st : LoadState) : result LoadState :=
  c1 <- dispose st ;;
  let '(scratch, palette) := Utils.decode gifReader i frameInfo (scratchData st) in
  let c2 := Utils.paint c1 scratch frameInfo in
  let frameData :=
    {| info := frameInfo;
       index := i;
       data := createImageBitmap c2;
       paletteLocal := if GifFrameInfo.has_local_palette frameInfo
                       then Some (Utils.convertPalette palette) else None;
       paletteGlobal := if GifFrameInfo.has_local_palette frameInfo
                        then None else Some (Utils.convertPalette palette) |} in
  Ok {| canvas := c2;
        prevFrameInfo := Some frameInfo;
        scratchData := scratch;
        result_ := result_ st ++ [frameData] |}.

Fixpoint loadFrames_from (gifReader : GifReader.t) (infos : list GifFrameInfo.t)
    (i : nat) (st : LoadState) : result LoadState :=
  match infos with
  | [] => Ok st
  | frameInfo :: rest =>
      st' <- loadFrame gifReader i frameInfo st ;;
      loadFrames_from gifReader rest (S i) st'
  end.

Definition loadFrames (gifReader : GifReader.t) : result (list GifFrameData) :=
  st <- loadFrames_from gifReader (GifReader.frames gifReader) 0 (initLoad gifReader) ;;
  Ok (result_ st).

End Gif.

(** ** The file editor component: edit marks and export *)

Module FileEditor.
Import JS Utils.

(** [type FrameState = { deleted?: boolean }] *)
Record FrameState : Type := { deleted : option bool }.

(** The truth value of [fs.deleted]. *)
Definition is_deleted (fs : FrameState) : bool :=
  match deleted fs with
  | Some true => true
  | _ => false
  end.

(** [onKeyDown], key ArrowDown: the updater passed to [setFrameStates]. *)
Definition onKeyDown_ArrowDown (selectedFrame : Z) (curr : list FrameState)
    : result (list FrameState) :=
  match JS.index curr selectedFrame with
  | None => Throw TypeError
  | Some fs =>
      if is_deleted fs then Ok curr
      else Ok (<[Z.to_nat selectedFrame := {| deleted := Some true |}]> curr)
  end.

(** [onKeyDown], key ArrowUp. *)
Definition onKeyDown_ArrowUp (selectedFrame : Z) (curr : list FrameState)
    : result (list FrameState) :=
  match JS.index curr selectedFrame with
  | None => Throw TypeError
  | Some fs =>
      if negb (is_deleted fs) then Ok curr
      else Ok (<[Z.to_nat selectedFrame := {| deleted := Some false |}]> curr)
  end.

Definition set_delay (f : GifFrameData) (d : Z) : GifFrameData :=
  {| index := Utils.index f; delay := d; data := data f;
     isPaletteGlobal := isPaletteGlobal f; palette := palette f |}.

(** [framesToSave[framesToSave.length - 1].delay += d]; the last element is
    [undefined] when the array is empty. *)
Definition add_to_last (framesToSave : list GifFrameData) (d : Z)
    : result (list GifFrameData) :=
  match last framesToSave with
  | None => Throw TypeError
  | Some f =>
      Ok (<[length framesToSave - 1 := set_delay f (delay f + d)]> framesToSave)
  end.

(** The loop of [download]. The download button is disabled unless
    [frames.length === frameCount], so the loop runs over [frames]; [i] is
    the index of the first frame of [rest]. The elements pushed are copies
    ([{ ...frame }]), so the decoded frames keep their delays. *)
Fixpoint download_from (frameStates : list FrameState) (rest : list GifFrameData)
    (i : nat) (framesToSave : list GifFrameData) : result (list GifFrameData) :=
  match rest with
  | [] => Ok framesToSave
  | frame :: rest' =>
      match frameStates !! i with
      | None => Throw TypeError
      | Some fs =>
          if is_deleted fs then
            framesToSave' <- add_to_last framesToSave (delay frame) ;;
            download_from frameStates rest' (S i) framesToSave'
          else
            download_from frameStates rest' (S i) (framesToSave ++ [frame])
      end
  end.

(** [download]: the arguments with which [writeGifToFile] is called, or the
    exception that ends the handler before the call. *)
Definition download (image : GifMetadata) (frames : list GifFrameData)
    (frameStates : list FrameState) : result (GifMetadata * list GifFrameData) :=
  framesToSave <- download_from frameStates frames 0 [] ;;
  Ok ({| width := width image; height := height image;
         frameCount := length framesToSave; loopCount := loopCount image |},
      framesToSave).

(** What the export does to the encode worker: nothing unless [download]
    reaches [writeGifToFile]. *)
Definition export (image : GifMetadata) (frames : list GifFrameData)
    (frameStates : list FrameState) : option GifWriterWorker.Worker :=
  match download image frames frameStates with
  | Ok (m, framesToSave) =>
      Some (GifWriterWorker.run (GifWriterWorker.writeGifToFile m framesToSave))
  | Throw _ => None
  end.

(** The delays of the frames handed to [writeGifToFile], if it is reached. *)
Definition exported_delays (image : GifMetadata) (frames : list GifFrameData)
    (frameStates : list FrameState) : option (list Z) :=
  match download image frames frameStates with
  | Ok (_, framesToSave) => Some (delay <$> framesToSave)
  | Throw _ => None
  end.

End FileEditor.

(** ** Vocabulary of the statements *)

Module Run.
Import JS Utils.

(** The generator's run over the first [k] frames of a file: what it has
    yielded and the state it is in. *)
Definition composited (consumer : Consumer) (gifReader : GifReader.t) (k : nat)
    : list GifFrameData * result LoadState :=
  loadFrames_from consumer gifReader (take k (GifReader.frames gifReader)) 0
    (initLoad gifReader).

(** The number of frames of a file up to and including the first one that
  declares disposal 3 (restore to previous); the number of all frames when
  none does. *)
Fixpoint until_restore (infos : list GifFrameInfo.t) : nat :=
  match infos with
  | [] => 0
  | frameInfo :: rest =>
      if GifFrameInfo.disposal frameInfo =? 3 then 1 else S (until_restore rest)
  end.

(** The same for the array-building [loadFrames] of src/gif.ts. *)
Definition composited_gif (gifReader : GifReader.t) (k : nat) : result Gif.LoadState :=
  Gif.loadFrames_from gifReader (take k (GifReader.frames gifReader)) 0
    (Gif.initLoad gifReader).

(** A rectangle, as a proposition on coordinates. *)
Definition inside (x0 y0 w h x y : nat) : Prop :=
  x0 <= x < x0 + w /\ y0 <= y < y0 + h.

End Run.

Module Merge.
Import Utils FileEditor.

(** Frames paired with their edit marks. *)
Definition marked : Type := GifFrameData * FrameState.

Definition survives (p : marked) : Prop := is_deleted p.2 = false.
Definition dropped (p : marked) : Prop := is_deleted p.2 = true.

Definition survivors (l : list marked) : list GifFrameData :=
  (filter survives l).*1.

Definition total_delay (l : list marked) : Z :=
  foldr (fun p s => (delay p.1 + s)%Z) 0%Z l.

(** A list that is empty or begins with a surviving frame. *)
Definition starts_kept (l : list marked) : Prop :=
  match l with
  | [] => True
  | p :: _ => survives p
  end.

(** The delays of the dropped frames at the head of a list. *)
Fixpoint run_delay (l : list marked) : Z :=
  match l with
  | [] => 0%Z
  | (f, fs) :: rest => if is_deleted fs then (delay f + run_delay rest)%Z else 0%Z
  end.

(** Each surviving frame with the delays of the dropped frames that follow
  it directly. *)
Fixpoint merge (l : list marked) : list GifFrameData :=
  match l with
  | [] => []
  | (f, fs) :: rest =>
      if is_deleted fs then merge rest
      else set_delay f (delay f + run_delay rest) :: merge rest
  end.

(** The frame without its delay. *)
Definition content (f : GifFrameData) : nat * Canvas.Raster * bool * list Z :=
  (index f, data f, isPaletteGlobal f, palette f).

End Merge.

(** The merge rule in the words of the design document (section 4.3):
  "maintain an accumulator; on a deleted frame, add its delay to the
  accumulator; on a surviving frame, effective delay = its own delay +
  accumulator, then reset accumulator to zero." *)
Module Design.
Import Utils FileEditor.

Fixpoint buildEncodeSequence_acc (l : list Merge.marked) (accumulator : Z)
    : list GifFrameData :=
  match l with
  | [] => []
  | (f, fs) :: rest =>
      if is_deleted fs
      then buildEncodeSequence_acc rest (accumulator + delay f)
      else set_delay f (delay f + accumulator) :: buildEncodeSequence_acc rest 0
  end.

Definition buildEncodeSequence (frames : list GifFrameData)
    (editStates : list FrameState) : list GifFrameData :=
  buildEncodeSequence_acc (zip frames editStates) 0.

End Design.

(** ** Invariants of the two compositors *)

Module Inv.
Import JS Canvas.

(** A raster of the given dimensions. *)
Definition sized (w h : nat) (c : Raster) : Prop :=
  width c = w /\ height c = h /\ length (data c) = w * h.

(** The guard of the disposal step: once a frame has been composited there
  is a restore point. *)
Definition guarded (st : Utils.LoadState) : Prop :=
  is_Some (Utils.prevFrameInfo st) -> is_Some (Utils.prevRestorePoint st).

(** Canvas and snapshots keep the dimensions of the file. *)
Definition shaped (gifReader : GifReader.t) (st : Utils.LoadState) : Prop :=
  sized (GifReader.width gifReader) (GifReader.height gifReader) (Utils.canvas st) /\
  forall rp, Utils.prevRestorePoint st = Some rp ->
    sized (GifReader.width gifReader) (GifReader.height gifReader) (Utils.data rp).

(** The restore point the filter of src/gif.ts selects. *)
Definition selected (res : list Gif.GifFrameData) : option Gif.GifFrameData :=
  last (Gif.restorePoints res).

(** The two loops in step before frame [i]. *)
Record in_step (i : nat) (su : Utils.LoadState) (sg : Gif.LoadState) : Prop := {
  same_canvas : Utils.canvas su = Gif.canvas sg;
  same_prev : Utils.prevFrameInfo su = Gif.prevFrameInfo sg;
  same_scratch : Utils.scratchData su = Gif.scratchData sg;
  same_count : length (Gif.result_ sg) = i;
  same_point_data :
    Utils.data <$> Utils.prevRestorePoint su = Gif.data <$> selected (Gif.result_ sg);
  same_point_index :
    Utils.index <$> Utils.prevRestorePoint su = Gif.index <$> selected (Gif.result_ sg);
  point_exists : 0 < i -> is_Some (Utils.prevRestorePoint su)
}.

End Inv.

(** ** Test data *)

Module Sample.
Import Canvas.

Definition frameInfo (x y w h : nat) (delay : Z) (disposal : nat) : GifFrameInfo.t :=
  {| GifFrameInfo.x := x; GifFrameInfo.y := y;
     GifFrameInfo.width := w; GifFrameInfo.height := h;
     GifFrameInfo.has_local_palette := false;
     GifFrameInfo.palette_offset := 13; GifFrameInfo.palette_size := 2;
     GifFrameInfo.data_offset := 0; GifFrameInfo.data_length := 0;
     GifFrameInfo.transparent_index := None; GifFrameInfo.interlaced := false;
     GifFrameInfo.delay := delay; GifFrameInfo.disposal := disposal |}.

(** A decoder that paints every pixel of the scratch image with an opaque
    colour telling the frame number, and reports a two-colour palette. *)
Definition decoder (i : nat) (pixels palette : list Z) : list Z * list Z :=
  (flat_map (fun _ => [Z.of_nat (S i); 0; 0; 255]%Z) (seq 0 (length pixels / 4)),
   [0; 0; 0; Z.of_nat (S i); 0; 0]%Z).

Definition reader (w h : nat) (frames : list GifFrameInfo.t) : GifReader.t :=
  {| GifReader.width := w; GifReader.height := h; GifReader.frames := frames;
     GifReader.loopCount := 0; GifReader.decodeAndBlitFrameRGBA := decoder |}.

(** Disposals None, RestoreBackground, RestorePrevious, None on a 2x2 canvas. *)
Definition four_frames : GifReader.t :=
  reader 2 2 [frameInfo 0 0 2 2 10 0; frameInfo 0 0 1 1 20 2;
              frameInfo 1 1 1 1 5 3; frameInfo 0 0 1 1 7 0].

(** A file whose first frame declares RestorePrevious. *)
Definition restore_first : GifReader.t :=
  reader 2 1 [frameInfo 0 0 2 1 10 3; frameInfo 0 0 1 1 10 0].

(** Frames that cover one pixel each, so that the first two leave the rest
  of the 2x2 canvas transparent; disposals None, RestoreBackground,
  RestorePrevious, None. *)
Definition patches : GifReader.t :=
  reader 2 2 [frameInfo 0 0 1 1 10 0; frameInfo 0 0 1 1 20 2;
              frameInfo 1 1 1 1 5 3; frameInfo 0 0 1 1 7 0].

(** The first three frames of [four_frames]: only the last frame declares
  RestorePrevious. *)
Definition ends_with_restore : GifReader.t :=
  reader 2 2 [frameInfo 0 0 2 2 10 0; frameInfo 0 0 1 1 20 2; frameInfo 1 1 1 1 5 3].

(** The compositor's state after the first two frames of [four_frames]. *)
Definition after_two : Utils.LoadState :=
  Eval vm_compute in
    match snd (Run.composited Utils.transfers four_frames 2) with
    | JS.Ok st => st
    | JS.Throw _ => Utils.initLoad four_frames
    end.

(** A state no run reaches: a previous frame that restores to previous, and
  no restore point. *)
Definition stranded : Utils.LoadState :=
  {| Utils.canvas := newCanvas 2 1;
     Utils.prevFrameInfo := Some (frameInfo 0 0 2 1 10 3);
     Utils.prevRestorePoint := None;
     Utils.scratchData := newImageData 2 1 |}.

Definition solid (w h : nat) (r : Z) : Raster :=
  {| width := w; height := h; data := replicate (w * h) (RGBA r 0 0 255) |}.

Definition frame (i : nat) (delay : Z) : Utils.GifFrameData :=
  {| Utils.index := i; Utils.delay := delay; Utils.data := solid 1 1 (Z.of_nat (S i));
     Utils.isPaletteGlobal := true; Utils.palette := [65536; 131072; 196608]%Z |}.

Definition three_frames : list Utils.GifFrameData := [frame 0 10; frame 1 20; frame 2 5].

(** A frame whose only pixel, (7, 0, 0), is not in its palette. *)
Definition off_palette : Utils.GifFrameData :=
  {| Utils.index := 0; Utils.delay := 10; Utils.data := solid 1 1 7;
     Utils.isPaletteGlobal := false; Utils.palette := [65536; 131072]%Z |}.

Definition kept : FileEditor.FrameState := {| FileEditor.deleted := None |}.
Definition gone : FileEditor.FrameState := {| FileEditor.deleted := Some true |}.

Definition image (n : nat) : Utils.GifMetadata :=
  {| Utils.width := 1; Utils.height := 1; Utils.frameCount := n; Utils.loopCount := 0 |}.

End Sample.

(** ** src/gif/utils.ts: [readFile] *)

Module ReadFile.

(** What [reader.read()] resolves to. *)
Record ReadResult : Type := { value : option (list Z); done_ : bool }.

(** How the promise of [readFile] ends: with the bytes handed to
  [new gif.GifReader], with the RangeError of [data.set], or not at all when
  the stream never reports [done]. *)
Inductive outcome : Type :=
  | Resolved (data : list Z)
  | RangeError
  | Pending.

(** [data.set(chunk, pos)]: throws when the chunk does not fit. *)
Definition set (data chunk : list Z) (pos : nat) : option (list Z) :=
  if pos + length chunk <=? length data
  then Some (take pos data ++ chunk ++ drop (pos + length chunk) data)
  else None.

Fixpoint readFile_loop (reads : list ReadResult) (data : list Z) (pos : nat) : outcome :=
  match reads with
  | [] => Pending
  | chunk :: rest =>
      match value chunk with
      | Some v =>
          match set data v pos with
          | None => RangeError
          | Some data' =>
              if done_ chunk then Resolved data'
              else readFile_loop rest data' (pos + length v)
          end
      | None =>
          if done_ chunk then Resolved data else readFile_loop rest data pos
      end
  end.

Definition readFile (reads : list ReadResult) (byteLength : nat) : outcome :=
  readFile_loop reads (replicate byteLength 0%Z) 0.

End ReadFile.

(** ** The decode worker and [readGifFromFile] *)

Module GifReaderWorker.
Import Utils.

Inductive GifReadWorkerOutputMessage : Type :=
  | metadata (value : GifMetadata)
  | frame (value : GifFrameData).

(** The worker's handler for a file once it is read: the messages it posts
  (the metadata, then one message per frame the generator yields, each with
  the frame's bitmap in its transfer list) and how the handler ends: normally,
  or with the exception the generator throws. *)
Definition onmessage (imageReader : GifReader.t)
    : list GifReadWorkerOutputMessage * JS.result unit :=
  let run := loadFrames transfers imageReader in
  (metadata {| width := GifReader.width imageReader;
               height := GifReader.height imageReader;
               frameCount := GifReader.numFrames imageReader;
               loopCount := GifReader.loopCount imageReader |}
   :: (frame <$> run.1),
   match run.2 with
   | JS.Ok _ => JS.Ok tt
   | JS.Throw e => JS.Throw e
   end).

(** [readGifFromFile]: the counter of the promise, what the callback has
  received, and how often [resolve] was called. *)
Record Client : Type := {
  framesRemaining : option Z;
  delivered : list GifReadWorkerOutputMessage;
  resolved : nat
}.

Definition start : Client :=
  {| framesRemaining := None; delivered := []; resolved := 0 |}.

Definition receive (c : Client) (msg : GifReadWorkerOutputMessage) : Client :=
  let remaining :=
    match msg with
    | metadata m => Some (Z.of_nat (frameCount m))
    | frame _ => (fun n => (n - 1)%Z) <$> framesRemaining c
    end in
  {| framesRemaining := remaining;
     delivered := delivered c ++ [msg];
     resolved := if decide (remaining = Some 0%Z) then S (resolved c) else resolved c |}.

Definition readGifFromFile (imageReader : GifReader.t) : Client :=
  fold_left receive (onmessage imageReader).1 start.

End GifReaderWorker.

(** ** src/gif.ts: [saveFrames] *)

Module SaveFrames.
Import JS Canvas Gif.

(** [frame.paletteGlobal || frame.paletteLocal!] *)
Definition palette_of (frame : GifFrameData) : option (list Z) :=
  match paletteGlobal frame with
  | Some p => Some p
  | None => paletteLocal frame
  end.

Fixpoint saveFrames_loop (frames : list GifFrameData) (width height : nat)
    (context : Raster) (gf : GifWriter.t) : result GifWriter.t :=
  match frames with
  | [] => Ok gf
  | frame :: rest =>
      let c := drawImage context (data frame) 0 0 in
      let imageData := getImageData c 0 0 width height in
      match palette_of frame with
      | None => Throw TypeError
      | Some palette =>
          let pixels := Utils.encodeImage imageData palette in
          let frameOptions :=
            {| GifWriter.delay := GifFrameInfo.delay (info frame);
               GifWriter.palette := paletteLocal frame |} in
          saveFrames_loop rest width height c
            (GifWriter.addFrame gf
               {| GifWriter.x := 0; GifWriter.y := 0;
                  GifWriter.w := width; GifWriter.h := height;
                  GifWriter.indexed_pixels := pixels;
                  GifWriter.opts := frameOptions |})
      end
  end.

(** The writer at the end of [saveFrames], before the buffer is sliced. *)
Definition saveFrames (frames : list GifFrameData) : result GifWriter.t :=
  match frames with
  | [] => Throw TypeError
  | first :: _ =>
      let width := Canvas.width (data first) in
      let height := Canvas.height (data first) in
      let globalPalette := head (omap paletteGlobal frames) in
      saveFrames_loop frames width height (newCanvas width height)
        (GifWriter.new (width * height * length frames + 1024) width height
           {| GifWriter.loop := 0; GifWriter.gpalette := globalPalette |})
  end.

(** The frame as src/gif/utils.ts would carry it. *)
Definition streamed (frame : GifFrameData) : Utils.GifFrameData :=
  {| Utils.index := index frame;
     Utils.delay := GifFrameInfo.delay (info frame);
     Utils.data := data frame;
     Utils.isPaletteGlobal := negb (GifFrameInfo.has_local_palette (info frame));
     Utils.palette := default [] (palette_of frame) |}.

(** A frame as [loadFrames] of src/gif.ts builds it: the palette is local or
  global according to the descriptor. *)
Definition loaded (frame : GifFrameData) : Prop :=
  if GifFrameInfo.has_local_palette (info frame)
  then paletteGlobal frame = None /\ is_Some (paletteLocal frame)
  else paletteLocal frame = None /\ is_Some (paletteGlobal frame).

(** Two writers that were asked to write the same file so far. *)
Definition same_file (g1 g2 : GifWriter.t) : Prop :=
  GifWriter.written g1 = GifWriter.written g2 /\
  GifWriter.gopts g1 = GifWriter.gopts g2 /\
  GifWriter.width g1 = GifWriter.width g2 /\
  GifWriter.height g1 = GifWriter.height g2.

End SaveFrames.

(** ** The file editor component: navigation, labels, playback *)

Module Editor.
Import JS Utils FileEditor.

(** [indexOf] and [lastIndexOf]. The predicate receives [array[i]], which is
  [undefined] outside the array, and may throw. *)
Fixpoint indexOf_from {A} (array : list A) (predicate : option A -> Z -> result bool)
    (i : Z) (steps : nat) : result Z :=
  match steps with
  | 0 => Ok (-1)%Z
  | S steps' =>
      found <- predicate (JS.index array i) i ;;
      if found then Ok i else indexOf_from array predicate (i + 1) steps'
  end.

Definition indexOf {A} (array : list A) (predicate : option A -> Z -> result bool)
    (fromIndex : option Z) : result Z :=
  let i := default 0%Z fromIndex in
  indexOf_from array predicate i (Z.to_nat (Z.of_nat (length array) - i)).

Fixpoint lastIndexOf_from {A} (array : list A) (predicate : option A -> Z -> result bool)
    (steps : nat) : result Z :=
  match steps with
  | 0 => Ok (-1)%Z
  | S i =>
      found <- predicate (JS.index array (Z.of_nat i)) (Z.of_nat i) ;;
      if found then Ok (Z.of_nat i) else lastIndexOf_from array predicate i
  end.

Definition lastIndexOf {A} (array : list A) (predicate : option A -> Z -> result bool)
    (fromIndex : option Z) : result Z :=
  let i := default (Z.of_nat (length array) - 1)%Z fromIndex in
  lastIndexOf_from array predicate (Z.to_nat (i + 1)).

(** [(fs) => !fs.deleted] *)
Definition picked (item : option FrameState) (i : Z) : result bool :=
  match item with
  | None => Throw TypeError
  | Some fs => Ok (negb (is_deleted fs))
  end.

(** [gotoFrame]: the selected frame after the call. The scroll position it
  also sets is a pixel quantity of the layout and is left out here. *)
Definition gotoFrame (layout : bool) (frameCount : nat) (selectedFrame newFrame : Z) : Z :=
  if layout && (0 <=? newFrame)%Z && (newFrame <? Z.of_nat frameCount)%Z
  then newFrame else selectedFrame.

Inductive Key : Type :=
  | Space | ArrowRight | ArrowLeft | ArrowDown | ArrowUp | OtherKey.

Record KeyboardEvent : Type := { key : Key; altKey : bool }.

(** The state [onKeyDown] reads and sets. *)
Record View : Type := {
  isPlaying : bool;
  selectedFrame : Z;
  frameStates : list FrameState
}.

Definition select (v : View) (s : Z) : View :=
  {| isPlaying := isPlaying v; selectedFrame := s; frameStates := frameStates v |}.

Definition onKeyDown (layout : bool) (frameCount : nat) (evt : KeyboardEvent) (v : View)
    : result View :=
  let goto := gotoFrame layout frameCount (selectedFrame v) in
  match key evt with
  | Space =>
      Ok {| isPlaying := negb (isPlaying v);
            selectedFrame := if isPlaying v then goto (selectedFrame v) else selectedFrame v;
            frameStates := frameStates v |}
  | OtherKey => Ok v
  | k =>
      if isPlaying v then Ok v else
      match k with
      | ArrowRight =>
          if altKey evt then
            i <- indexOf (frameStates v) picked (Some (selectedFrame v + 1)%Z) ;;
            Ok (select v (goto i))
          else Ok (select v (goto (selectedFrame v + 1)%Z))
      | ArrowLeft =>
          if altKey evt then
            i <- lastIndexOf (frameStates v) picked (Some (selectedFrame v - 1)%Z) ;;
            Ok (select v (goto i))
          else Ok (select v (goto (selectedFrame v - 1)%Z))
      | ArrowDown =>
          newValue <- onKeyDown_ArrowDown (selectedFrame v) (frameStates v) ;;
          Ok {| isPlaying := isPlaying v;
                selectedFrame := goto (selectedFrame v + 1)%Z;
                frameStates := newValue |}
      | ArrowUp =>
          newValue <- onKeyDown_ArrowUp (selectedFrame v) (frameStates v) ;;
          Ok {| isPlaying := isPlaying v;
                selectedFrame := goto (selectedFrame v + 1)%Z;
                frameStates := newValue |}
      | _ => Ok v
      end
  end.

(** The edit marks of a file opened for the first time:
  [Array.from({ length: metadata.frameCount }, (_) => ({}))]. *)
Definition initialFrameStates (frameCount : nat) : list FrameState :=
  replicate frameCount {| deleted := None |}.

(** [pickedFrames] of the info panel. *)
Definition pickedFrames (frameStates : list FrameState) : nat :=
  fold_left (fun sum fs => if is_deleted fs then sum else sum + 1) frameStates 0.

(** What the thumbnail loop writes under a frame. *)
Inductive Label : Type :=
  | NotDrawn                 (* the thumbnail is out of view: nothing is drawn *)
  | IndexOnly                (* a dropped frame: [`${frame.index}`] *)
  | WithDelay (delay : Z).   (* a picked frame: the index and [delay / 100] seconds *)

(** The thumbnail loop, from the last frame to the first. [inView i] is the
  test [fx + width > 0 && fx < dimension.width] for frame [i], a matter of
  the layout and the scroll position; only then is anything drawn for the
  frame. The [delay] variable is updated for every frame, in view or not.
  The result is the delay carried on to the frame before [rest] and the
  labels of [rest] in index order. *)
Fixpoint thumbnails_from (inView : nat -> bool) (frameStates : list FrameState)
    (rest : list GifFrameData) (i : nat) : result (Z * list Label) :=
  match rest with
  | [] => Ok (0%Z, [])
  | frame :: rest' =>
      later <- thumbnails_from inView frameStates rest' (S i) ;;
      match frameStates !! i with
      | None => Throw TypeError
      | Some fs =>
          let d := (later.1 + delay frame)%Z in
          let label :=
            if inView i
            then (if is_deleted fs then IndexOnly else WithDelay d)
            else NotDrawn in
          Ok (if is_deleted fs then d else 0%Z, label :: later.2)
      end
  end.

Definition thumbnail_labels (inView : nat -> bool) (frames : list GifFrameData)
    (frameStates : list FrameState) : result (list Label) :=
  later <- thumbnails_from inView frameStates frames 0 ;; Ok later.2.

(** Numbers that may be [NaN]. *)
Inductive num : Type := Int (z : Z) | NaN.

Definition add (a b : num) : num :=
  match a, b with Int x, Int y => Int (x + y) | _, _ => NaN end.

(** [a % b] *)
Definition rem (a b : num) : num :=
  match a, b with
  | Int x, Int y => if (y =? 0)%Z then NaN else Int (Z.rem x y)
  | _, _ => NaN
  end.

(** [a <= b], false when either side is [NaN] or [undefined]. *)
Definition le (a : option num) (b : num) : bool :=
  match a, b with
  | Some (Int x), Int y => (x <=? y)%Z
  | _, _ => false
  end.

(** [arr[arr.length - 1]] as a number. *)
Definition last_num (arr : list num) : num := default NaN (last arr).

(** [timeline] of the play control. *)
Definition timeline (frames : list GifFrameData) : list num :=
  fold_left (fun arr f => arr ++ [add (last_num arr) (Int (delay f * 10))]) frames [Int 0].

(** One animation step of the play control: the frame index passed to
  [onUpdate] and the new current time. [ellapsed] is [Date.now() - start]. *)
Definition step (frames : list GifFrameData) (currentTime : num) (ellapsed : Z)
    : result Z * num :=
  let timeline := timeline frames in
  let ellapsed := Z.max ellapsed 1 in
  let totalTime := last_num timeline in
  let newTime := rem (add currentTime (Int ellapsed)) totalTime in
  (lastIndexOf timeline (fun t _ => Ok (le t newTime)) None, newTime).

(** [updateFrame]: the selected frame after the call. *)
Definition updateFrame (frameStates : list FrameState) (selectedFrame i : Z) : result Z :=
  match JS.index frameStates i with
  | None => Throw TypeError
  | Some fs => if negb (is_deleted fs) then Ok i else Ok selectedFrame
  end.

(** The time, in milliseconds, at which frame [i] starts in one pass of the
  animation: ten times the delays of the frames before it. *)
Definition start_time (frames : list GifFrameData) (i : nat) : Z :=
  (10 * foldr (fun f s => delay f + s) 0 (take i frames))%Z.

(** The entries the reducer of [timeline] pushes after an entry [b]. *)
Fixpoint times (b : Z) (frames : list GifFrameData) : list Z :=
  b :: match frames with
       | [] => []
       | f :: rest => times (b + delay f * 10) rest
       end.

(** The mark of frame [k], if there is such a frame. *)
Definition mark (frameStates : list FrameState) (k : Z) : option bool :=
  is_deleted <$> JS.index frameStates k.

End Editor.

(** ** More test data *)

Module Fixture.

(** The first frame [four_frames] yields. *)
Definition four_frames_first : Utils.GifFrameData :=
  Eval vm_compute in
    default {| Utils.index := 0; Utils.delay := 0; Utils.data := Canvas.newCanvas 0 0;
               Utils.isPaletteGlobal := true; Utils.palette := [] |}
      ((Utils.loadFrames Utils.transfers Sample.four_frames).1 !! 0).

Definition marks_one_dropped : list FileEditor.FrameState :=
  [Sample.kept; Sample.gone; Sample.kept].

Definition view (s : Z) : Editor.View :=
  {| Editor.isPlaying := false; Editor.selectedFrame := s;
     Editor.frameStates := marks_one_dropped |}.

(** What [loadFrames] of src/gif.ts returns for [Sample.four_frames]. *)
Definition legacy_frames : list Gif.GifFrameData :=
  Eval vm_compute in
    match Gif.loadFrames Sample.four_frames with
    | JS.Ok frames => frames
    | JS.Throw _ => []
    end.

(** A frame that carries no palette. *)
Definition bare_frame : Gif.GifFrameData :=
  {| Gif.info := Sample.frameInfo 0 0 1 1 10 0; Gif.index := 0;
     Gif.data := Sample.solid 1 1 1;
     Gif.paletteGlobal := None; Gif.paletteLocal := None |}.

(** A byte of a typed array. *)
Definition is_byte (z : Z) : Prop := (0 <= z < 256)%Z.

(** A colour as [convertPalette] and [encodeImage] pack it, for bytes. *)
Definition rgb (r g b : Z) : Z := (r * 65536 + g * 256 + b)%Z.

(** Two palette entries, (1, 2, 3) and (7, 0, 0), as the decoder leaves them. *)
Definition raw_palette : list Z := [1; 2; 3; 7; 0; 0]%Z.

End Fixture.

(** ** The generator between frames *)

Module Between.
Import Canvas Inv.

(** The state the generator is in before frame [k]. *)
Definition settled (gifReader : GifReader.t) (k : nat) (yielded : list Utils.GifFrameData)
    (st : Utils.LoadState) : Prop :=
  length yielded = k /\
  iwidth (Utils.scratchData st) = GifReader.width gifReader /\
  iheight (Utils.scratchData st) = GifReader.height gifReader /\
  sized (GifReader.width gifReader) (GifReader.height gifReader) (Utils.canvas st) /\
  match k with
  | 0 => Utils.prevFrameInfo st = None /\ Utils.canvas st =
           newCanvas (GifReader.width gifReader) (GifReader.height gifReader)
  | S j => Utils.prevFrameInfo st = GifReader.frames gifReader !! j /\
           Utils.data <$> last yielded = Some (Utils.canvas st)
  end.

End Between.

(** * Properties *)

(** ** The canvas *)

Section CanvasFacts.
Import Canvas Inv.

Lemma cell_col (w x y : nat) : x < w -> (y * w + x) mod w = x.
Proof.
  intros Hx. rewrite Nat.add_comm, Nat.Div0.mod_add. by apply Nat.mod_small.
Qed.

Lemma cell_row (w x y : nat) : x < w -> (y * w + x) / w = y.
Proof.
  intros Hx. rewrite Nat.add_comm, Nat.div_add by lia.
  rewrite Nat.div_small by done. lia.
Qed.

Lemma in_rect_inside x0 y0 w h x y :
  in_rect x0 y0 w h x y = true <-> Run.inside x0 y0 w h x y.
Proof.
  unfold in_rect, Run.inside.
  rewrite !andb_true_iff, !Nat.leb_le, !Nat.ltb_lt. lia.
Qed.

(** What [clearRect] does to each pixel of the canvas. *)
Lemma clearRect_pixel (c : Raster) (x0 y0 w h x y : nat) :
  x < width c ->
  pixel_at (clearRect c x0 y0 w h) x y =
    (fun p => if in_rect x0 y0 w h x y then transparent_black else p) <$> pixel_at c x y.
Proof.
  intros Hx. unfold pixel_at, clearRect. simpl.
  rewrite list_lookup_imap, cell_col, cell_row by done. done.
Qed.

Lemma sized_newCanvas w h : sized w h (newCanvas w h).
Proof. unfold sized. simpl. by rewrite length_replicate. Qed.

Lemma sized_clearRect w h c x0 y0 rw rh :
  sized w h c -> sized w h (clearRect c x0 y0 rw rh).
Proof. unfold sized. simpl. by rewrite length_imap. Qed.

Lemma sized_putImageData w h c img dx dy x0 y0 rw rh :
  sized w h c -> sized w h (putImageData c img dx dy x0 y0 rw rh).
Proof. unfold sized. simpl. by rewrite length_imap. Qed.

Lemma sized_drawImage w h c image dx dy :
  sized w h c -> sized w h (drawImage c image dx dy).
Proof. unfold sized. simpl. by rewrite length_imap. Qed.

Lemma sized_pixel w h c x y :
  sized w h c -> x < w -> y < h -> is_Some (pixel_at c x y).
Proof.
  intros (Hw & _ & Hl) Hx Hy. unfold pixel_at.
  apply lookup_lt_is_Some. rewrite Hl, Hw. nia.
Qed.

(** What [drawImage(image, 0, 0)] does to a pixel when the image has the
  size of the canvas. *)
Lemma drawImage_pixel w h c image x y s p :
  sized w h c -> sized w h image -> x < w -> y < h ->
  pixel_at image x y = Some s ->
  pixel_at c x y = Some p ->
  pixel_at (drawImage c image 0 0) x y = Some (source_over s p).
Proof.
  intros (Hw & Hh & Hl) (Hw' & Hh' & Hl') Hx Hy Hs Hp.
  unfold pixel_at at 1. unfold drawImage. simpl.
  rewrite list_lookup_imap. fold (pixel_at c x y). rewrite Hp. simpl.
  rewrite Hw, cell_col, cell_row, !Nat.sub_0_r, Hw', Hh' by done.
  rewrite Hs.
  destruct (Nat.ltb_spec x w); [|lia]. destruct (Nat.ltb_spec y h); [|lia]. done.
Qed.

End CanvasFacts.

(** ** The disposal compositor of src/gif/utils.ts *)

Section Compositor.
Import JS Canvas Utils Inv Between.

(** Facts about the run over one file. *)
Section OneFile.
Variable gifReader : GifReader.t.

Lemma guarded_init : guarded (initLoad gifReader).
Proof. intros [? H]. discriminate H. Qed.

Lemma nextRestorePoint_is_Some rp frameInfo frameData :
  is_Some (nextRestorePoint rp frameInfo frameData).
Proof.
  unfold nextRestorePoint. destruct rp; simpl; [|done].
  destruct (negb _); done.
Qed.

Lemma shaped_init : shaped gifReader (initLoad gifReader).
Proof. split; [apply sized_newCanvas | intros rp H; discriminate H]. Qed.

Lemma decode_dimensions i frameInfo scratch :
  iwidth (decode gifReader i frameInfo scratch).1 = iwidth scratch /\
  iheight (decode gifReader i frameInfo scratch).1 = iheight scratch.
Proof.
  unfold decode.
  by destruct (GifReader.decodeAndBlitFrameRGBA gifReader i (bytes scratch) _).
Qed.

(** *** Whatever the consumer does with the frames *)

Section AnyConsumer.
Variable consumer : Consumer.

Lemma loadFrame_after_dispose i frameInfo st c1 :
  dispose consumer st = Ok c1 ->
  exists frameData st',
    loadFrame consumer gifReader i frameInfo st = Ok (frameData, st') /\
    index frameData = i /\
    data frameData = canvas st' /\
    canvas st' = paint c1 (decode gifReader i frameInfo (scratchData st)).1 frameInfo /\
    prevFrameInfo st' = Some frameInfo /\
    prevRestorePoint st' = nextRestorePoint (prevRestorePoint st) frameInfo frameData.
Proof.
  intros Hd. unfold loadFrame. rewrite Hd. simpl.
  destruct (decode gifReader i frameInfo (scratchData st)) as [scratch pal].
  eexists _, _. split; [reflexivity|]. simpl. done.
Qed.

Lemma loadFrame_fields i frameInfo st frameData st' :
  loadFrame consumer gifReader i frameInfo st = Ok (frameData, st') ->
  index frameData = i /\
  delay frameData = GifFrameInfo.delay frameInfo /\
  isPaletteGlobal frameData = negb (GifFrameInfo.has_local_palette frameInfo) /\
  palette frameData = convertPalette (decode gifReader i frameInfo (scratchData st)).2 /\
  data frameData = canvas st' /\
  scratchData st' = (decode gifReader i frameInfo (scratchData st)).1 /\
  prevFrameInfo st' = Some frameInfo /\
  prevRestorePoint st' = nextRestorePoint (prevRestorePoint st) frameInfo frameData /\
  exists c1, dispose consumer st = Ok c1 /\
    canvas st' = paint c1 (decode gifReader i frameInfo (scratchData st)).1 frameInfo.
Proof.
  unfold loadFrame. destruct (dispose consumer st) as [c1|e]; [|discriminate]. simpl.
  destruct (decode gifReader i frameInfo (scratchData st)) as [scratch pal].
  intros [= <- <-]. simpl. repeat split; try done. by exists c1.
Qed.

(** After any iteration there is a restore point. *)
Lemma loadFrame_keeps_guard i frameInfo st frameData st' :
  loadFrame consumer gifReader i frameInfo st = Ok (frameData, st') -> guarded st'.
Proof.
  intros Hload.
  destruct (loadFrame_fields _ _ _ _ _ Hload) as (_ & _ & _ & _ & _ & _ & _ & Hnext & _).
  intros _. rewrite Hnext. apply nextRestorePoint_is_Some.
Qed.

(** The guard of the disposal step is never the reason for a throw. *)
Lemma dispose_throws st e :
  guarded st -> dispose consumer st = Throw e -> e = InvalidStateError.
Proof.
  intros G. unfold dispose.
  destruct (prevFrameInfo st) as [prev|] eqn:Hp; [|done].
  destruct (G ltac:(done)) as [rp ->].
  destruct (GifFrameInfo.disposal prev) as [|[|[|[|n]]]]; try done.
  destruct (consumer rp); [by intros [= <-] | done].
Qed.

Lemma loadFrame_throws i frameInfo st e :
  guarded st ->
  loadFrame consumer gifReader i frameInfo st = Throw e -> e = InvalidStateError.
Proof.
  intros G. unfold loadFrame.
  destruct (dispose consumer st) as [c1|e'] eqn:Hd; simpl.
  - by destruct (decode gifReader i frameInfo (scratchData st)).
  - intros [= <-]. by eapply dispose_throws.
Qed.

Lemma loadFrames_from_throws infos : forall i st yielded e,
  guarded st ->
  loadFrames_from consumer gifReader infos i st = (yielded, Throw e) ->
  e = InvalidStateError.
Proof.
  induction infos as [|frameInfo rest IH]; intros i st yielded e G H; simpl in H.
  - discriminate H.
  - destruct (loadFrame consumer gifReader i frameInfo st) as [[fd st1]|e'] eqn:Hl.
    + destruct (loadFrames_from consumer gifReader rest (S i) st1) as [ys ending] eqn:Hrest.
      injection H as _ ->. eapply IH; [|exact Hrest]. by eapply loadFrame_keeps_guard.
    + injection H as _ <-. by eapply loadFrame_throws.
Qed.

(** A run that throws has yielded fewer frames than there are descriptors; a
  run that ends normally has yielded one frame per descriptor. *)
Lemma loadFrames_from_length infos : forall i st yielded ending,
  loadFrames_from consumer gifReader infos i st = (yielded, ending) ->
  if is_ok ending then length yielded = length infos
  else length yielded < length infos.
Proof.
  induction infos as [|frameInfo rest IH]; intros i st yielded ending H; simpl in H.
  - by injection H as <- <-.
  - destruct (loadFrame consumer gifReader i frameInfo st) as [[fd st1]|e'] eqn:Hl.
    + destruct (loadFrames_from consumer gifReader rest (S i) st1) as [ys ending'] eqn:Hrest.
      injection H as <- <-. specialize (IH _ _ _ _ Hrest).
      destruct (is_ok ending'); simpl; lia.
    + injection H as <- <-. simpl. lia.
Qed.

Lemma loadFrames_from_app infos1 infos2 : forall i st yielded1 st1,
  loadFrames_from consumer gifReader infos1 i st = (yielded1, Ok st1) ->
  loadFrames_from consumer gifReader (infos1 ++ infos2) i st =
    (yielded1 ++ (loadFrames_from consumer gifReader infos2 (i + length infos1) st1).1,
     (loadFrames_from consumer gifReader infos2 (i + length infos1) st1).2).
Proof.
  induction infos1 as [|frameInfo rest IH]; intros i st yielded1 st1 H; simpl in *.
  - inversion H; subst. rewrite Nat.add_0_r. simpl.
    by destruct (loadFrames_from consumer gifReader infos2 i st1).
  - destruct (loadFrame consumer gifReader i frameInfo st) as [[frameData st']|e];
      [|discriminate].
    destruct (loadFrames_from consumer gifReader rest (S i) st') as [ys ending] eqn:Hrest.
    inversion H; subst.
    rewrite (IH (S i) st' ys st1 Hrest).
    replace (i + S (length rest)) with (S i + length rest) by lia. done.
Qed.

(** A run over one more descriptor that ends normally is a run that ends
  normally followed by one iteration. *)
Lemma loadFrames_from_snoc infos frameInfo : forall i st yielded st',
  loadFrames_from consumer gifReader (infos ++ [frameInfo]) i st = (yielded, Ok st') ->
  exists yielded0 st0 frameData,
    loadFrames_from consumer gifReader infos i st = (yielded0, Ok st0) /\
    loadFrame consumer gifReader (i + length infos) frameInfo st0 = Ok (frameData, st') /\
    yielded = yielded0 ++ [frameData].
Proof.
  induction infos as [|a rest IH]; intros i st yielded st' H; simpl in H.
  - destruct (loadFrame consumer gifReader i frameInfo st) as [[fd st1]|e] eqn:Hl;
      [|discriminate].
    injection H as <- <-. exists [], st, fd. simpl. by rewrite Nat.add_0_r.
  - destruct (loadFrame consumer gifReader i a st) as [[fd st1]|e] eqn:Hl; [|discriminate].
    destruct (loadFrames_from consumer gifReader (rest ++ [frameInfo]) (S i) st1)
      as [ys ending] eqn:Hrest.
    injection H as <- ->.
    destruct (IH _ _ _ _ Hrest) as (ys0 & st0 & fd' & Hrun & Hload & ->).
    exists (fd :: ys0), st0, fd'. simpl. rewrite Hl, Hrun.
    split; [done|]. split; [|done].
    by replace (i + S (length rest)) with (S i + length rest) by lia.
Qed.

(** The run over the first [k] frames, and its extension by one frame. *)
Lemma composited_step k frameInfo yielded st frameData st' :
  GifReader.frames gifReader !! k = Some frameInfo ->
  Run.composited consumer gifReader k = (yielded, Ok st) ->
  loadFrame consumer gifReader k frameInfo st = Ok (frameData, st') ->
  Run.composited consumer gifReader (S k) = (yielded ++ [frameData], Ok st').
Proof.
  intros Hk Hrun Hload. unfold Run.composited in *.
  rewrite (take_S_r _ _ _ Hk).
  rewrite (loadFrames_from_app _ _ _ _ _ _ Hrun).
  rewrite length_take_le by (apply lookup_lt_Some in Hk; lia).
  simpl. by rewrite Hload.
Qed.

Lemma composited_back k frameInfo yielded st' :
  GifReader.frames gifReader !! k = Some frameInfo ->
  Run.composited consumer gifReader (S k) = (yielded, Ok st') ->
  exists yielded0 st frameData,
    Run.composited consumer gifReader k = (yielded0, Ok st) /\
    loadFrame consumer gifReader k frameInfo st = Ok (frameData, st') /\
    yielded = yielded0 ++ [frameData].
Proof.
  intros Hk Hrun. unfold Run.composited in *.
  rewrite (take_S_r _ _ _ Hk) in Hrun.
  destruct (loadFrames_from_snoc _ _ _ _ _ _ Hrun) as (ys0 & st0 & fd & Hrun0 & Hload & ->).
  rewrite length_take_le in Hload by (apply lookup_lt_Some in Hk; lia).
  by exists ys0, st0, fd.
Qed.

(** What the whole run yields extends what a shorter run yields. *)
Lemma composited_prefix k yielded st :
  Run.composited consumer gifReader k = (yielded, Ok st) ->
  exists more, (loadFrames consumer gifReader).1 = yielded ++ more.
Proof.
  intros Hrun. unfold loadFrames, Run.composited in *.
  pose proof (loadFrames_from_app _ (drop k (GifReader.frames gifReader))
                _ _ _ _ Hrun) as Happ.
  rewrite take_drop in Happ. rewrite Happ. simpl. by eexists.
Qed.

(** Induction along a run of the generator that has not thrown. *)
Lemma composited_induction (P : nat -> list GifFrameData -> LoadState -> Prop) :
  P 0 [] (initLoad gifReader) ->
  (forall k frameInfo yielded st frameData st',
      GifReader.frames gifReader !! k = Some frameInfo ->
      Run.composited consumer gifReader k = (yielded, Ok st) ->
      P k yielded st ->
      loadFrame consumer gifReader k frameInfo st = Ok (frameData, st') ->
      P (S k) (yielded ++ [frameData]) st') ->
  forall k yielded st,
    k <= GifReader.numFrames gifReader ->
    Run.composited consumer gifReader k = (yielded, Ok st) ->
    P k yielded st.
Proof.
  intros H0 Hstep. induction k as [|k IH]; intros yielded st Hk Hrun.
  - unfold Run.composited in Hrun. rewrite take_0 in Hrun. simpl in Hrun.
    by injection Hrun as <- <-.
  - destruct (lookup_lt_is_Some_2 (GifReader.frames gifReader) k) as [frameInfo Hf];
      [unfold GifReader.numFrames in Hk; lia|].
    destruct (composited_back _ _ _ _ Hf Hrun) as (ys0 & st0 & fd & Hrun0 & Hload & ->).
    eapply Hstep; eauto. apply IH; [lia|done].
Qed.

(** A frame the generator has yielded was composited in a run that had not
  thrown. *)
Lemma loadFrames_from_lookup infos : forall i st j frameData,
  (loadFrames_from consumer gifReader infos i st).1 !! j = Some frameData ->
  exists frameInfo yielded before after,
    infos !! j = Some frameInfo /\
    loadFrames_from consumer gifReader (take j infos) i st = (yielded, Ok before) /\
    length yielded = j /\
    loadFrame consumer gifReader (i + j) frameInfo before = Ok (frameData, after).
Proof.
  induction infos as [|a rest IH]; intros i st j frameData H; simpl in H.
  - by destruct j.
  - destruct (loadFrame consumer gifReader i a st) as [[fd st1]|e] eqn:Hl;
      [|by destruct j].
    destruct (loadFrames_from consumer gifReader rest (S i) st1) as [ys ending] eqn:Hrest.
    destruct j as [|j]; simpl in H.
    + injection H as <-. exists a, [], st, st1. simpl. by rewrite Nat.add_0_r.
    + destruct (IH (S i) st1 j frameData) as (fi & ys0 & before & after & Hfi & Hrun & Hlen & Hload);
        [by rewrite Hrest|].
      exists fi, (fd :: ys0), before, after. simpl. rewrite Hl, Hrun.
      split; [done|]. split; [done|]. split; [simpl; lia|].
      by replace (i + S j) with (S i + j) by lia.
Qed.

Lemma yielded_reached i frameData :
  (loadFrames consumer gifReader).1 !! i = Some frameData ->
  exists frameInfo yielded before after,
    GifReader.frames gifReader !! i = Some frameInfo /\
    Run.composited consumer gifReader i = (yielded, Ok before) /\
    length yielded = i /\
    loadFrame consumer gifReader i frameInfo before = Ok (frameData, after).
Proof. intros H. by apply loadFrames_from_lookup in H. Qed.

Lemma yielded_at i frameInfo yielded st frameData st' :
  GifReader.frames gifReader !! i = Some frameInfo ->
  Run.composited consumer gifReader i = (yielded, Ok st) ->
  length yielded = i ->
  loadFrame consumer gifReader i frameInfo st = Ok (frameData, st') ->
  (loadFrames consumer gifReader).1 !! i = Some frameData.
Proof.
  intros Hi Hrun Hlen Hload.
  assert (Hstep := composited_step _ _ _ _ _ _ Hi Hrun Hload).
  destruct (composited_prefix _ _ _ Hstep) as [more ->].
  rewrite <- (assoc_L (++)), lookup_app_r by lia.
  by rewrite Hlen, Nat.sub_diag.
Qed.

Lemma yielded_before k yielded st j :
  Run.composited consumer gifReader k = (yielded, Ok st) ->
  j < length yielded ->
  (loadFrames consumer gifReader).1 !! j = yielded !! j.
Proof.
  intros Hrun Hj. destruct (composited_prefix _ _ _ Hrun) as [more ->].
  by rewrite lookup_app_l.
Qed.

Lemma dispose_sized w h st c1 :
  sized w h (canvas st) -> dispose consumer st = Ok c1 -> sized w h c1.
Proof.
  intros Hs. unfold dispose.
  destruct (prevFrameInfo st) as [prev|]; [|by intros [= <-]].
  destruct (GifFrameInfo.disposal prev) as [|[|[|[|n]]]]; try by intros [= <-].
  - intros [= <-]. by apply sized_clearRect.
  - destruct (prevRestorePoint st) as [rp|]; [|discriminate].
    destruct (consumer rp); [discriminate|].
    intros [= <-]. by apply sized_drawImage.
Qed.

Lemma dispose_keeps st prev c1 :
  prevFrameInfo st = Some prev ->
  GifFrameInfo.disposal prev <> 2 -> GifFrameInfo.disposal prev <> 3 ->
  dispose consumer st = Ok c1 -> c1 = canvas st.
Proof.
  intros Hp H2 H3. unfold dispose. rewrite Hp.
  destruct (GifFrameInfo.disposal prev) as [|[|[|[|n]]]]; try done; by intros [= <-].
Qed.

Lemma shaped_loadFrame i frameInfo st frameData st' :
  shaped gifReader st ->
  loadFrame consumer gifReader i frameInfo st = Ok (frameData, st') ->
  shaped gifReader st'.
Proof.
  intros [Hc Hrp] Hload.
  destruct (loadFrame_fields _ _ _ _ _ Hload)
    as (_ & _ & _ & _ & Hdat & _ & _ & Hnext & c1 & Hd & Hcanvas).
  pose proof (dispose_sized _ _ _ _ Hc Hd) as Hc1.
  assert (Hs' : sized (GifReader.width gifReader) (GifReader.height gifReader) (canvas st')).
  { rewrite Hcanvas. by apply sized_putImageData. }
  split; [done|]. intros rp. rewrite Hnext. unfold nextRestorePoint.
  destruct (_ || _).
  - intros [= <-]. by rewrite Hdat.
  - apply Hrp.
Qed.

(** The state the generator is in when it has composited [k] frames. *)
Lemma settled_run k yielded st :
  k <= GifReader.numFrames gifReader ->
  Run.composited consumer gifReader k = (yielded, Ok st) ->
  settled gifReader k yielded st /\ shaped gifReader st /\ guarded st.
Proof.
  revert k yielded st. apply composited_induction.
  - split; [|split; [apply shaped_init | apply guarded_init]].
    repeat split; try done. apply sized_newCanvas.
  - intros j frameInfo yielded st frameData st' Hf Hrun
      ((Hlen & Hw & Hh & Hs & _) & Hshaped & _) Hload.
    destruct (loadFrame_fields _ _ _ _ _ Hload)
      as (_ & _ & _ & _ & Hdat & Hscr & Hprev & _ & _).
    destruct (decode_dimensions j frameInfo (scratchData st)) as [Hdw Hdh].
    pose proof (shaped_loadFrame _ _ _ _ _ Hshaped Hload) as Hshaped'.
    split; [|split; [done | by eapply loadFrame_keeps_guard]].
    split; [rewrite length_app; simpl; lia|].
    rewrite Hscr, Hdw, Hdh. split; [done|]. split; [done|].
    split; [by destruct Hshaped'|].
    split; [by rewrite Hprev|]. rewrite last_snoc. simpl. by rewrite Hdat.
Qed.

Lemma shaped_composited k yielded st :
  k <= GifReader.numFrames gifReader ->
  Run.composited consumer gifReader k = (yielded, Ok st) -> shaped gifReader st.
Proof. intros Hk Hrun. by destruct (settled_run _ _ _ Hk Hrun) as (_ & ? & _). Qed.

(** A run that has not thrown is the run a reading consumer would see. *)
Lemma dispose_reads st c1 : dispose consumer st = Ok c1 -> dispose reads st = Ok c1.
Proof.
  unfold dispose. destruct (prevFrameInfo st) as [prev|]; [|done].
  destruct (GifFrameInfo.disposal prev) as [|[|[|[|n]]]]; try done.
  destruct (prevRestorePoint st) as [rp|]; [|done].
  by destruct (consumer rp).
Qed.

Lemma loadFrame_reads i frameInfo st r :
  loadFrame consumer gifReader i frameInfo st = Ok r ->
  loadFrame reads gifReader i frameInfo st = Ok r.
Proof.
  unfold loadFrame. destruct (dispose consumer st) as [c1|e] eqn:Hd; [|discriminate].
  by rewrite (dispose_reads _ _ Hd).
Qed.

Lemma loadFrames_from_reads infos : forall i st yielded st',
  loadFrames_from consumer gifReader infos i st = (yielded, Ok st') ->
  loadFrames_from reads gifReader infos i st = (yielded, Ok st').
Proof.
  induction infos as [|frameInfo rest IH]; intros i st yielded st' H; simpl in *; [done|].
  destruct (loadFrame consumer gifReader i frameInfo st) as [[fd st1]|e] eqn:Hl;
    [|discriminate].
  rewrite (loadFrame_reads _ _ _ _ Hl).
  destruct (loadFrames_from consumer gifReader rest (S i) st1) as [ys ending] eqn:Hrest.
  injection H as <- ->. by rewrite (IH _ _ _ _ Hrest).
Qed.

(** The disposal step does not look at the consumer unless it restores. *)
Lemma dispose_untouched st :
  (forall prev, prevFrameInfo st = Some prev -> GifFrameInfo.disposal prev <> 3) ->
  dispose consumer st = dispose reads st.
Proof.
  intros H. unfold dispose. destruct (prevFrameInfo st) as [prev|]; [|done].
  specialize (H prev eq_refl).
  by destruct (GifFrameInfo.disposal prev) as [|[|[|[|n]]]].
Qed.

Lemma loadFrame_untouched i frameInfo st :
  (forall prev, prevFrameInfo st = Some prev -> GifFrameInfo.disposal prev <> 3) ->
  loadFrame consumer gifReader i frameInfo st = loadFrame reads gifReader i frameInfo st.
Proof. intros H. unfold loadFrame. by rewrite (dispose_untouched _ H). Qed.

End AnyConsumer.

(** *** A consumer that only reads *)

Lemma dispose_guarded st : guarded st -> exists c1, dispose reads st = Ok c1.
Proof.
  intros G. unfold dispose.
  destruct (prevFrameInfo st) as [prev|] eqn:Hp; [|by eexists].
  destruct (G (ltac:(done))) as [rp Hrp]. rewrite Hrp.
  destruct (GifFrameInfo.disposal prev) as [|[|[|[|n]]]]; by eexists.
Qed.

Lemma loadFrame_guarded i frameInfo st :
  guarded st ->
  exists frameData st',
    loadFrame reads gifReader i frameInfo st = Ok (frameData, st') /\
    index frameData = i /\
    data frameData = canvas st' /\
    prevFrameInfo st' = Some frameInfo /\
    prevRestorePoint st' = nextRestorePoint (prevRestorePoint st) frameInfo frameData /\
    guarded st'.
Proof.
  intros G. destruct (dispose_guarded st G) as [c1 Hd].
  destruct (loadFrame_after_dispose reads i frameInfo st c1 Hd)
    as (frameData & st' & Hl & Hi & Hdat & _ & Hp & Hrp).
  exists frameData, st'. repeat split; try done.
  intros _. rewrite Hrp. apply nextRestorePoint_is_Some.
Qed.

(** Read only, the generator never throws: it yields one frame per
  descriptor. *)
Lemma loadFrames_from_total infos : forall i st,
  guarded st ->
  exists yielded st',
    loadFrames_from reads gifReader infos i st = (yielded, Ok st') /\
    length yielded = length infos /\
    guarded st'.
Proof.
  induction infos as [|frameInfo rest IH]; intros i st G; simpl.
  - by exists [], st.
  - destruct (loadFrame_guarded i frameInfo st G)
      as (frameData & st1 & Hl & _ & _ & _ & _ & G1).
    rewrite Hl. destruct (IH (S i) st1 G1) as (ys & st' & Hrun & Hlen & G').
    rewrite Hrun. exists (frameData :: ys), st'. simpl. by rewrite Hlen.
Qed.

Lemma composited_total k :
  exists yielded st,
    Run.composited reads gifReader k = (yielded, Ok st) /\
    length yielded = length (take k (GifReader.frames gifReader)) /\
    guarded st.
Proof. apply loadFrames_from_total, guarded_init. Qed.

(** *** The decode worker, which transfers every bitmap *)

Lemma dispose_transferred st prev :
  guarded st ->
  prevFrameInfo st = Some prev -> GifFrameInfo.disposal prev = 3 ->
  dispose transfers st = Throw InvalidStateError.
Proof.
  intros G Hp Hd. unfold dispose. rewrite Hp, Hd.
  destruct (G ltac:(by rewrite Hp)) as [rp ->]. done.
Qed.

(** The worker's run is the reading run cut after the first frame that
  declares disposal 3; if a frame follows that one, the run ends there with
  an InvalidStateError. *)
Lemma loadFrames_from_transfers infos : forall i st,
  guarded st ->
  (forall prev, prevFrameInfo st = Some prev -> GifFrameInfo.disposal prev <> 3) ->
  loadFrames_from transfers gifReader infos i st =
    (take (Run.until_restore infos) (loadFrames_from reads gifReader infos i st).1,
     if Run.until_restore infos <? length infos then Throw InvalidStateError
     else (loadFrames_from reads gifReader infos i st).2).
Proof.
  induction infos as [|frameInfo rest IH]; intros i st G Hprev; [done|].
  cbn [loadFrames_from Run.until_restore].
  rewrite (loadFrame_untouched transfers _ _ _ Hprev).
  destruct (loadFrame_guarded i frameInfo st G)
    as (frameData & st1 & Hl & _ & _ & Hp & _ & G1).
  rewrite Hl.
  destruct (Nat.eqb_spec (GifFrameInfo.disposal frameInfo) 3) as [H3|H3].
  - destruct rest as [|next rest]; [done|].
    remember (loadFrames_from reads gifReader (next :: rest) (S i) st1) as run.
    cbn [loadFrames_from]. unfold loadFrame at 1.
    rewrite (dispose_transferred st1 frameInfo G1 Hp H3). cbn [bind].
    by destruct run.
  - rewrite (IH (S i) st1 G1); [|intros prev Hprev'; rewrite Hp in Hprev'; by injection Hprev' as <-].
    by destruct (loadFrames_from reads gifReader rest (S i) st1).
Qed.

End OneFile.

Lemma until_restore_le infos : Run.until_restore infos <= length infos.
Proof.
  induction infos as [|frameInfo rest IH]; simpl; [done|].
  destruct (GifFrameInfo.disposal frameInfo =? 3); lia.
Qed.

Lemma until_restore_first infos : forall i frameInfo,
  infos !! i = Some frameInfo ->
  GifFrameInfo.disposal frameInfo = 3 ->
  Forall (fun f => GifFrameInfo.disposal f <> 3) (take i infos) ->
  Run.until_restore infos = S i.
Proof.
  induction infos as [|a rest IH]; intros i frameInfo Hi H3 Hbefore; [done|].
  destruct i as [|i]; simpl in *.
  - injection Hi as ->. by rewrite H3.
  - apply Forall_cons in Hbefore as [Ha Hbefore].
    destruct (Nat.eqb_spec (GifFrameInfo.disposal a) 3); [done|].
    by rewrite (IH i frameInfo).
Qed.

Lemma until_restore_all infos :
  (forall j frameInfo, S j < length infos -> infos !! j = Some frameInfo ->
                       GifFrameInfo.disposal frameInfo <> 3) ->
  Run.until_restore infos = length infos.
Proof.
  induction infos as [|a rest IH]; intros H; simpl; [done|].
  destruct (Nat.eqb_spec (GifFrameInfo.disposal a) 3) as [H3|H3].
  - destruct rest as [|b rest]; [done|].
    exfalso. apply (H 0 a); simpl; [lia|done|done].
  - rewrite IH; [done|]. intros j frameInfo Hj Hf. apply (H (S j) frameInfo); simpl; [lia|done].
Qed.

Lemma until_restore_take infos : forall i frameInfo,
  infos !! i = Some frameInfo ->
  GifFrameInfo.disposal frameInfo = 3 ->
  Forall (fun f => GifFrameInfo.disposal f <> 3) (take i infos) ->
  Run.until_restore (take (S i) infos) = S i.
Proof.
  intros i frameInfo Hi H3 Hbefore.
  apply (until_restore_first _ i frameInfo); [|done|].
  - rewrite lookup_take_lt by lia. done.
  - by rewrite take_take, Nat.min_l by lia.
Qed.

(** The worker's run over a whole file. *)
Lemma loadFrames_transfers gifReader :
  loadFrames transfers gifReader =
    (take (Run.until_restore (GifReader.frames gifReader)) (loadFrames reads gifReader).1,
     if Run.until_restore (GifReader.frames gifReader) <? GifReader.numFrames gifReader
     then Throw InvalidStateError
     else (loadFrames reads gifReader).2).
Proof.
  unfold loadFrames. apply loadFrames_from_transfers; [apply guarded_init | done].
Qed.

(** The worker's run up to and including the first frame that declares
  disposal 3, and the throw at the frame after it. *)
Lemma transfers_until_restore gifReader i frameInfo :
  GifReader.frames gifReader !! i = Some frameInfo ->
  GifFrameInfo.disposal frameInfo = 3 ->
  Forall (fun f => GifFrameInfo.disposal f <> 3) (take i (GifReader.frames gifReader)) ->
  exists yielded st more,
    Run.composited transfers gifReader (S i) = (yielded, Ok st) /\
    Run.composited reads gifReader (S i) = (yielded, Ok st) /\
    (loadFrames reads gifReader).1 = yielded ++ more /\
    length yielded = S i /\
    prevFrameInfo st = Some frameInfo /\
    guarded st /\
    dispose transfers st = Throw InvalidStateError /\
    (S i < GifReader.numFrames gifReader ->
     loadFrames transfers gifReader = (yielded, Throw InvalidStateError)).
Proof.
  intros Hi H3 Hbefore.
  assert (Hlt : i < length (GifReader.frames gifReader)) by by eapply lookup_lt_Some.
  destruct (composited_total gifReader (S i)) as (yielded & st & Hrun & Hlen & G).
  rewrite length_take_le in Hlen by lia.
  destruct (settled_run gifReader reads (S i) yielded st) as ((_ & _ & _ & _ & Hp & _) & _);
    [unfold GifReader.numFrames; lia | done |].
  rewrite Hi in Hp.
  destruct (composited_prefix gifReader reads _ _ _ Hrun) as [more Hmore].
  exists yielded, st, more.
  assert (Hrun' : Run.composited transfers gifReader (S i) = (yielded, Ok st)).
  { unfold Run.composited in *.
    rewrite loadFrames_from_transfers by (apply guarded_init || done).
    rewrite (until_restore_take _ i frameInfo Hi H3 Hbefore), Hrun.
    rewrite length_take_le by lia. cbn [fst snd].
    rewrite Nat.ltb_irrefl. by rewrite take_ge by lia. }
  split; [done|]. split; [done|]. split; [done|]. split; [done|]. split; [done|].
  split; [done|]. split; [by apply (dispose_transferred st frameInfo)|].
  intros Hnext. rewrite loadFrames_transfers.
  rewrite (until_restore_first _ i frameInfo Hi H3 Hbefore), Hmore.
  destruct (Nat.ltb_spec (S i) (GifReader.numFrames gifReader)); [|lia].
  by rewrite take_app_length' by done.
Qed.

(** C4. When the previous frame's disposal method is 2 (restore to
  background), the disposal step of the next iteration succeeds and yields a
  canvas of the same size in which every pixel inside the previous frame's
  rectangle (x, y, width, height) is transparent black and every pixel
  outside it is the pixel the canvas had; the new frame is then painted on
  that cleared canvas. This holds whatever the consumer does with the
  frames. *)
Theorem restore_background_clears_previous_rectangle
    (consumer : Consumer) (gifReader : GifReader.t) (i : nat)
    (frameInfo prev : GifFrameInfo.t) (st : LoadState) :
  prevFrameInfo st = Some prev ->
  GifFrameInfo.disposal prev = 2 ->
  exists cleared frameData st',
    dispose consumer st = Ok cleared /\
    Canvas.width cleared = Canvas.width (canvas st) /\
    Canvas.height cleared = Canvas.height (canvas st) /\
    (forall x y p,
        x < Canvas.width (canvas st) ->
        pixel_at (canvas st) x y = Some p ->
        (Run.inside (GifFrameInfo.x prev) (GifFrameInfo.y prev)
           (GifFrameInfo.width prev) (GifFrameInfo.height prev) x y ->
         pixel_at cleared x y = Some transparent_black) /\
        (~ Run.inside (GifFrameInfo.x prev) (GifFrameInfo.y prev)
             (GifFrameInfo.width prev) (GifFrameInfo.height prev) x y ->
         pixel_at cleared x y = Some p)) /\
    loadFrame consumer gifReader i frameInfo st = Ok (frameData, st') /\
    canvas st' =
      paint cleared (decode gifReader i frameInfo (scratchData st)).1 frameInfo.
Proof.
  intros Hprev Hdisp.
  set (cleared := clearRect (canvas st) (GifFrameInfo.x prev) (GifFrameInfo.y prev)
                    (GifFrameInfo.width prev) (GifFrameInfo.height prev)).
  assert (Hd : dispose consumer st = Ok cleared).
  { unfold dispose. by rewrite Hprev, Hdisp. }
  destruct (loadFrame_after_dispose gifReader consumer i frameInfo st cleared Hd)
    as (frameData & st' & Hload & _ & _ & Hcanvas & _).
  exists cleared, frameData, st'.
  repeat split; try done.
  - intros Hin. unfold cleared. rewrite clearRect_pixel by done.
    apply in_rect_inside in Hin. rewrite Hin. by rewrite H0.
  - intros Hout. unfold cleared. rewrite clearRect_pixel by done.
    destruct (in_rect _ _ _ _ x y) eqn:E.
    + apply in_rect_inside in E. contradiction.
    + by rewrite H0.
Qed.

Lemma restore_background_clears_previous_rectangle_witness :
  exists cleared,
    dispose transfers Sample.after_two = Ok cleared /\
    pixel_at cleared 0 0 = Some transparent_black /\
    pixel_at cleared 1 0 = Some (RGBA 1 0 0 255).
Proof.
  destruct (restore_background_clears_previous_rectangle transfers Sample.four_frames 2
              (Sample.frameInfo 1 1 1 1 5 3) (Sample.frameInfo 0 0 1 1 20 2)
              Sample.after_two eq_refl eq_refl)
    as (cleared & _ & _ & Hd & _ & _ & Hpix & _).
  exists cleared. split; [exact Hd|]. split.
  - refine (proj1 (Hpix 0 0 (RGBA 2 0 0 255) _ eq_refl) _).
    + simpl. lia.
    + unfold Run.inside. simpl. lia.
  - refine (proj2 (Hpix 1 0 (RGBA 1 0 0 255) _ eq_refl) _).
    + simpl. lia.
    + unfold Run.inside. simpl. lia.
Defined.

Lemma nextRestorePoint_new rp frameInfo frameData :
  GifFrameInfo.disposal frameInfo <> 3 \/ rp = None ->
  nextRestorePoint rp frameInfo frameData = Some frameData.
Proof.
  unfold nextRestorePoint. intros [Hd | ->]; [|done].
  destruct (Nat.eqb_spec (GifFrameInfo.disposal frameInfo) 3); [done|].
  by rewrite orb_true_r.
Qed.

Lemma nextRestorePoint_keep rp frameInfo frameData :
  GifFrameInfo.disposal frameInfo = 3 -> rp <> None ->
  nextRestorePoint rp frameInfo frameData = rp.
Proof.
  unfold nextRestorePoint. intros -> Hrp. by destruct rp.
Qed.

(** C1. Where the code departs from the claim. The restore point is kept as
  the claim says, but the step that is to restore the canvas to it does not
  do so. Part one: in the decode worker, which transfers the bitmap of every
  frame it is handed, the restore point's bitmap is detached by the time it
  is drawn. For every file, if frame i is the first to declare disposal 3
  and a frame follows it, the worker's run composites frames 0 to i, holds a
  restore point, and throws an InvalidStateError in place of frame i + 1: no
  canvas is restored and no further frame is yielded. Part two: for a
  consumer that leaves the bitmaps alone, with disposals 0, 2, 3 for the
  first three frames the restore point after frame 2 is frame 1 and the
  disposal step draws frame 1 over the canvas; where frame 1 is transparent
  the canvas keeps what frame 2 painted, so the canvas is not put back into
  frame 1's state. *)
Theorem restore_previous_does_not_restore :
  (forall (gifReader : GifReader.t) (i : nat) (frameInfo : GifFrameInfo.t),
      GifReader.frames gifReader !! i = Some frameInfo ->
      GifFrameInfo.disposal frameInfo = 3 ->
      Forall (fun f => GifFrameInfo.disposal f <> 3) (take i (GifReader.frames gifReader)) ->
      S i < GifReader.numFrames gifReader ->
      exists yielded st rp,
        Run.composited transfers gifReader (S i) = (yielded, Ok st) /\
        length yielded = S i /\
        prevRestorePoint st = Some rp /\
        dispose transfers st = Throw InvalidStateError /\
        loadFrames transfers gifReader = (yielded, Throw InvalidStateError))
  /\
  (forall (gifReader : GifReader.t) (info0 info1 info2 : GifFrameInfo.t)
          (rest : list GifFrameInfo.t),
      GifReader.frames gifReader = info0 :: info1 :: info2 :: rest ->
      GifFrameInfo.disposal info0 = 0 ->
      GifFrameInfo.disposal info1 = 2 ->
      GifFrameInfo.disposal info2 = 3 ->
      exists frame0 frame1 frame2 after2 restored,
        Run.composited reads gifReader 3 = ([frame0; frame1; frame2], Ok after2) /\
        index frame1 = 1 /\
        prevRestorePoint after2 = Some frame1 /\
        data frame2 = canvas after2 /\
        dispose reads after2 = Ok restored /\
        (forall x y,
            x < GifReader.width gifReader -> y < GifReader.height gifReader ->
            exists s p,
              pixel_at (data frame1) x y = Some s /\
              pixel_at (data frame2) x y = Some p /\
              (alpha s = 255%Z -> pixel_at restored x y = Some s) /\
              (alpha s = 0%Z -> pixel_at restored x y = Some p))).
Proof.
  split.
  - intros gifReader i frameInfo Hi H3 Hbefore Hnext.
    destruct (transfers_until_restore gifReader i frameInfo Hi H3 Hbefore)
      as (yielded & st & more & Hrun & _ & _ & Hlen & Hp & G & Hd & Hall).
    destruct (G ltac:(by rewrite Hp)) as [rp Hrp].
    exists yielded, st, rp. repeat split; try done. by apply Hall.
  - intros gifReader info0 info1 info2 rest Hf D0 D1 D2.
    assert (H0 : Run.composited reads gifReader 0 = ([], Ok (initLoad gifReader))) by done.
    destruct (loadFrame_guarded gifReader 0 info0 _ (guarded_init gifReader))
      as (frame0 & st1 & L0 & _ & _ & _ & R0 & G1).
    assert (H1 : Run.composited reads gifReader 1 = ([frame0], Ok st1)).
    { refine (composited_step gifReader reads 0 info0 [] _ frame0 st1 _ H0 L0).
      by rewrite Hf. }
    destruct (loadFrame_guarded gifReader 1 info1 st1 G1)
      as (frame1 & st2 & L1 & I1 & Dat1 & _ & R1 & G2).
    assert (H2 : Run.composited reads gifReader 2 = ([frame0; frame1], Ok st2)).
    { refine (composited_step gifReader reads 1 info1 [frame0] _ frame1 st2 _ H1 L1).
      by rewrite Hf. }
    destruct (loadFrame_guarded gifReader 2 info2 st2 G2)
      as (frame2 & st3 & L2 & _ & Dat2 & P2 & R2 & _).
    assert (H3 : Run.composited reads gifReader 3 = ([frame0; frame1; frame2], Ok st3)).
    { refine (composited_step gifReader reads 2 info2 [frame0; frame1] _ frame2 st3 _ H2 L2).
      by rewrite Hf. }
    rewrite nextRestorePoint_new in R1 by (left; lia).
    rewrite R1, nextRestorePoint_keep in R2 by done.
    exists frame0, frame1, frame2, st3, (drawImage (canvas st3) (data frame1) 0 0).
    split; [done|]. split; [done|]. split; [done|]. split; [done|].
    split; [unfold dispose; by rewrite P2, D2, R2|].
    intros x y Hx Hy.
    destruct (shaped_composited gifReader reads 3 _ _
                ltac:(unfold GifReader.numFrames; rewrite Hf; simpl; lia) H3)
      as [Hc3 Hrp3].
    specialize (Hrp3 frame1 R2).
    destruct (sized_pixel _ _ _ x y Hrp3) as [s Hs]; [done..|].
    destruct (sized_pixel _ _ _ x y Hc3) as [p Hp]; [done..|].
    exists s, p. split; [done|]. split; [by rewrite Dat2|].
    split; intros Ha; erewrite drawImage_pixel by done;
      unfold source_over; by rewrite Ha.
Qed.

Lemma restore_previous_does_not_restore_witness :
  (exists yielded,
      loadFrames transfers Sample.patches = (yielded, Throw InvalidStateError) /\
      length yielded = 3) /\
  (exists frame1 after2 restored,
      prevRestorePoint after2 = Some frame1 /\
      dispose reads after2 = Ok restored /\
      pixel_at (data frame1) 1 1 = Some transparent_black /\
      pixel_at restored 1 1 = Some (RGBA 3 0 0 255)).
Proof.
  split.
  - destruct (proj1 restore_previous_does_not_restore Sample.patches 2
                (Sample.frameInfo 1 1 1 1 5 3) eq_refl eq_refl)
      as (yielded & st & rp & _ & Hlen & _ & _ & Hall).
    + repeat (apply Forall_cons; split; [simpl; lia|]). apply Forall_nil_2.
    + unfold GifReader.numFrames. simpl. lia.
    + by exists yielded.
  - destruct (proj2 restore_previous_does_not_restore Sample.patches
                _ _ _ _ eq_refl eq_refl eq_refl eq_refl)
      as (frame0 & frame1 & frame2 & after2 & restored & H3 & _ & Hrp & _ & Hd & Hpix).
    exists frame1, after2, restored. split; [exact Hrp|]. split; [exact Hd|].
    destruct (Hpix 1 1) as (s & p & Hs & Hp & _ & Htr); [simpl; lia..|].
    vm_compute in H3. injection H3 as _ <- <- _.
    vm_compute in Hs. injection Hs as <-.
    vm_compute in Hp. injection Hp as <-.
    split; [reflexivity|]. by apply Htr.
Defined.

(** C5, as stated, fails: in this file frame 0 declares disposal 3 (restore
  to previous) and a frame follows it. Frame 0 is composited and becomes the
  restore point, so the disposal step of frame 1 finds a restore point: the
  run does not fail with "No previous frame to restore", neither in the
  decode worker (where it ends with the InvalidStateError of the detached
  bitmap) nor for a consumer that only reads. *)
Lemma first_frame_restore_previous_has_a_restore_point :
  GifFrameInfo.disposal <$> GifReader.frames Sample.restore_first !! 0 = Some 3 /\
  GifReader.numFrames Sample.restore_first = 2 /\
  (exists frame0 after0,
      Run.composited transfers Sample.restore_first 1 = ([frame0], Ok after0) /\
      prevRestorePoint after0 = Some frame0 /\
      loadFrames transfers Sample.restore_first = ([frame0], Throw InvalidStateError)) /\
  (loadFrames transfers Sample.restore_first).2 <> Throw NoPreviousFrameToRestore /\
  (loadFrames reads Sample.restore_first).2 <> Throw NoPreviousFrameToRestore.
Proof.
  split; [reflexivity|]. split; [reflexivity|]. split.
  - eexists _, _. split; [by vm_compute|]. split; by vm_compute.
  - split; by vm_compute.
Qed.

(** C5, amended. An iteration whose predecessor declares disposal 3 while no
  restore point exists throws "No previous frame to restore" and the
  generator yields nothing more. No file leads there: frame 0 is composited
  and becomes the restore point whatever its disposal method and whatever
  the consumer does, every state a run reaches after at least one frame has
  a restore point, and no run, complete or partial, ends with that
  exception. *)
Theorem no_restore_point_only_without_first_frame :
  (forall (consumer : Consumer) (gifReader : GifReader.t) (i : nat)
          (frameInfo prev : GifFrameInfo.t)
          (rest : list GifFrameInfo.t) (st : LoadState),
      prevFrameInfo st = Some prev ->
      GifFrameInfo.disposal prev = 3 ->
      prevRestorePoint st = None ->
      loadFrame consumer gifReader i frameInfo st = Throw NoPreviousFrameToRestore /\
      loadFrames_from consumer gifReader (frameInfo :: rest) i st =
        ([], Throw NoPreviousFrameToRestore))
  /\
  (forall (consumer : Consumer) (gifReader : GifReader.t) (info0 : GifFrameInfo.t)
          (rest : list GifFrameInfo.t),
      GifReader.frames gifReader = info0 :: rest ->
      exists frame0 after0,
        Run.composited consumer gifReader 1 = ([frame0], Ok after0) /\
        prevRestorePoint after0 = Some frame0)
  /\
  (forall (consumer : Consumer) (gifReader : GifReader.t) (k : nat)
          (yielded : list GifFrameData) (st : LoadState),
      0 < k <= GifReader.numFrames gifReader ->
      Run.composited consumer gifReader k = (yielded, Ok st) ->
      is_Some (prevRestorePoint st))
  /\
  (forall (consumer : Consumer) (gifReader : GifReader.t) (k : nat),
      (Run.composited consumer gifReader k).2 <> Throw NoPreviousFrameToRestore /\
      (loadFrames consumer gifReader).2 <> Throw NoPreviousFrameToRestore).
Proof.
  split; [|split; [|split]].
  - intros consumer gifReader i frameInfo prev rest st Hp Hd Hrp.
    assert (H : loadFrame consumer gifReader i frameInfo st
                = Throw NoPreviousFrameToRestore).
    { unfold loadFrame, dispose. by rewrite Hp, Hd, Hrp. }
    split; [done|]. simpl. by rewrite H.
  - intros consumer gifReader info0 rest Hf.
    destruct (loadFrame_after_dispose gifReader consumer 0 info0 (initLoad gifReader)
                (canvas (initLoad gifReader)) eq_refl)
      as (frame0 & st1 & L0 & _ & _ & _ & _ & R0).
    exists frame0, st1. split.
    + refine (composited_step gifReader consumer 0 info0 [] _ frame0 st1 _ eq_refl L0).
      by rewrite Hf.
    + rewrite R0. apply nextRestorePoint_new. by right.
  - intros consumer gifReader k yielded st [Hpos Hk] Hrun.
    destruct (settled_run gifReader consumer k yielded st Hk Hrun)
      as ((_ & _ & _ & _ & Hprev) & _ & G).
    apply G. destruct k as [|j]; [lia|]. destruct Hprev as [-> _].
    apply lookup_lt_is_Some. unfold GifReader.numFrames in Hk. lia.
  - intros consumer gifReader k.
    assert (H : forall infos ending,
               (loadFrames_from consumer gifReader infos 0 (initLoad gifReader)).2 = ending ->
               ending <> Throw NoPreviousFrameToRestore).
    { intros infos ending E ->.
      destruct (loadFrames_from consumer gifReader infos 0 (initLoad gifReader))
        as [ys ending] eqn:Hrun.
      simpl in E. subst ending.
      by pose proof (loadFrames_from_throws gifReader consumer _ _ _ _ _
                       (guarded_init gifReader) Hrun). }
    split; by eapply H.
Qed.

Lemma no_restore_point_only_without_first_frame_witness :
  loadFrame transfers Sample.restore_first 1 (Sample.frameInfo 0 0 1 1 10 0) Sample.stranded
    = Throw NoPreviousFrameToRestore /\
  (exists frame0 after0,
      Run.composited transfers Sample.restore_first 1 = ([frame0], Ok after0) /\
      prevRestorePoint after0 = Some frame0) /\
  is_Some (prevRestorePoint Sample.after_two).
Proof.
  split; [|split].
  - exact (proj1 (proj1 no_restore_point_only_without_first_frame transfers
                    Sample.restore_first 1 (Sample.frameInfo 0 0 1 1 10 0)
                    (Sample.frameInfo 0 0 2 1 10 3) [] Sample.stranded
                    eq_refl eq_refl eq_refl)).
  - exact (proj1 (proj2 no_restore_point_only_without_first_frame) transfers
             Sample.restore_first _ _ eq_refl).
  - refine (proj1 (proj2 (proj2 no_restore_point_only_without_first_frame)) transfers
              Sample.four_frames 2 _ Sample.after_two _ _).
    + unfold GifReader.numFrames. simpl. lia.
    + reflexivity.
Defined.

End Compositor.

(** ** The two compositors: src/gif.ts against src/gif/utils.ts *)

Section TwoCompositors.
Import JS Canvas Inv.

Lemma in_step_init gifReader :
  in_step 0 (Utils.initLoad gifReader) (Gif.initLoad gifReader).
Proof. split; try done. simpl. lia. Qed.

Lemma selected_snoc res frame :
  selected (res ++ [frame]) =
    if decide (Gif.index frame = 0 \/ Gif.disposal frame <> 3)
    then Some frame else selected res.
Proof.
  unfold selected, Gif.restorePoints. rewrite filter_app.
  rewrite filter_cons, filter_nil.
  destruct (decide (Gif.index frame = 0 \/ Gif.disposal frame <> 3)).
  - apply last_snoc.
  - by rewrite app_nil_r.
Qed.

Lemma in_step_dispose i su sg :
  in_step i su sg -> guarded su ->
  exists c1, Utils.dispose Utils.reads su = Ok c1 /\ Gif.dispose sg = Ok c1.
Proof.
  intros [Hc Hp _ _ Hd _ _] G. unfold Utils.dispose, Gif.dispose.
  rewrite <- Hp, <- Hc.
  destruct (Utils.prevFrameInfo su) as [prev|] eqn:E; [|by eexists].
  destruct (GifFrameInfo.disposal prev) as [|[|[|[|n]]]]; try by eexists.
  destruct (G ltac:(done)) as [rp Hrp]. rewrite Hrp in *.
  fold (selected (Gif.result_ sg)).
  destruct (selected (Gif.result_ sg)) as [g|]; [|discriminate Hd].
  simpl in Hd. injection Hd as ->. by eexists.
Qed.

Lemma in_step_loadFrame gifReader i frameInfo su sg :
  in_step i su sg -> guarded su ->
  exists frameData su' frame sg',
    Utils.loadFrame Utils.reads gifReader i frameInfo su = Ok (frameData, su') /\
    Gif.loadFrame gifReader i frameInfo sg = Ok sg' /\
    Gif.result_ sg' = Gif.result_ sg ++ [frame] /\
    Utils.data frameData = Gif.data frame /\
    Utils.index frameData = Gif.index frame /\
    in_step (S i) su' sg' /\
    guarded su'.
Proof.
  intros S G. destruct (in_step_dispose i su sg S G) as (c1 & Hdu & Hdg).
  destruct S as [Hc Hp Hs Hn Hd Hi Hex].
  unfold Utils.loadFrame, Gif.loadFrame. rewrite Hdu, Hdg, <- Hs. simpl.
  destruct (Utils.decode gifReader i frameInfo (Utils.scratchData su)) as [scratch pal].
  eexists _, _, _, _. split; [reflexivity|]. split; [reflexivity|].
  split; [reflexivity|]. split; [reflexivity|]. split; [reflexivity|].
  split.
  - split; simpl; try done.
    + rewrite length_app. simpl. lia.
    + rewrite selected_snoc. unfold Gif.disposal. simpl.
      unfold Utils.nextRestorePoint.
      destruct i as [|i].
      * destruct (Utils.prevRestorePoint su) as [rp|] eqn:Hrp.
        -- apply length_zero_iff_nil in Hn. rewrite Hn in Hd. discriminate Hd.
        -- done.
      * destruct (Hex ltac:(lia)) as [rp Hrp]. rewrite Hrp in *. simpl.
        destruct (Nat.eqb_spec (GifFrameInfo.disposal frameInfo) 3) as [E|E];
          simpl; case_decide; try done; exfalso; intuition lia.
    + rewrite selected_snoc. unfold Gif.disposal. simpl.
      unfold Utils.nextRestorePoint.
      destruct i as [|i].
      * destruct (Utils.prevRestorePoint su) as [rp|] eqn:Hrp.
        -- apply length_zero_iff_nil in Hn. rewrite Hn in Hd. discriminate Hd.
        -- done.
      * destruct (Hex ltac:(lia)) as [rp Hrp]. rewrite Hrp in *. simpl.
        destruct (Nat.eqb_spec (GifFrameInfo.disposal frameInfo) 3) as [E|E];
          simpl; case_decide; try done; exfalso; intuition lia.
    + intros _. apply nextRestorePoint_is_Some.
  - intros _. apply nextRestorePoint_is_Some.
Qed.

Lemma in_step_run gifReader infos : forall i su sg,
  in_step i su sg -> guarded su ->
  exists yielded su' sg' more,
    Utils.loadFrames_from Utils.reads gifReader infos i su = (yielded, Ok su') /\
    Gif.loadFrames_from gifReader infos i sg = Ok sg' /\
    Gif.result_ sg' = Gif.result_ sg ++ more /\
    Utils.data <$> yielded = Gif.data <$> more /\
    Utils.index <$> yielded = Gif.index <$> more /\
    in_step (i + length infos) su' sg'.
Proof.
  induction infos as [|frameInfo rest IH]; intros i su sg S G; simpl.
  - exists [], su, sg, []. rewrite app_nil_r, Nat.add_0_r. done.
  - destruct (in_step_loadFrame gifReader i frameInfo su sg S G)
      as (fd & su1 & g & sg1 & Hu & Hg & Hres & Hdat & Hidx & S1 & G1).
    rewrite Hu, Hg. simpl.
    destruct (IH (Datatypes.S i) su1 sg1 S1 G1)
      as (ys & su' & sg' & more & Hu' & Hg' & Hres' & Hdat' & Hidx' & S').
    rewrite Hu', Hg'. exists (fd :: ys), su', sg', (g :: more).
    split; [done|]. split; [done|].
    split; [by rewrite Hres', Hres, <- (assoc_L (++))|].
    split; [by rewrite !fmap_cons, Hdat, Hdat'|].
    split; [by rewrite !fmap_cons, Hidx, Hidx'|].
    by replace (i + Datatypes.S (length rest)) with (Datatypes.S i + length rest) by lia.
Qed.

(** C10. Where the code departs from the claim. Part one, what holds: as long
  as the generator of src/gif/utils.ts has not thrown, whatever its consumer
  does, the loop of src/gif.ts has run the same frames without an exception,
  the two hold the same canvas and have produced the same bitmaps with the
  same indices, and the frame that the filter of src/gif.ts selects (the last
  frame produced whose index is 0 or whose disposal method is not 3) has the
  index and the bitmap of the restore point src/gif/utils.ts maintains. Part
  two, where they part: for every file in which frame i is the first to
  declare disposal 3 and a frame follows it, src/gif.ts composites every
  frame of the file, while the generator of src/gif/utils.ts, consumed by the
  decode worker, yields frames 0 to i (the same bitmaps) and then throws an
  InvalidStateError where src/gif.ts draws the restore point. *)
Theorem compositors_part_at_first_restore :
  (forall (consumer : Utils.Consumer) (gifReader : GifReader.t) (k : nat)
          (yielded : list Utils.GifFrameData) (su : Utils.LoadState),
      Run.composited consumer gifReader k = (yielded, Ok su) ->
      exists sg,
        Run.composited_gif gifReader k = Ok sg /\
        Utils.canvas su = Gif.canvas sg /\
        Utils.data <$> yielded = Gif.data <$> Gif.result_ sg /\
        Utils.index <$> yielded = Gif.index <$> Gif.result_ sg /\
        Utils.index <$> Utils.prevRestorePoint su
          = Gif.index <$> last (Gif.restorePoints (Gif.result_ sg)) /\
        Utils.data <$> Utils.prevRestorePoint su
          = Gif.data <$> last (Gif.restorePoints (Gif.result_ sg)))
  /\
  (forall (gifReader : GifReader.t) (i : nat) (frameInfo : GifFrameInfo.t),
      GifReader.frames gifReader !! i = Some frameInfo ->
      GifFrameInfo.disposal frameInfo = 3 ->
      Forall (fun f => GifFrameInfo.disposal f <> 3) (take i (GifReader.frames gifReader)) ->
      S i < GifReader.numFrames gifReader ->
      exists frames yielded,
        Gif.loadFrames gifReader = Ok frames /\
        length frames = GifReader.numFrames gifReader /\
        Utils.loadFrames Utils.transfers gifReader = (yielded, Throw InvalidStateError) /\
        length yielded = S i /\
        Utils.data <$> yielded = Gif.data <$> take (S i) frames).
Proof.
  split.
  - intros consumer gifReader k yielded su Hrun.
    apply loadFrames_from_reads in Hrun.
    destruct (in_step_run gifReader (take k (GifReader.frames gifReader)) 0 _ _
                (in_step_init gifReader) (guarded_init gifReader))
      as (ys & su' & sg & more & Hu & Hg & Hres & Hdat & Hidx & S).
    rewrite Hrun in Hu. injection Hu as <- <-.
    simpl in Hres. subst more. destruct S as [Hc _ _ _ Hd Hi _].
    by exists sg.
  - intros gifReader i frameInfo Hi H3 Hbefore Hnext.
    destruct (in_step_run gifReader (GifReader.frames gifReader) 0 _ _
                (in_step_init gifReader) (guarded_init gifReader))
      as (ys & su & sg & more & Hu & Hg & Hres & Hdat & Hidx & S).
    simpl in Hres. subst more. destruct S as [_ _ _ Hn _ _ _].
    destruct (transfers_until_restore gifReader i frameInfo Hi H3 Hbefore)
      as (yielded & st & rest & _ & _ & Hmore & Hlen & _ & _ & _ & Hall).
    exists (Gif.result_ sg), yielded.
    split; [unfold Gif.loadFrames; by rewrite Hg|].
    split; [done|]. split; [by apply Hall|]. split; [done|].
    unfold Utils.loadFrames in Hmore. rewrite Hu in Hmore. simpl in Hmore. subst ys.
    rewrite fmap_take, <- Hdat, fmap_app, take_app_length'; [done|].
    by rewrite length_fmap.
Qed.

Lemma compositors_part_at_first_restore_witness :
  exists frames yielded,
    Gif.loadFrames Sample.four_frames = Ok frames /\
    length frames = 4 /\
    Utils.loadFrames Utils.transfers Sample.four_frames
      = (yielded, Throw InvalidStateError) /\
    length yielded = 3.
Proof.
  destruct (proj2 compositors_part_at_first_restore Sample.four_frames 2
              (Sample.frameInfo 1 1 1 1 5 3) eq_refl eq_refl)
    as (frames & yielded & Hg & Hn & Hu & Hlen & _).
  - repeat (apply Forall_cons; split; [simpl; lia|]). apply Forall_nil_2.
  - unfold GifReader.numFrames. simpl. lia.
  - by exists frames, yielded.
Defined.

End TwoCompositors.

(** ** The encoder of src/gif/utils.ts *)

Section Encoder.
Import JS Canvas Utils.

Lemma indexColors_absent palette : forall i (m : gmap Z nat) c,
  c ∉ palette -> indexColors palette i m !! c = m !! c.
Proof.
  induction palette as [|a rest IH]; intros i m c Hc; simpl; [done|].
  apply not_elem_of_cons in Hc as [Hne Hrest].
  rewrite IH by done. by rewrite lookup_insert_ne.
Qed.

(** A colour of the palette is indexed by its last position. *)
Lemma indexColors_present palette : forall i (m : gmap Z nat) c,
  c ∈ palette ->
  exists k,
    indexColors palette i m !! c = Some (i + k) /\
    palette !! k = Some c /\
    forall j, palette !! j = Some c -> j <= k.
Proof.
  induction palette as [|a rest IH]; intros i m c Hc; simpl.
  - by apply elem_of_nil in Hc.
  - destruct (decide (c ∈ rest)) as [Hin | Hout].
    + destruct (IH (S i) (<[a:=i]> m) c Hin) as (k & Hk & Hl & Hlast).
      exists (S k). split; [by rewrite Hk; f_equal; lia|]. split; [done|].
      intros [|j] Hj; [lia|]. apply Hlast in Hj. lia.
    + apply elem_of_cons in Hc as [-> | Hc]; [|done].
      exists 0. rewrite indexColors_absent by done.
      rewrite lookup_insert_eq, Nat.add_0_r. split; [done|]. split; [done|].
      intros [|j] Hj; [lia|]. simpl in Hj.
      exfalso. apply Hout. by eapply list_elem_of_lookup_2.
Qed.

Lemma encodeImage_lookup image palette i :
  i < iwidth image * iheight image ->
  encodeImage image palette !! i =
    Some (store_index (indexColors palette 0 ∅ !! color_at image i)).
Proof.
  intros Hi. unfold encodeImage.
  by rewrite list_lookup_fmap, lookup_seq_lt.
Qed.

(** C3, as stated, fails: the only pixel of this frame has a colour that is
  not in the frame's palette, and [addFrame] neither throws nor withholds the
  frame: the frame is written, with palette index 0 for that pixel. *)
Lemma off_palette_pixel_is_written_as_zero :
  (color_at (getImageData (Utils.data Sample.off_palette) 0 0 1 1) 0
     ∉ palette Sample.off_palette) /\
  encodeImage (getImageData (Utils.data Sample.off_palette) 0 0 1 1)
    (palette Sample.off_palette) = [0%Z] /\
  GifWriter.indexed_pixels <$>
    GifWriter.written (gf (addFrame (beginFile (Sample.image 1) None) Sample.off_palette))
    = [[0%Z]].
Proof.
  split; [|split]; [|by vm_compute..].
  vm_compute. intros H. repeat (apply elem_of_cons in H as [H|H]; [discriminate H|]).
  by apply elem_of_nil in H.
Qed.

(** C3, amended. [encodeImage] never fails and returns one index per pixel.
  A pixel whose packed colour occurs in the palette (of at most 256 entries)
  gets the index of an entry of that very colour, the last such entry; a
  pixel whose colour does not occur gets index 0. [addFrame] hands the
  resulting stream to the writer in either case. *)
Theorem encode_exact_match_else_zero :
  (forall (image : ImageData) (palette : list Z),
      length (encodeImage image palette) = iwidth image * iheight image)
  /\
  (forall (image : ImageData) (palette : list Z) (i : nat),
      i < iwidth image * iheight image ->
      length palette <= 256 ->
      color_at image i ∈ palette ->
      exists idx : nat,
        encodeImage image palette !! i = Some (Z.of_nat idx) /\
        palette !! idx = Some (color_at image i) /\
        forall j, palette !! j = Some (color_at image i) -> j <= idx)
  /\
  (forall (image : ImageData) (palette : list Z) (i : nat),
      i < iwidth image * iheight image ->
      color_at image i ∉ palette ->
      encodeImage image palette !! i = Some 0%Z)
  /\
  (forall (a : Assembler) (frame : GifFrameData),
      exists call,
        GifWriter.written (gf (addFrame a frame)) = GifWriter.written (gf a) ++ [call] /\
        GifWriter.indexed_pixels call =
          encodeImage
            (getImageData (drawImage (context a) (data frame) 0 0) 0 0
               (a_width a) (a_height a))
            (palette frame)).
Proof.
  split; [|split; [|split]].
  - intros image palette. unfold encodeImage.
    by rewrite length_fmap, length_seq.
  - intros image palette i Hi Hlen Hc.
    destruct (indexColors_present palette 0 ∅ _ Hc) as (k & Hk & Hl & Hlast).
    exists k. rewrite encodeImage_lookup, Hk by done. simpl.
    split; [|done]. f_equal. unfold to_uint8.
    apply lookup_lt_Some in Hl. apply Z.mod_small. lia.
  - intros image palette i Hi Hc.
    rewrite encodeImage_lookup by done.
    by rewrite indexColors_absent, lookup_empty by done.
  - intros a frame. by eexists.
Qed.

Lemma encode_exact_match_else_zero_witness :
  (exists idx : nat,
      encodeImage (getImageData (Utils.data (Sample.frame 1 20)) 0 0 1 1)
        (palette (Sample.frame 1 20)) !! 0 = Some (Z.of_nat idx) /\
      palette (Sample.frame 1 20) !! idx = Some 131072%Z) /\
  encodeImage (getImageData (Utils.data Sample.off_palette) 0 0 1 1)
    (palette Sample.off_palette) !! 0 = Some 0%Z.
Proof.
  split.
  - destruct (proj1 (proj2 encode_exact_match_else_zero)
                (getImageData (Utils.data (Sample.frame 1 20)) 0 0 1 1)
                (palette (Sample.frame 1 20)) 0)
      as (idx & He & Hp & _).
    + simpl. lia.
    + simpl. lia.
    + vm_compute. apply list_elem_of_further, list_elem_of_here.
    + by exists idx.
  - apply (proj1 (proj2 (proj2 encode_exact_match_else_zero))).
    + simpl. lia.
    + vm_compute. intros H.
      repeat (apply elem_of_cons in H as [H|H]; [discriminate H|]).
      by apply elem_of_nil in H.
Defined.

Lemma framesRemaining_after frames : forall a,
  framesRemaining (fold_left addFrame frames a)
    = (framesRemaining a - Z.of_nat (length frames))%Z.
Proof.
  induction frames as [|f rest IH]; intros a; simpl.
  - lia.
  - rewrite IH. simpl. lia.
Qed.

Lemma written_after frames : forall a,
  length (GifWriter.written (gf (fold_left addFrame frames a)))
    = length (GifWriter.written (gf a)) + length frames.
Proof.
  induction frames as [|f rest IH]; intros a; simpl.
  - lia.
  - rewrite IH. simpl. rewrite length_app. simpl. lia.
Qed.

(** C9, as stated, fails in its second half: an assembler begun for one frame
  is complete after the first [addFrame]; a second [addFrame] is not refused
  but encoded and written like the first, after which [done()] is false. *)
Lemma addFrame_after_completion_is_accepted :
  done (addFrame (beginFile (Sample.image 1) None) (Sample.frame 0 10)) = true /\
  length (GifWriter.written
            (gf (addFrame (addFrame (beginFile (Sample.image 1) None) (Sample.frame 0 10))
                   (Sample.frame 1 20)))) = 2 /\
  framesRemaining
    (addFrame (addFrame (beginFile (Sample.image 1) None) (Sample.frame 0 10))
       (Sample.frame 1 20)) = (-1)%Z /\
  done (addFrame (addFrame (beginFile (Sample.image 1) None) (Sample.frame 0 10))
          (Sample.frame 1 20)) = false.
Proof. by vm_compute. Qed.

(** C9, amended. After any sequence of [addFrame] calls on an assembler begun
  with frameCount n, [done()] is true exactly when the number of calls is n,
  and every call has been written. [addFrame] has no completion check: called
  on a complete assembler it writes the frame like any other, takes the
  counter to -1, and [done()] is false from then on. *)
Theorem done_exactly_at_frameCount :
  (forall (metadata : GifMetadata) (palette : option (list Z))
          (frames : list GifFrameData),
      done (fold_left addFrame frames (beginFile metadata palette))
        = bool_decide (length frames = frameCount metadata) /\
      length (GifWriter.written
                (gf (fold_left addFrame frames (beginFile metadata palette))))
        = length frames)
  /\
  (forall (a : Assembler) (frame : GifFrameData) (more : list GifFrameData),
      done a = true ->
      length (GifWriter.written (gf (addFrame a frame)))
        = S (length (GifWriter.written (gf a))) /\
      framesRemaining (addFrame a frame) = (-1)%Z /\
      done (fold_left addFrame more (addFrame a frame)) = false).
Proof.
  split.
  - intros metadata palette frames. split.
    + unfold done. rewrite framesRemaining_after. simpl.
      case_bool_decide; [apply Z.eqb_eq | apply Z.eqb_neq]; lia.
    + by rewrite written_after.
  - intros a frame more Hdone. unfold done in *. apply Z.eqb_eq in Hdone.
    split; [|split].
    + simpl. rewrite length_app. simpl. lia.
    + simpl. lia.
    + rewrite framesRemaining_after. simpl. apply Z.eqb_neq. lia.
Qed.

Lemma done_exactly_at_frameCount_witness :
  framesRemaining
    (addFrame (addFrame (beginFile (Sample.image 1) None) (Sample.frame 0 10))
       (Sample.frame 1 20)) = (-1)%Z /\
  done (fold_left addFrame [Sample.frame 2 5]
          (addFrame (addFrame (beginFile (Sample.image 1) None) (Sample.frame 0 10))
             (Sample.frame 1 20))) = false.
Proof.
  exact (proj2 (proj2 done_exactly_at_frameCount
                  (addFrame (beginFile (Sample.image 1) None) (Sample.frame 0 10))
                  (Sample.frame 1 20) [Sample.frame 2 5] eq_refl)).
Defined.

End Encoder.

(** ** The edit marks *)

Section EditMarks.
Import JS FileEditor.

Lemma index_out_of_range {A} (a : list A) (i : Z) :
  (i < 0 \/ Z.of_nat (length a) <= i)%Z -> JS.index a i = None.
Proof.
  intros H. unfold JS.index. destruct (Z.ltb_spec i 0); [done|].
  apply lookup_ge_None. lia.
Qed.

Lemma index_in_range {A} (a : list A) (i : Z) :
  (0 <= i < Z.of_nat (length a))%Z ->
  JS.index a i = a !! Z.to_nat i /\ is_Some (a !! Z.to_nat i).
Proof.
  intros H. unfold JS.index. destruct (Z.ltb_spec i 0); [lia|].
  split; [done|]. apply lookup_lt_is_Some. lia.
Qed.

(** C8, as stated, fails: with one frame, marking or unmarking frame 1 throws
  a TypeError; it does not return the state unchanged. *)
Lemma toggle_out_of_range_throws :
  onKeyDown_ArrowDown 1 [Sample.kept] = Throw TypeError /\
  onKeyDown_ArrowUp 1 [Sample.gone] = Throw TypeError /\
  onKeyDown_ArrowDown 1 [Sample.kept] <> Ok [Sample.kept].
Proof. repeat split; [done..|discriminate]. Qed.

(** C8, amended. For an index within the edit state, marking the frame
  deleted (and likewise unmarking it) raises no error, sets that frame's mark
  and no other, and is idempotent: applied to its own result it returns that
  result. For an index outside the edit state either operation throws a
  TypeError. *)
Theorem toggle_in_range_idempotent_else_throws :
  (forall (curr : list FrameState) (selectedFrame : Z),
      (0 <= selectedFrame < Z.of_nat (length curr))%Z ->
      exists next,
        onKeyDown_ArrowDown selectedFrame curr = Ok next /\
        length next = length curr /\
        is_deleted <$> next !! Z.to_nat selectedFrame = Some true /\
        (forall j, j <> Z.to_nat selectedFrame -> next !! j = curr !! j) /\
        onKeyDown_ArrowDown selectedFrame next = Ok next)
  /\
  (forall (curr : list FrameState) (selectedFrame : Z),
      (0 <= selectedFrame < Z.of_nat (length curr))%Z ->
      exists next,
        onKeyDown_ArrowUp selectedFrame curr = Ok next /\
        length next = length curr /\
        is_deleted <$> next !! Z.to_nat selectedFrame = Some false /\
        (forall j, j <> Z.to_nat selectedFrame -> next !! j = curr !! j) /\
        onKeyDown_ArrowUp selectedFrame next = Ok next)
  /\
  (forall (curr : list FrameState) (selectedFrame : Z),
      (selectedFrame < 0 \/ Z.of_nat (length curr) <= selectedFrame)%Z ->
      onKeyDown_ArrowDown selectedFrame curr = Throw TypeError /\
      onKeyDown_ArrowUp selectedFrame curr = Throw TypeError).
Proof.
  split; [|split].
  - intros curr i Hi. destruct (index_in_range curr i Hi) as [Hidx [fs Hfs]].
    unfold onKeyDown_ArrowDown at 1. rewrite Hidx, Hfs.
    destruct (is_deleted fs) eqn:Hdel.
    + exists curr. split; [done|]. split; [done|]. split; [by rewrite Hfs; simpl; f_equal|].
      split; [done|]. unfold onKeyDown_ArrowDown. by rewrite Hidx, Hfs, Hdel.
    + eexists. split; [done|]. split; [by rewrite length_insert|].
      assert (Hlt : Z.to_nat i < length curr) by lia.
      split; [by rewrite list_lookup_insert_eq|].
      split; [intros j Hj; by rewrite list_lookup_insert_ne|].
      unfold onKeyDown_ArrowDown.
      destruct (index_in_range (<[Z.to_nat i:={| deleted := Some true |}]> curr) i)
        as [Hidx' _]; [by rewrite length_insert|].
      by rewrite Hidx', list_lookup_insert_eq.
  - intros curr i Hi. destruct (index_in_range curr i Hi) as [Hidx [fs Hfs]].
    unfold onKeyDown_ArrowUp at 1. rewrite Hidx, Hfs.
    destruct (is_deleted fs) eqn:Hdel; simpl.
    + eexists. split; [done|]. split; [by rewrite length_insert|].
      assert (Hlt : Z.to_nat i < length curr) by lia.
      split; [by rewrite list_lookup_insert_eq|].
      split; [intros j Hj; by rewrite list_lookup_insert_ne|].
      unfold onKeyDown_ArrowUp.
      destruct (index_in_range (<[Z.to_nat i:={| deleted := Some false |}]> curr) i)
        as [Hidx' _]; [by rewrite length_insert|].
      by rewrite Hidx', list_lookup_insert_eq.
    + exists curr. split; [done|]. split; [done|]. split; [by rewrite Hfs; simpl; f_equal|].
      split; [done|]. unfold onKeyDown_ArrowUp. by rewrite Hidx, Hfs, Hdel.
  - intros curr i Hi. unfold onKeyDown_ArrowDown, onKeyDown_ArrowUp.
    by rewrite index_out_of_range.
Qed.

Lemma toggle_in_range_idempotent_else_throws_witness :
  (exists next,
      onKeyDown_ArrowDown 0 [Sample.kept; Sample.kept] = Ok next /\
      onKeyDown_ArrowDown 0 next = Ok next) /\
  (exists next,
      onKeyDown_ArrowUp 1 [Sample.kept; Sample.gone] = Ok next /\
      onKeyDown_ArrowUp 1 next = Ok next) /\
  onKeyDown_ArrowDown 2 [Sample.kept; Sample.kept] = Throw TypeError.
Proof.
  split; [|split].
  - destruct (proj1 toggle_in_range_idempotent_else_throws
                [Sample.kept; Sample.kept] 0%Z) as (next & H1 & _ & _ & _ & H2).
    + simpl. lia.
    + by exists next.
  - destruct (proj1 (proj2 toggle_in_range_idempotent_else_throws)
                [Sample.kept; Sample.gone] 1%Z) as (next & H1 & _ & _ & _ & H2).
    + simpl. lia.
    + by exists next.
  - apply (proj2 (proj2 toggle_in_range_idempotent_else_throws)). simpl. lia.
Defined.

End EditMarks.

(** ** Export: the drop-merge loop of [download] *)

Section ExportLoop.
Import JS Utils FileEditor Merge.

Lemma set_delay_same f : set_delay f (delay f) = f.
Proof. by destruct f. Qed.

Lemma set_delay_twice f d1 d2 : set_delay (set_delay f d1) d2 = set_delay f d2.
Proof. done. Qed.

Lemma add_to_last_snoc acc a d :
  add_to_last (acc ++ [a]) d = Ok (acc ++ [set_delay a (delay a + d)]).
Proof.
  unfold add_to_last. rewrite last_snoc, length_app. simpl.
  replace (length acc + 1 - 1) with (length acc + 0) by lia.
  by rewrite insert_app_r.
Qed.

(** The loop, once a frame has been pushed: the last frame pushed absorbs the
  dropped frames that come next, and the rest is merged likewise. *)
Lemma download_from_pushed frameStates rest : forall i acc a,
  i + length rest <= length frameStates ->
  download_from frameStates rest i (acc ++ [a]) =
    Ok (acc ++ set_delay a (delay a + run_delay (zip rest (drop i frameStates)))
            :: merge (zip rest (drop i frameStates))).
Proof.
  induction rest as [|f rest IH]; intros i acc a Hlen; simpl.
  - by rewrite Z.add_0_r, set_delay_same.
  - simpl in Hlen.
    destruct (lookup_lt_is_Some_2 frameStates i ltac:(lia)) as [fs Hfs].
    rewrite Hfs, (drop_S _ _ _ Hfs). simpl.
    destruct (is_deleted fs).
    + rewrite add_to_last_snoc. simpl.
      rewrite IH by lia. rewrite set_delay_twice. simpl.
      by rewrite Z.add_assoc.
    + rewrite IH by lia. rewrite Z.add_0_r, set_delay_same.
      by rewrite <- (assoc_L (++)).
Qed.

Lemma download_from_start frames frameStates :
  length frameStates = length frames ->
  starts_kept (zip frames frameStates) ->
  download_from frameStates frames 0 [] = Ok (merge (zip frames frameStates)).
Proof.
  intros Hlen Hk. destruct frames as [|f rest]; [done|].
  destruct frameStates as [|fs states]; [done|].
  simpl in *. unfold survives in Hk. simpl in Hk. rewrite Hk.
  refine (download_from_pushed (fs :: states) rest 1 [] f _). simpl. lia.
Qed.

(** A dropped first frame finds nothing to add its delay to. *)
Lemma download_first_dropped image f rest fs states :
  is_deleted fs = true ->
  download image (f :: rest) (fs :: states) = Throw TypeError.
Proof. intros H. unfold download. simpl. by rewrite H. Qed.

Lemma content_set_delay f d : content (set_delay f d) = content f.
Proof. done. Qed.

Lemma not_survives f fs : ~ survives (f, fs) -> is_deleted fs = true.
Proof. unfold survives. simpl. by destruct (is_deleted fs). Qed.

(** Case analysis on the mark of the first frame of a filtered list. *)
Ltac by_mark f fs :=
  rewrite filter_cons;
  destruct (decide (survives (f, fs))) as [Hmark | Hmark];
  [ unfold survives in Hmark; simpl in Hmark
  | apply not_survives in Hmark ];
  rewrite Hmark.

Lemma merge_content l : content <$> merge l = content <$> survivors l.
Proof.
  unfold survivors. induction l as [|[f fs] rest IH]; [done|]. simpl.
  by_mark f fs; [|done].
  rewrite !fmap_cons, content_set_delay. simpl. by rewrite IH.
Qed.

Lemma run_delay_dropped mid post :
  Forall dropped mid -> starts_kept post ->
  run_delay (mid ++ post) = total_delay mid.
Proof.
  intros Hmid Hpost. induction Hmid as [|[f fs] mid Hd _ IH]; simpl.
  - destruct post as [|[g gs] post]; [done|]. unfold starts_kept, survives in Hpost.
    simpl in *. by rewrite Hpost.
  - unfold dropped in Hd. simpl in Hd. by rewrite Hd, IH.
Qed.

Lemma merge_segment pre f fs mid post :
  survives (f, fs) -> Forall dropped mid -> starts_kept post ->
  merge (pre ++ (f, fs) :: mid ++ post) !! length (survivors pre)
    = Some (set_delay f (delay f + total_delay mid)).
Proof.
  intros Hf Hmid Hpost. unfold survivors.
  induction pre as [|[g gs] pre IH]; simpl.
  - unfold survives in Hf. simpl in Hf. rewrite Hf. simpl.
    by rewrite run_delay_dropped.
  - by by_mark g gs.
Qed.

(** C2, as stated, fails on its own example: with delays 10, 20, 5 and only
  frame 1 dropped, [download] exports delays 30 and 5; the rule "own delay
  plus the delays of the dropped frames just before", which is the
  accumulator of the design document, gives 10 and 25. *)
Lemma dropped_delay_joins_the_frame_before :
  starts_kept (zip Sample.three_frames [Sample.kept; Sample.gone; Sample.kept]) /\
  exported_delays (Sample.image 3) Sample.three_frames
    [Sample.kept; Sample.gone; Sample.kept] = Some [30; 5]%Z /\
  delay <$> Design.buildEncodeSequence Sample.three_frames
              [Sample.kept; Sample.gone; Sample.kept] = [10; 25]%Z /\
  exported_delays (Sample.image 3) Sample.three_frames
    [Sample.kept; Sample.gone; Sample.kept]
  <> Some (delay <$> Design.buildEncodeSequence Sample.three_frames
                       [Sample.kept; Sample.gone; Sample.kept]).
Proof. vm_compute. repeat split; discriminate. Qed.

(** C2, amended. When there is one edit mark per frame and the first frame
  survives, [download] reaches [writeGifToFile] with frameCount set to the
  number of frames exported; the frames exported are exactly the surviving
  frames in index order, each unchanged but for its delay; and the delay of
  each is its own delay plus the delays of the dropped frames that directly
  follow it, up to the next surviving frame. *)
Theorem download_merges_dropped_into_previous
    (image : GifMetadata) (frames : list GifFrameData)
    (frameStates : list FrameState) :
  length frameStates = length frames ->
  starts_kept (zip frames frameStates) ->
  exists framesToSave,
    download image frames frameStates =
      Ok ({| width := width image; height := height image;
             frameCount := length framesToSave; loopCount := loopCount image |},
          framesToSave) /\
    content <$> framesToSave = content <$> survivors (zip frames frameStates) /\
    (forall pre f fs mid post,
        zip frames frameStates = pre ++ (f, fs) :: mid ++ post ->
        survives (f, fs) -> Forall dropped mid -> starts_kept post ->
        framesToSave !! length (survivors pre)
          = Some (set_delay f (delay f + total_delay mid))).
Proof.
  intros Hlen Hk. exists (merge (zip frames frameStates)).
  split; [|split].
  - unfold download. by rewrite download_from_start.
  - apply merge_content.
  - intros pre f fs mid post -> Hf Hmid Hpost. by apply merge_segment.
Qed.

Lemma download_merges_dropped_into_previous_witness :
  exists framesToSave,
    download (Sample.image 3) Sample.three_frames
      [Sample.kept; Sample.gone; Sample.kept]
      = Ok (Sample.image (length framesToSave), framesToSave) /\
    framesToSave !! 0 = Some (set_delay (Sample.frame 0 10) 30) /\
    framesToSave !! 1 = Some (Sample.frame 2 5).
Proof.
  destruct (download_merges_dropped_into_previous (Sample.image 3) Sample.three_frames
              [Sample.kept; Sample.gone; Sample.kept] eq_refl eq_refl)
    as (framesToSave & Hd & _ & Hseg).
  exists framesToSave. split; [exact Hd|]. split.
  - apply (Hseg [] (Sample.frame 0 10) Sample.kept
             [(Sample.frame 1 20, Sample.gone)] [(Sample.frame 2 5, Sample.kept)]);
      [reflexivity | reflexivity | | reflexivity].
    apply Forall_cons. split; [reflexivity | apply Forall_nil_2].
  - apply (Hseg [(Sample.frame 0 10, Sample.kept); (Sample.frame 1 20, Sample.gone)]
             (Sample.frame 2 5) Sample.kept [] []);
      [reflexivity | reflexivity | apply Forall_nil_2 | exact I].
Defined.

(** C7: the code at a sequence that begins with a dropped frame, delays 10,
  20, 5 with frame 0 dropped. The loop throws a TypeError at frame 0: no
  frame is exported and the encode worker is not started, where the design
  document has frames 1 and 2 exported with their own delays 20 and 5. *)
Theorem leading_dropped_frame_throws :
  download (Sample.image 3) Sample.three_frames
    [Sample.gone; Sample.kept; Sample.kept] = Throw TypeError /\
  exported_delays (Sample.image 3) Sample.three_frames
    [Sample.gone; Sample.kept; Sample.kept] = None /\
  export (Sample.image 3) Sample.three_frames
    [Sample.gone; Sample.kept; Sample.kept] = None.
Proof. by vm_compute. Qed.

(** C6, as stated, fails: [download] has no check for an empty export and
  no failure of its own for it. For a file without frames every frame (there
  is none) is marked deleted, yet [download] reaches [writeGifToFile], the
  worker receives the metadata message and [beginFile] allocates the output
  buffer, of length 0. For three frames that are all marked deleted the
  handler does end before [writeGifToFile], but with the TypeError of the
  statement that adds a dropped frame's delay to the frame before it, which
  is the defect of C7, not a report of an empty sequence. *)
Lemma no_empty_sequence_check :
  download (Sample.image 0) [] [] = Ok (Sample.image 0, []) /\
  export (Sample.image 0) [] [] =
    Some {| GifWriterWorker.writer := Some (beginFile (Sample.image 0) None);
            GifWriterWorker.posted := [] |} /\
  GifWriter.buffer_length (gf (beginFile (Sample.image 0) None)) = 0 /\
  download (Sample.image 3) Sample.three_frames
    [Sample.gone; Sample.gone; Sample.gone] = Throw TypeError.
Proof. by vm_compute. Qed.

(** C6, amended. [download] makes no check for an empty export. Whenever its
  loop completes, it calls [writeGifToFile] with the frames that survive and
  a frame count that is their number, whether or not there are any: the
  encode worker is started and begins a file on that request. When no frame
  survives the worker has begun a file and never posts one; a file without
  frames is exported in this way. *)
Theorem export_makes_no_emptiness_check :
  (forall image : GifMetadata,
      exists request,
        download image [] [] = Ok (request, []) /\
        frameCount request = 0 /\
        export image [] [] =
          Some {| GifWriterWorker.writer := Some (beginFile request None);
                  GifWriterWorker.posted := [] |})
  /\
  (forall (image : GifMetadata) (frames : list GifFrameData)
          (frameStates : list FrameState)
          (request : GifMetadata) (framesToSave : list GifFrameData),
      download image frames frameStates = Ok (request, framesToSave) ->
      frameCount request = length framesToSave /\
      width request = width image /\ height request = height image /\
      loopCount request = loopCount image /\
      export image frames frameStates =
        Some (GifWriterWorker.run (GifWriterWorker.writeGifToFile request framesToSave)) /\
      (framesToSave = [] ->
       export image frames frameStates =
         Some {| GifWriterWorker.writer := Some (beginFile request None);
                 GifWriterWorker.posted := [] |})).
Proof.
  split.
  - intros image. by eexists.
  - intros image frames frameStates request framesToSave Hd.
    assert (He : export image frames frameStates =
                 Some (GifWriterWorker.run
                         (GifWriterWorker.writeGifToFile request framesToSave))).
    { unfold export. by rewrite Hd. }
    unfold download in Hd.
    destruct (download_from frameStates frames 0 []) as [saved|e]; [|discriminate].
    simpl in Hd. injection Hd as <- <-. simpl.
    repeat split; try done. intros ->. by rewrite He.
Qed.

Lemma export_makes_no_emptiness_check_witness :
  exists request framesToSave,
    download (Sample.image 3) Sample.three_frames
      [Sample.kept; Sample.gone; Sample.kept] = Ok (request, framesToSave) /\
    frameCount request = 2 /\
    export (Sample.image 3) Sample.three_frames [Sample.kept; Sample.gone; Sample.kept]
      = Some (GifWriterWorker.run
                (GifWriterWorker.writeGifToFile request framesToSave)).
Proof.
  destruct (download (Sample.image 3) Sample.three_frames
              [Sample.kept; Sample.gone; Sample.kept])
    as [[request framesToSave]|e] eqn:Hd; [|by vm_compute in Hd].
  destruct (proj2 export_makes_no_emptiness_check (Sample.image 3) Sample.three_frames
              [Sample.kept; Sample.gone; Sample.kept] request framesToSave Hd)
    as (Hn & _ & _ & _ & He & _).
  exists request, framesToSave. split; [reflexivity|].
  split; [|exact He].
  rewrite Hn. vm_compute in Hd. injection Hd as _ <-. reflexivity.
Defined.

End ExportLoop.

(** * Further properties of the code *)

(** ** The generator of src/gif/utils.ts, frame by frame *)

Section Frames.
Import JS Canvas Utils Inv Between.

(** What [putImageData(img, 0, 0, x0, y0, w, h)] does to each pixel. *)
Lemma putImageData_pixel (c : Raster) (img : ImageData) (x0 y0 w h x y : nat) :
  x < Canvas.width c ->
  pixel_at (putImageData c img 0 0 x0 y0 w h) x y =
    (fun p => if in_rect x0 y0 w h x y && (x <? iwidth img) && (y <? iheight img)
              then image_pixel img x y else p) <$> pixel_at c x y.
Proof.
  intros Hx. unfold pixel_at, putImageData. simpl.
  rewrite list_lookup_imap, cell_col, cell_row, !Nat.sub_0_r by done. done.
Qed.

(** Every bitmap the generator yields has the dimensions of the file. *)
Lemma yielded_sized consumer gifReader i frameData :
  (loadFrames consumer gifReader).1 !! i = Some frameData ->
  sized (GifReader.width gifReader) (GifReader.height gifReader) (data frameData).
Proof.
  intros Hi.
  destruct (yielded_reached _ _ _ _ Hi)
    as (frameInfo & yielded & before & after & Hf & Hrun & Hlen & Hload).
  assert (Hk : i <= GifReader.numFrames gifReader).
  { apply lookup_lt_Some in Hf. unfold GifReader.numFrames. lia. }
  pose proof (shaped_composited _ _ _ _ _ Hk Hrun) as Hshaped.
  destruct (shaped_loadFrame _ _ _ _ _ _ _ Hshaped Hload) as [Hs _].
  by destruct (loadFrame_fields _ _ _ _ _ _ _ Hload) as (_ & _ & _ & _ & -> & _).
Qed.

(** How many frames the decode worker is handed. *)
Lemma transfers_count gifReader :
  length (loadFrames transfers gifReader).1
    = Run.until_restore (GifReader.frames gifReader) /\
  (is_ok (loadFrames transfers gifReader).2 = true <->
   Run.until_restore (GifReader.frames gifReader) = GifReader.numFrames gifReader).
Proof.
  rewrite loadFrames_transfers. cbn [fst snd].
  destruct (loadFrames_from_total gifReader (GifReader.frames gifReader) 0
              (initLoad gifReader) (guarded_init gifReader))
    as (ys & st & Hrun & Hlen & _).
  unfold loadFrames at 1 2. rewrite Hrun. cbn [fst snd].
  pose proof (until_restore_le (GifReader.frames gifReader)) as Hle.
  unfold GifReader.numFrames. split.
  - rewrite length_take_le; [done|lia].
  - destruct (Nat.ltb_spec (Run.until_restore (GifReader.frames gifReader))
                (length (GifReader.frames gifReader))); simpl; split; (done || lia).
Qed.

(** When no frame but the last declares disposal 3, the decode worker is
  handed every frame. *)
Lemma transfers_complete gifReader :
  (forall j frameInfo,
      S j < GifReader.numFrames gifReader ->
      GifReader.frames gifReader !! j = Some frameInfo ->
      GifFrameInfo.disposal frameInfo <> 3) ->
  loadFrames transfers gifReader = loadFrames reads gifReader.
Proof.
  intros H. rewrite loadFrames_transfers.
  rewrite (until_restore_all _ H). unfold GifReader.numFrames.
  rewrite Nat.ltb_irrefl.
  destruct (loadFrames_from_total gifReader (GifReader.frames gifReader) 0
              (initLoad gifReader) (guarded_init gifReader))
    as (ys & st & Hrun & Hlen & _).
  unfold loadFrames. rewrite Hrun. cbn [fst snd].
  by rewrite take_ge by lia.
Qed.

(** X1. Every frame the generator yields, whatever its consumer does,
  carries its position as index, the delay of its descriptor, a
  global-palette flag that is the negation of the descriptor's local-palette
  flag, and a bitmap of the dimensions of the file. A run that ends normally
  has yielded one frame per descriptor and a run that throws has yielded
  fewer. Consumed by the decode worker, the generator yields the frames up to
  and including the first that declares disposal 3, and ends normally
  exactly when no frame follows that one. *)
Theorem yielded_frames_carry_descriptors :
  (forall (consumer : Consumer) (gifReader : GifReader.t) (i : nat)
          (frameData : GifFrameData),
      (loadFrames consumer gifReader).1 !! i = Some frameData ->
      exists frameInfo,
        GifReader.frames gifReader !! i = Some frameInfo /\
        index frameData = i /\
        delay frameData = GifFrameInfo.delay frameInfo /\
        isPaletteGlobal frameData = negb (GifFrameInfo.has_local_palette frameInfo) /\
        Canvas.width (data frameData) = GifReader.width gifReader /\
        Canvas.height (data frameData) = GifReader.height gifReader /\
        length (Canvas.data (data frameData))
          = GifReader.width gifReader * GifReader.height gifReader)
  /\
  (forall (consumer : Consumer) (gifReader : GifReader.t),
      if is_ok (loadFrames consumer gifReader).2
      then length (loadFrames consumer gifReader).1 = GifReader.numFrames gifReader
      else length (loadFrames consumer gifReader).1 < GifReader.numFrames gifReader)
  /\
  (forall gifReader : GifReader.t,
      length (loadFrames transfers gifReader).1
        = Run.until_restore (GifReader.frames gifReader) /\
      (is_ok (loadFrames transfers gifReader).2 = true <->
       Run.until_restore (GifReader.frames gifReader) = GifReader.numFrames gifReader)).
Proof.
  split; [|split].
  - intros consumer gifReader i frameData Hi.
    destruct (yielded_sized _ _ _ _ Hi) as (Hw & Hh & Hl).
    destruct (yielded_reached _ _ _ _ Hi)
      as (frameInfo & yielded & before & after & Hf & _ & _ & Hload).
    destruct (loadFrame_fields _ _ _ _ _ _ _ Hload) as (Hidx & Hdel & Hglob & _).
    by exists frameInfo.
  - intros consumer gifReader. unfold loadFrames, GifReader.numFrames.
    destruct (loadFrames_from consumer gifReader (GifReader.frames gifReader) 0
                (initLoad gifReader)) as [ys ending] eqn:Hrun.
    exact (loadFrames_from_length _ _ _ _ _ _ _ Hrun).
  - apply transfers_count.
Qed.

Lemma yielded_frames_carry_descriptors_witness :
  exists frameData,
    (loadFrames transfers Sample.four_frames).1 !! 2 = Some frameData /\
    delay frameData = 5%Z /\
    length (Canvas.data (data frameData)) = 4.
Proof.
  destruct ((loadFrames transfers Sample.four_frames).1 !! 2) as [frameData|] eqn:Hy;
    [|by vm_compute in Hy].
  destruct (proj1 yielded_frames_carry_descriptors transfers Sample.four_frames 2
              frameData Hy)
    as (frameInfo & Hf & _ & Hd & _ & _ & _ & Hl).
  exists frameData. split; [reflexivity|].
  injection Hf as <-. split; [exact Hd | exact Hl].
Defined.

(** X2. Each frame the generator yields is a patch on the canvas its
  predecessor left. Inside the rectangle of its descriptor, a pixel of frame
  i is the pixel the decoder wrote into the scratch image, without blending.
  Outside that rectangle, a pixel of frame 0 is transparent black, and a
  pixel of a later frame is the pixel of the frame before it, unless that
  frame's disposal method is 2 or 3. *)
Theorem frame_is_a_patch (consumer : Consumer) (gifReader : GifReader.t) (i : nat)
    (frameData : GifFrameData) :
  (loadFrames consumer gifReader).1 !! i = Some frameData ->
  exists frameInfo yielded before,
    GifReader.frames gifReader !! i = Some frameInfo /\
    Run.composited consumer gifReader i = (yielded, Ok before) /\
    forall x y,
      x < GifReader.width gifReader -> y < GifReader.height gifReader ->
      (Run.inside (GifFrameInfo.x frameInfo) (GifFrameInfo.y frameInfo)
         (GifFrameInfo.width frameInfo) (GifFrameInfo.height frameInfo) x y ->
       pixel_at (data frameData) x y =
         Some (image_pixel (decode gifReader i frameInfo (scratchData before)).1 x y)) /\
      (~ Run.inside (GifFrameInfo.x frameInfo) (GifFrameInfo.y frameInfo)
           (GifFrameInfo.width frameInfo) (GifFrameInfo.height frameInfo) x y ->
       (i = 0 -> pixel_at (data frameData) x y = Some transparent_black) /\
       (forall j prev previous,
           i = S j ->
           GifReader.frames gifReader !! j = Some prev ->
           GifFrameInfo.disposal prev <> 2 ->
           GifFrameInfo.disposal prev <> 3 ->
           (loadFrames consumer gifReader).1 !! j = Some previous ->
           pixel_at (data frameData) x y = pixel_at (data previous) x y)).
Proof.
  intros Hy.
  destruct (yielded_reached _ _ _ _ Hy)
    as (frameInfo & yielded & before & after & Hi & Hrun & _ & Hload).
  assert (Hle : i <= GifReader.numFrames gifReader).
  { apply lookup_lt_Some in Hi. unfold GifReader.numFrames. lia. }
  destruct (settled_run _ _ _ _ _ Hle Hrun) as ((Hlen & Hw & Hh & Hs & Hk) & _ & _).
  destruct (loadFrame_fields _ _ _ _ _ _ _ Hload)
    as (_ & _ & _ & _ & Hdat & _ & _ & _ & c1 & Hdisp & Hcanvas).
  destruct (decode_dimensions gifReader i frameInfo (scratchData before)) as [Hdw Hdh].
  pose proof (dispose_sized _ _ _ _ _ Hs Hdisp) as Hs1.
  exists frameInfo, yielded, before. split; [done|]. split; [done|].
  intros x y Hx Hy'.
  destruct (sized_pixel _ _ _ x y Hs1 Hx Hy') as [p Hp].
  assert (Hpix : forall b : bool,
             in_rect (GifFrameInfo.x frameInfo) (GifFrameInfo.y frameInfo)
               (GifFrameInfo.width frameInfo) (GifFrameInfo.height frameInfo) x y = b ->
             pixel_at (data frameData) x y =
               Some (if b then image_pixel
                                 (decode gifReader i frameInfo (scratchData before)).1 x y
                     else p)).
  { intros b Hb. rewrite Hdat, Hcanvas. unfold paint.
    rewrite putImageData_pixel by (destruct Hs1 as [-> _]; done).
    rewrite Hp, Hb, Hdw, Hdh, Hw, Hh. simpl.
    destruct (Nat.ltb_spec x (GifReader.width gifReader)); [|lia].
    destruct (Nat.ltb_spec y (GifReader.height gifReader)); [|lia].
    by destruct b. }
  split.
  - intros Hin. apply in_rect_inside in Hin. by rewrite (Hpix true Hin).
  - intros Hout.
    assert (Hb : in_rect (GifFrameInfo.x frameInfo) (GifFrameInfo.y frameInfo)
               (GifFrameInfo.width frameInfo) (GifFrameInfo.height frameInfo) x y = false).
    { destruct (in_rect _ _ _ _ x y) eqn:E; [|done].
      apply in_rect_inside in E. contradiction. }
    rewrite (Hpix false Hb). split.
    + intros ->. destruct Hk as [Hnone Hnew].
      unfold dispose in Hdisp. rewrite Hnone in Hdisp. injection Hdisp as <-.
      rewrite Hnew in Hp. unfold pixel_at, newCanvas in Hp. simpl in Hp.
      apply lookup_replicate_1 in Hp as [-> _]. done.
    + intros j prev previous -> Hj H2 H3 Hprevious. destruct Hk as [Hprev Hlast].
      rewrite Hj in Hprev.
      rewrite (dispose_keeps _ _ _ _ Hprev H2 H3 Hdisp) in Hp.
      rewrite (yielded_before _ _ _ _ _ j Hrun) in Hprevious by lia.
      rewrite last_lookup, Hlen in Hlast. simpl in Hlast.
      rewrite Hprevious in Hlast. simpl in Hlast. injection Hlast as ->. done.
Qed.

Lemma frame_is_a_patch_witness :
  exists frameData previous,
    (loadFrames transfers Sample.four_frames).1 !! 1 = Some frameData /\
    (loadFrames transfers Sample.four_frames).1 !! 0 = Some previous /\
    pixel_at (data frameData) 0 0 = Some (RGBA 2 0 0 255) /\
    pixel_at (data frameData) 1 1 = pixel_at (data previous) 1 1.
Proof.
  destruct ((loadFrames transfers Sample.four_frames).1 !! 1) as [frameData|] eqn:Hy;
    [|by vm_compute in Hy].
  destruct (frame_is_a_patch transfers Sample.four_frames 1 frameData Hy)
    as (frameInfo & yielded & before & Hf & Hrun & Hpix).
  injection Hf as <-.
  exists frameData, Fixture.four_frames_first. split; [reflexivity|].
  split; [reflexivity|]. split.
  - destruct (Hpix 0 0) as [Hin _]; [simpl; lia..|].
    rewrite Hin by (unfold Run.inside; simpl; lia).
    vm_compute in Hrun. injection Hrun as _ <-. reflexivity.
  - destruct (Hpix 1 1) as [_ Hout]; [simpl; lia..|].
    destruct Hout as [_ Hout]; [unfold Run.inside; simpl; lia|].
    apply (Hout 0 (Sample.frameInfo 0 0 2 2 10 0)); try done.
Defined.

(** X3. Whenever the generator has composited a positive number k of frames
  without throwing, whatever its consumer does, it holds a restore point,
  and that is the frame yielded last among frames 0 .. k-1 that is frame 0
  or has a disposal method other than 3: every frame after it, up to k-1,
  declares disposal 3. *)
Theorem restore_point_is_last_eligible (consumer : Consumer) (gifReader : GifReader.t)
    (k : nat) (yielded : list GifFrameData) (st : LoadState) :
  0 < k <= GifReader.numFrames gifReader ->
  Run.composited consumer gifReader k = (yielded, Ok st) ->
  exists rp,
    prevRestorePoint st = Some rp /\
    index rp < k /\
    yielded !! index rp = Some rp /\
    (index rp = 0 \/
     exists frameInfo,
       GifReader.frames gifReader !! index rp = Some frameInfo /\
       GifFrameInfo.disposal frameInfo <> 3) /\
    (forall j frameInfo,
        index rp < j < k ->
        GifReader.frames gifReader !! j = Some frameInfo ->
        GifFrameInfo.disposal frameInfo = 3).
Proof.
  intros [Hpos Hk] Hrun.
  pose proof (composited_induction gifReader consumer
    (fun k yielded st =>
       length yielded = k /\
       match k with
       | 0 => prevRestorePoint st = None
       | S _ =>
           exists rp,
             prevRestorePoint st = Some rp /\
             index rp < k /\
             yielded !! index rp = Some rp /\
             (index rp = 0 \/
              exists frameInfo,
                GifReader.frames gifReader !! index rp = Some frameInfo /\
                GifFrameInfo.disposal frameInfo <> 3) /\
             (forall j frameInfo,
                 index rp < j < k ->
                 GifReader.frames gifReader !! j = Some frameInfo ->
                 GifFrameInfo.disposal frameInfo = 3)
       end)) as Hind.
  destruct (Hind ltac:(done)) with (k := k) (yielded := yielded) (st := st)
    as [Hlen HP]; [|done|done|].
  - clear k yielded st Hpos Hk Hrun Hind.
    intros k frameInfo yielded st frameData st' Hf Hrun [Hlen HP] Hload.
    destruct (loadFrame_fields _ _ _ _ _ _ _ Hload)
      as (Hidx & _ & _ & _ & _ & _ & _ & Hnext & _).
    split; [rewrite length_app; simpl; lia|].
    assert (Hnew : (yielded ++ [frameData]) !! index frameData = Some frameData).
    { rewrite Hidx, lookup_app_r by lia. by rewrite Hlen, Nat.sub_diag. }
    destruct k as [|k'].
    + exists frameData. rewrite Hnext, HP. simpl.
      split; [done|]. split; [lia|]. split; [done|]. split; [by left; lia|].
      intros j fi Hj. lia.
    + destruct HP as (rp & Hrp & Hlt & Hat & Hel & Hall).
      destruct (decide (GifFrameInfo.disposal frameInfo = 3)) as [H3|H3].
      * exists rp. rewrite Hnext, Hrp, nextRestorePoint_keep by done.
        split; [done|]. split; [lia|].
        split; [by rewrite lookup_app_l by lia|]. split; [done|].
        intros j fi Hj Hfi. destruct (decide (j = S k')) as [->|Hne].
        -- rewrite Hf in Hfi. by injection Hfi as <-.
        -- apply (Hall j fi); [lia|done].
      * exists frameData. rewrite Hnext, nextRestorePoint_new by (by left).
        split; [done|]. split; [lia|]. split; [done|].
        split; [right; exists frameInfo; by rewrite Hidx|].
        intros j fi Hj. lia.
  - destruct k as [|k']; [lia|]. done.
Qed.

Lemma restore_point_is_last_eligible_witness :
  exists yielded st rp,
    Run.composited transfers Sample.four_frames 3 = (yielded, Ok st) /\
    prevRestorePoint st = Some rp /\
    index rp = 1.
Proof.
  destruct (Run.composited transfers Sample.four_frames 3) as [yielded [st|e]] eqn:Hrun;
    [|by vm_compute in Hrun].
  destruct (restore_point_is_last_eligible transfers Sample.four_frames 3 yielded st)
    as (rp & Hrp & _).
  - unfold GifReader.numFrames. simpl. lia.
  - exact Hrun.
  - exists yielded, st, rp. split; [reflexivity|]. split; [exact Hrp|].
    vm_compute in Hrun. injection Hrun as _ <-.
    simpl in Hrp. injection Hrp as <-. reflexivity.
Defined.

End Frames.

(** ** Palettes *)

Section Palettes.
Import JS Canvas Utils Fixture.

Lemma shl_byte (v : Z) (n : Z) :
  is_byte v -> (n = 8 \/ n = 16)%Z -> shl v n = (v * 2 ^ n)%Z.
Proof.
  unfold is_byte, shl, to_int32. intros Hv Hn.
  assert (Hn' : (n mod 32 = n)%Z) by (destruct Hn as [-> | ->]; reflexivity).
  rewrite Hn', (Z.mod_small v) by lia.
  destruct (Z.ltb_spec v (2 ^ 31)); [|lia].
  rewrite Z.shiftl_mul_pow2 by lia.
  assert (0 <= v * 2 ^ n < 2 ^ 24)%Z by (destruct Hn as [-> | ->]; lia).
  rewrite Z.mod_small by lia.
  destruct (Z.ltb_spec (v * 2 ^ n) (2 ^ 31)); lia.
Qed.

Lemma packed_bytes r g b :
  is_byte r -> is_byte g -> is_byte b ->
  (shl r 16 + shl g 8 + b)%Z = rgb r g b /\
  to_uint32 (rgb r g b) = rgb r g b.
Proof.
  intros Hr Hg Hb. rewrite !shl_byte by (done || lia).
  unfold rgb, to_uint32, is_byte in *. split; [lia|].
  apply Z.mod_small. lia.
Qed.

Lemma rgb_components r g b :
  is_byte r -> is_byte g -> is_byte b ->
  (rgb r g b / 65536 = r /\ (rgb r g b / 256) mod 256 = g /\ rgb r g b mod 256 = b)%Z.
Proof.
  unfold rgb, is_byte. intros Hr Hg Hb.
  assert (E256 : ((r * 65536 + g * 256 + b) / 256 = r * 256 + g)%Z).
  { symmetry. apply (Z.div_unique _ _ _ b); lia. }
  split; [|split].
  - symmetry. apply (Z.div_unique _ _ _ (g * 256 + b)); lia.
  - rewrite E256. symmetry. apply (Z.mod_unique _ _ r); lia.
  - symmetry. apply (Z.mod_unique _ _ (r * 256 + g)); lia.
Qed.

Lemma rgb_injective r g b r' g' b' :
  is_byte r -> is_byte g -> is_byte b -> is_byte r' -> is_byte g' -> is_byte b' ->
  rgb r g b = rgb r' g' b' -> r = r' /\ g = g' /\ b = b'.
Proof.
  intros Hr Hg Hb Hr' Hg' Hb' E.
  destruct (rgb_components r g b) as (H1 & H2 & H3); try done.
  destruct (rgb_components r' g' b') as (H1' & H2' & H3'); try done.
  rewrite E in H1, H2, H3. by rewrite <- H1, <- H2, <- H3.
Qed.

Lemma get0_byte (a : list Z) (i : nat) : Forall is_byte a -> is_byte (get0 a i).
Proof.
  intros Ha. unfold get0. destruct (a !! i) as [v|] eqn:E; simpl.
  - by eapply Forall_lookup_1.
  - unfold is_byte. lia.
Qed.

Lemma convertPalette_lookup palette k :
  Forall is_byte palette -> k < length palette / 3 ->
  convertPalette palette !! k =
    Some (rgb (get0 palette (k * 3)) (get0 palette (k * 3 + 1)) (get0 palette (k * 3 + 2))).
Proof.
  intros Hb Hk. unfold convertPalette.
  rewrite list_lookup_fmap, lookup_seq_lt by done. simpl.
  destruct (packed_bytes (get0 palette (k * 3)) (get0 palette (k * 3 + 1))
              (get0 palette (k * 3 + 2))) as [-> ->]; by try apply get0_byte.
Qed.

(** X4. [convertPalette] turns a byte array of 3n (+ at most 2) bytes into
  n colours; colour k is red * 65536 + green * 256 + blue of bytes 3k, 3k+1,
  3k+2, and the three bytes can be read back from it: no two different byte
  triples give the same colour. *)
Theorem convertPalette_packs_losslessly (palette : list Z) :
  Forall is_byte palette ->
  length (convertPalette palette) = length palette / 3 /\
  forall k, k < length palette / 3 ->
    exists r g b c,
      palette !! (k * 3) = Some r /\
      palette !! (k * 3 + 1) = Some g /\
      palette !! (k * 3 + 2) = Some b /\
      convertPalette palette !! k = Some c /\
      c = (r * 65536 + g * 256 + b)%Z /\
      (c / 65536)%Z = r /\ ((c / 256) mod 256)%Z = g /\ (c mod 256)%Z = b.
Proof.
  intros Hb. split.
  - unfold convertPalette. by rewrite length_fmap, length_seq.
  - intros k Hk.
    assert (Hlen : k * 3 + 2 < length palette).
    { pose proof (Nat.div_mod_eq (length palette) 3).
      pose proof (Nat.mod_upper_bound (length palette) 3). lia. }
    destruct (lookup_lt_is_Some_2 palette (k * 3)) as [r Hr]; [lia|].
    destruct (lookup_lt_is_Some_2 palette (k * 3 + 1)) as [g Hg]; [lia|].
    destruct (lookup_lt_is_Some_2 palette (k * 3 + 2)) as [b Hb']; [lia|].
    exists r, g, b, (rgb r g b).
    rewrite convertPalette_lookup by done. unfold get0. rewrite Hr, Hg, Hb'. simpl.
    split; [done|]. split; [done|]. split; [done|]. split; [done|]. split; [done|].
    apply rgb_components; by eapply Forall_lookup_1.
Qed.

Lemma convertPalette_packs_losslessly_witness :
  exists c,
    convertPalette raw_palette !! 1 = Some c /\
    (c / 65536)%Z = 7%Z /\ (c mod 256)%Z = 0%Z.
Proof.
  destruct (convertPalette_packs_losslessly raw_palette) as [_ H].
  - repeat (apply Forall_cons; split; [unfold is_byte; lia|]). apply Forall_nil_2.
  - destruct (H 1) as (r & g & b & c & Hr & Hg & Hb & Hc & _ & H1 & _ & H3).
    + simpl. lia.
    + exists c. injection Hr as <-. injection Hb as <-. done.
Defined.

(** X5. Decoding a palette and encoding against it is exact: when the red,
  green and blue bytes of a pixel equal the three bytes of some entry of a
  raw palette of at most 256 entries, [encodeImage] against the converted
  palette gives that pixel an index whose three raw palette bytes are the
  pixel's red, green and blue; the alpha byte plays no part. *)
Theorem decoded_palette_encodes_exactly
    (image : ImageData) (raw : list Z) (i k : nat) :
  Forall is_byte (bytes image) ->
  Forall is_byte raw ->
  length raw / 3 <= 256 ->
  i < iwidth image * iheight image ->
  k < length raw / 3 ->
  get0 raw (k * 3) = get0 (bytes image) (i * 4) ->
  get0 raw (k * 3 + 1) = get0 (bytes image) (i * 4 + 1) ->
  get0 raw (k * 3 + 2) = get0 (bytes image) (i * 4 + 2) ->
  exists idx : nat,
    encodeImage image (convertPalette raw) !! i = Some (Z.of_nat idx) /\
    idx < length raw / 3 /\
    get0 raw (idx * 3) = get0 (bytes image) (i * 4) /\
    get0 raw (idx * 3 + 1) = get0 (bytes image) (i * 4 + 1) /\
    get0 raw (idx * 3 + 2) = get0 (bytes image) (i * 4 + 2).
Proof.
  intros Himg Hraw Hmax Hi Hk Er Eg Eb.
  assert (Hcol : color_at image i =
            rgb (get0 (bytes image) (i * 4)) (get0 (bytes image) (i * 4 + 1))
                (get0 (bytes image) (i * 4 + 2))).
  { unfold color_at. by apply packed_bytes; apply get0_byte. }
  assert (Hin : color_at image i ∈ convertPalette raw).
  { apply list_elem_of_lookup. exists k.
    rewrite convertPalette_lookup by done. by rewrite Er, Eg, Eb, Hcol. }
  destruct (indexColors_present (convertPalette raw) 0 ∅ _ Hin) as (idx & Hidx & Hl & _).
  assert (Hlt : idx < length raw / 3).
  { apply lookup_lt_Some in Hl. unfold convertPalette in Hl.
    by rewrite length_fmap, length_seq in Hl. }
  exists idx. rewrite encodeImage_lookup, Hidx by done. simpl.
  split.
  { f_equal. unfold to_uint8. apply Z.mod_small. lia. }
  split; [done|].
  rewrite convertPalette_lookup, Hcol in Hl by done. injection Hl as Hl.
  apply rgb_injective in Hl; by try apply get0_byte.
Qed.

Lemma decoded_palette_encodes_exactly_witness :
  exists idx : nat,
    encodeImage (getImageData (Sample.solid 1 1 7) 0 0 1 1)
      (convertPalette raw_palette) !! 0 = Some (Z.of_nat idx) /\
    get0 raw_palette (idx * 3) = 7%Z.
Proof.
  destruct (decoded_palette_encodes_exactly
              (getImageData (Sample.solid 1 1 7) 0 0 1 1) raw_palette 0 1)
    as (idx & He & _ & Hr & _).
  - simpl. repeat (apply Forall_cons; split; [unfold is_byte; lia|]). apply Forall_nil_2.
  - repeat (apply Forall_cons; split; [unfold is_byte; lia|]). apply Forall_nil_2.
  - simpl. lia.
  - simpl. lia.
  - simpl. lia.
  - reflexivity.
  - reflexivity.
  - reflexivity.
  - exists idx. split; [exact He | exact Hr].
Defined.

End Palettes.

(** ** The assembler of src/gif/utils.ts, call by call *)

Section Assembler.
Import JS Canvas Utils Inv Fixture.

Lemma store_index_byte (o : option nat) : is_byte (store_index o).
Proof.
  unfold is_byte, store_index, to_uint8. destruct o; [|lia].
  apply Z.mod_pos_bound. lia.
Qed.

Lemma encodeImage_bytes image palette : Forall is_byte (encodeImage image palette).
Proof.
  unfold encodeImage. apply Forall_fmap, Forall_forall.
  intros i _. apply store_index_byte.
Qed.

Lemma addFrames_dimensions frames : forall a,
  a_width (fold_left addFrame frames a) = a_width a /\
  a_height (fold_left addFrame frames a) = a_height a.
Proof.
  induction frames as [|f rest IH]; intros a; simpl; [done|].
  by destruct (IH (addFrame a f)) as [-> ->].
Qed.

(** The calls a sequence of frames adds to the writer. *)
Lemma addFrames_written frames : forall a,
  exists calls,
    GifWriter.written (gf (fold_left addFrame frames a))
      = GifWriter.written (gf a) ++ calls /\
    (fun c => GifWriter.delay (GifWriter.opts c)) <$> calls = delay <$> frames /\
    (fun c => GifWriter.palette (GifWriter.opts c)) <$> calls
      = (fun f => if isPaletteGlobal f then None else Some (palette f)) <$> frames /\
    Forall (fun c =>
              GifWriter.x c = 0 /\ GifWriter.y c = 0 /\
              GifWriter.w c = a_width a /\ GifWriter.h c = a_height a /\
              length (GifWriter.indexed_pixels c) = a_width a * a_height a /\
              Forall is_byte (GifWriter.indexed_pixels c)) calls.
Proof.
  induction frames as [|f rest IH]; intros a; simpl.
  - exists []. by rewrite app_nil_r.
  - destruct (IH (addFrame a f)) as (calls & Hw & Hd & Hp & Hall).
    eexists (_ :: calls). rewrite Hw.
    split; [simpl; rewrite <- (assoc_L (++)); reflexivity|].
    rewrite !fmap_cons, Hd, Hp.
    split; [done|]. split; [done|].
    apply Forall_cons. split; [|done]. simpl.
    repeat split; try apply encodeImage_bytes.
    unfold encodeImage. by rewrite length_fmap, length_seq.
Qed.

(** X6. Whatever frames are added to an assembler begun for a file, the
  writer receives one call per frame, in order, each placed at (0, 0) with
  the width and height of the metadata, carrying the frame's delay, the
  frame's palette as local palette unless the frame uses the global one, and
  exactly width * height palette indices, each a byte. *)
Theorem written_frames_cover_canvas
    (metadata : GifMetadata) (globalPalette : option (list Z))
    (frames : list GifFrameData) :
  let written :=
    GifWriter.written (gf (fold_left addFrame frames (beginFile metadata globalPalette))) in
  (fun c => GifWriter.delay (GifWriter.opts c)) <$> written = delay <$> frames /\
  (fun c => GifWriter.palette (GifWriter.opts c)) <$> written
    = (fun f => if isPaletteGlobal f then None else Some (palette f)) <$> frames /\
  Forall (fun c =>
            GifWriter.x c = 0 /\ GifWriter.y c = 0 /\
            GifWriter.w c = width metadata /\ GifWriter.h c = height metadata /\
            length (GifWriter.indexed_pixels c) = width metadata * height metadata /\
            Forall is_byte (GifWriter.indexed_pixels c)) written.
Proof.
  simpl.
  destruct (addFrames_written frames (beginFile metadata globalPalette))
    as (calls & Hw & H). by rewrite Hw.
Qed.

(** Reading four bytes per pixel back from [getImageData]. *)
Lemma flat_map_quads {A} (f : nat -> list A) (n : nat) :
  (forall j, length (f j) = 4) ->
  forall start i k, i < n -> k < 4 ->
    flat_map f (seq start n) !! (i * 4 + k) = f (start + i) !! k.
Proof.
  intros Hf. induction n as [|n IH]; intros start i k Hi Hk; [lia|]. simpl.
  destruct i as [|i].
  - rewrite lookup_app_l by (rewrite Hf; lia). by rewrite Nat.add_0_r.
  - rewrite lookup_app_r by (rewrite Hf; lia). rewrite Hf.
    replace (S i * 4 + k - 4) with (i * 4 + k) by lia.
    rewrite IH by lia. by replace (start + S i) with (S start + i) by lia.
Qed.

Lemma getImageData_color w h c x y q :
  sized w h c -> x < w -> y < h ->
  pixel_at c x y = Some q ->
  color_at (getImageData c 0 0 w h) (y * w + x)
    = (shl (red q) 16 + shl (green q) 8 + blue q)%Z.
Proof.
  intros (Hw & Hh & Hl) Hx Hy Hq.
  assert (Hi : y * w + x < w * h) by nia.
  unfold color_at, get0, getImageData. cbn [bytes].
  set (F := fun i : nat => _).
  assert (HF : forall j, length (F j) = 4) by done.
  pose proof (flat_map_quads F (w * h) HF 0 (y * w + x) 0 Hi ltac:(lia)) as H0.
  pose proof (flat_map_quads F (w * h) HF 0 (y * w + x) 1 Hi ltac:(lia)) as H1.
  pose proof (flat_map_quads F (w * h) HF 0 (y * w + x) 2 Hi ltac:(lia)) as H2.
  rewrite Nat.add_0_r in H0. rewrite H0, H1, H2. unfold F. simpl.
  rewrite cell_col, cell_row, Hw, Hh by done.
  destruct (Nat.ltb_spec x w); [|lia]. destruct (Nat.ltb_spec y h); [|lia].
  simpl. by rewrite Hq.
Qed.

Lemma addFrames_context frames : forall a w h,
  sized w h (context a) -> sized w h (context (fold_left addFrame frames a)).
Proof.
  induction frames as [|f rest IH]; intros a w h Hs; simpl; [done|].
  apply IH. simpl. by apply sized_drawImage.
Qed.

(** X7. The assembler draws each frame over what the frames before it left
  on its canvas and does not clear in between. So the colour looked up for
  a pixel of a new frame is the frame's own colour where the frame's pixel is
  opaque, and where it is transparent it is the colour the canvas holds from
  the earlier frames (transparent black, colour 0, on a fresh canvas). *)
Theorem encoded_pixel_is_blend
    (metadata : GifMetadata) (globalPalette : option (list Z))
    (earlier : list GifFrameData) (frame : GifFrameData) (x y : nat) (s : pixel) :
  Canvas.width (data frame) = width metadata ->
  Canvas.height (data frame) = height metadata ->
  length (Canvas.data (data frame)) = width metadata * height metadata ->
  x < width metadata -> y < height metadata ->
  pixel_at (data frame) x y = Some s ->
  let a := fold_left addFrame earlier (beginFile metadata globalPalette) in
  exists call p,
    GifWriter.written (gf (addFrame a frame)) = GifWriter.written (gf a) ++ [call] /\
    pixel_at (context a) x y = Some p /\
    (earlier = [] -> p = transparent_black) /\
    (alpha s = 255%Z ->
     GifWriter.indexed_pixels call !! (y * width metadata + x) =
       Some (store_index (indexColors (palette frame) 0 ∅
                            !! (shl (red s) 16 + shl (green s) 8 + blue s)%Z))) /\
    (alpha s = 0%Z ->
     GifWriter.indexed_pixels call !! (y * width metadata + x) =
       Some (store_index (indexColors (palette frame) 0 ∅
                            !! (shl (red p) 16 + shl (green p) 8 + blue p)%Z))).
Proof.
  intros Hfw Hfh Hfl Hx Hy Hs a.
  assert (Hsa : sized (width metadata) (height metadata) (context a)).
  { apply addFrames_context. apply sized_newCanvas. }
  destruct (addFrames_dimensions earlier (beginFile metadata globalPalette))
    as [Haw Hah]. fold a in Haw, Hah. simpl in Haw, Hah.
  destruct (sized_pixel _ _ _ x y Hsa Hx Hy) as [p Hp].
  eexists _, p. split; [reflexivity|]. split; [done|]. split.
  { intros ->. unfold a in Hp. simpl in Hp. unfold pixel_at in Hp. simpl in Hp.
    by apply lookup_replicate_1 in Hp as [-> _]. }
  assert (Hblend : pixel_at (drawImage (context a) (data frame) 0 0) x y
                     = Some (source_over s p)).
  { by apply (drawImage_pixel (width metadata) (height metadata)). }
  assert (Hi : y * width metadata + x < width metadata * height metadata) by nia.
  simpl. rewrite Haw, Hah.
  split; intros Ha; rewrite encodeImage_lookup by done; do 2 f_equal;
    rewrite (getImageData_color _ _ _ _ _ _
               (sized_drawImage _ _ _ _ _ _ Hsa) Hx Hy Hblend);
    unfold source_over; by rewrite Ha.
Qed.

Lemma encoded_pixel_is_blend_witness :
  exists call p,
    GifWriter.written
      (gf (addFrame (fold_left addFrame [] (beginFile (Sample.image 1) None))
             (Sample.frame 1 20)))
      = [] ++ [call] /\
    pixel_at (context (beginFile (Sample.image 1) None)) 0 0 = Some p /\
    GifWriter.indexed_pixels call !! 0 = Some 1%Z.
Proof.
  destruct (encoded_pixel_is_blend (Sample.image 1) None [] (Sample.frame 1 20)
              0 0 (RGBA 2 0 0 255))
    as (call & p & Hw & Hp & _ & Hop & _); try reflexivity; try (simpl; lia).
  exists call, p. split; [exact Hw|]. split; [exact Hp|].
  exact (Hop eq_refl).
Defined.

End Assembler.

(** ** The encode worker and the export as a whole *)

Section EncodePipeline.
Import JS Canvas Utils FileEditor Merge GifWriterWorker.

Lemma worker_frames frames : forall a posted0,
  fold_left onmessage (frame <$> frames) {| writer := Some a; posted := posted0 |} =
    {| writer := Some (fold_left addFrame frames a);
       posted := posted0 ++
         if decide (0 < framesRemaining a <= Z.of_nat (length frames))%Z
         then [gf (fold_left addFrame (take (Z.to_nat (framesRemaining a)) frames) a)]
         else [] |}.
Proof.
  induction frames as [|f rest IH]; intros a posted0.
  - simpl. rewrite decide_False by lia. by rewrite app_nil_r.
  - rewrite fmap_cons. simpl fold_left.
    change (onmessage {| writer := Some a; posted := posted0 |} (frame f))
      with {| writer := Some (addFrame a f);
              posted := if done (addFrame a f)
                        then posted0 ++ [gf (addFrame a f)] else posted0 |}.
    rewrite IH. f_equal. unfold done.
    change (framesRemaining (addFrame a f)) with (framesRemaining a - 1)%Z.
    change (length (f :: rest)) with (S (length rest)).
    destruct (Z.eqb_spec (framesRemaining a - 1) 0) as [E|E].
    + rewrite decide_False by lia. rewrite decide_True by lia.
      replace (Z.to_nat (framesRemaining a)) with 1 by lia.
      by rewrite app_nil_r.
    + destruct (decide (0 < framesRemaining a - 1 <= Z.of_nat (length rest))%Z).
      * rewrite decide_True by lia.
        replace (Z.to_nat (framesRemaining a)) with (S (Z.to_nat (framesRemaining a - 1)))
          by lia.
        done.
      * by rewrite decide_False by lia.
Qed.

Lemma run_writeGifToFile (m : GifMetadata) (frames : list GifFrameData) :
  run (writeGifToFile m frames) =
    {| writer := Some (fold_left addFrame frames
                         (beginFile m (palette <$> head (filter
                            (fun f => isPaletteGlobal f = true) frames))));
       posted :=
         if decide (0 < Z.of_nat (frameCount m) <= Z.of_nat (length frames))%Z
         then [gf (fold_left addFrame (take (frameCount m) frames)
                     (beginFile m (palette <$> head (filter
                        (fun f => isPaletteGlobal f = true) frames))))]
         else [] |}.
Proof.
  unfold run, writeGifToFile. simpl fold_left.
  change (map frame frames) with (frame <$> frames).
  set (globalPalette := palette <$> head (filter (fun f => isPaletteGlobal f = true) frames)).
  change (onmessage idle (metadata m globalPalette))
    with {| writer := Some (beginFile m globalPalette); posted := [] |}.
  rewrite worker_frames. cbn [app].
  change (framesRemaining (beginFile m globalPalette)) with (Z.of_nat (frameCount m)).
  by rewrite Nat2Z.id.
Qed.

(** X8. Handed the messages of [writeGifToFile], the worker begins a file on
  the metadata and adds every frame. It posts a buffer back exactly once,
  right after the frame that completes the announced frame count, provided
  that count is at least 1 and at most the number of frames sent; with a
  frame count of 0, or fewer frames than announced, it never posts. *)
Theorem worker_posts_once (m : GifMetadata) (frames : list GifFrameData) :
  let globalPalette :=
    palette <$> head (filter (fun f => isPaletteGlobal f = true) frames) in
  let wk := run (writeGifToFile m frames) in
  writer wk = Some (fold_left addFrame frames (beginFile m globalPalette)) /\
  (1 <= frameCount m <= length frames ->
   posted wk =
     [gf (fold_left addFrame (take (frameCount m) frames) (beginFile m globalPalette))]) /\
  (frameCount m = 0 \/ length frames < frameCount m -> posted wk = []).
Proof.
  simpl. rewrite run_writeGifToFile. cbn [writer posted].
  split; [done|]. split.
  - intros H. by rewrite decide_True by lia.
  - intros H. by rewrite decide_False by lia.
Qed.

Lemma worker_posts_once_witness :
  posted (run (writeGifToFile (Sample.image 2) Sample.three_frames)) =
    [gf (fold_left addFrame (take 2 Sample.three_frames)
           (beginFile (Sample.image 2) (Some [65536; 131072; 196608]%Z)))] /\
  posted (run (writeGifToFile (Sample.image 0) Sample.three_frames)) = [].
Proof.
  split.
  - apply (proj1 (proj2 (worker_posts_once (Sample.image 2) Sample.three_frames))).
    simpl. lia.
  - apply (proj2 (proj2 (worker_posts_once (Sample.image 0) Sample.three_frames))).
    by left.
Defined.

(** Adding frames leaves the header of the file as [beginFile] wrote it. *)
Lemma addFrames_header frames : forall a,
  GifWriter.gopts (gf (fold_left addFrame frames a)) = GifWriter.gopts (gf a) /\
  GifWriter.width (gf (fold_left addFrame frames a)) = GifWriter.width (gf a) /\
  GifWriter.height (gf (fold_left addFrame frames a)) = GifWriter.height (gf a) /\
  GifWriter.buffer_length (gf (fold_left addFrame frames a))
    = GifWriter.buffer_length (gf a).
Proof.
  induction frames as [|f rest IH]; intros a; simpl; [done|].
  by destruct (IH (addFrame a f)) as (-> & -> & -> & ->).
Qed.

Lemma merge_nonempty l : l <> [] -> starts_kept l -> merge l <> [].
Proof.
  destruct l as [|[f fs] rest]; [done|]. intros _ Hk.
  unfold starts_kept, survives in Hk. simpl in *. by rewrite Hk.
Qed.

(** The export of a sequence that starts with a surviving frame, step by
  step: the request, the frames and the one buffer posted. *)
Lemma export_run (image : GifMetadata) (frames : list GifFrameData)
    (frameStates : list FrameState) :
  frames <> [] ->
  length frameStates = length frames ->
  starts_kept (zip frames frameStates) ->
  let framesToSave := merge (zip frames frameStates) in
  let request := {| width := width image; height := height image;
                    frameCount := length framesToSave; loopCount := loopCount image |} in
  let a := fold_left addFrame framesToSave
             (beginFile request (palette <$> head (filter
                (fun f => isPaletteGlobal f = true) framesToSave))) in
  download image frames frameStates = Ok (request, framesToSave) /\
  exported_delays image frames frameStates = Some (delay <$> framesToSave) /\
  export image frames frameStates = Some {| writer := Some a; posted := [gf a] |}.
Proof.
  intros Hne Hlen Hk. simpl.
  set (l := zip frames frameStates).
  assert (Hd : download_from frameStates frames 0 [] = Ok (merge l))
    by by apply download_from_start.
  assert (Hl : l <> []).
  { unfold l. destruct frames; [done|]. by destruct frameStates. }
  pose proof (merge_nonempty l Hl Hk) as Hm.
  unfold export, exported_delays, download. rewrite Hd. simpl.
  split; [done|]. split; [done|].
  rewrite run_writeGifToFile. cbn [frameCount].
  rewrite take_ge by done.
  rewrite decide_True; [done|]. destruct (merge l); simpl; [done|lia].
Qed.

(** X9. An export that starts with a surviving frame goes through to the
  end: [download] hands the merged frames to the worker, and the worker posts
  exactly one buffer. The frames written into it carry, in order, the delays
  [download] computed, there is one per frame exported, and the loop count
  is the one of the file. *)
Theorem export_posts_merged_frames
    (image : GifMetadata) (frames : list GifFrameData)
    (frameStates : list FrameState) :
  frames <> [] ->
  length frameStates = length frames ->
  starts_kept (zip frames frameStates) ->
  exists wk w request framesToSave,
    download image frames frameStates = Ok (request, framesToSave) /\
    export image frames frameStates = Some wk /\
    posted wk = [w] /\
    length (GifWriter.written w) = length framesToSave /\
    Some ((fun c => GifWriter.delay (GifWriter.opts c)) <$> GifWriter.written w)
      = exported_delays image frames frameStates /\
    GifWriter.loop (GifWriter.gopts w) = loopCount image /\
    GifWriter.width w = width image /\ GifWriter.height w = height image.
Proof.
  intros Hne Hlen Hk.
  destruct (export_run image frames frameStates Hne Hlen Hk) as (Hd & Hdel & He).
  eexists _, _, _, _. split; [exact Hd|]. split; [exact He|]. split; [reflexivity|].
  rewrite Hdel.
  match goal with
  | |- context [fold_left addFrame ?fs ?b] =>
      destruct (addFrames_written fs b) as (calls & Hw & Hcalls & _);
      destruct (addFrames_header fs b) as (Hg & Hwd & Hht & _)
  end.
  simpl in Hw. rewrite Hw, Hg, Hwd, Hht.
  split; [by rewrite <- (length_fmap (fun c => GifWriter.delay (GifWriter.opts c))),
            Hcalls, length_fmap|].
  by rewrite Hcalls.
Qed.

Lemma export_posts_merged_frames_witness :
  exists wk w,
    export (Sample.image 3) Sample.three_frames Fixture.marks_one_dropped = Some wk /\
    posted wk = [w] /\
    (fun c => GifWriter.delay (GifWriter.opts c)) <$> GifWriter.written w = [30; 5]%Z.
Proof.
  destruct (export_posts_merged_frames (Sample.image 3) Sample.three_frames
              Fixture.marks_one_dropped)
    as (wk & w & request & framesToSave & _ & He & Hp & _ & Hd & _);
    [discriminate | reflexivity | reflexivity |].
  exists wk, w. split; [exact He|]. split; [exact Hp|].
  vm_compute in Hd. injection Hd as Hd. exact Hd.
Defined.

Lemma yielded_delays gifReader infos : forall i st yielded st',
  loadFrames_from reads gifReader infos i st = (yielded, Ok st') ->
  delay <$> yielded = GifFrameInfo.delay <$> infos.
Proof.
  induction infos as [|frameInfo rest IH]; intros i st yielded st' H; simpl in H.
  - by inversion H.
  - destruct (loadFrame reads gifReader i frameInfo st) as [[fd st1]|e] eqn:Hl; [|discriminate].
    destruct (loadFrames_from reads gifReader rest (S i) st1) as [ys ending] eqn:Hrest.
    inversion H; subst. rewrite !fmap_cons. f_equal.
    + by destruct (loadFrame_fields _ _ _ _ _ _ _ Hl) as (_ & -> & _).
    + by eapply IH.
Qed.

Lemma run_delay_kept l : starts_kept l -> run_delay l = 0%Z.
Proof.
  destruct l as [|[f fs] rest]; [done|]. unfold starts_kept, survives. simpl.
  by intros ->.
Qed.

Lemma merge_all_kept l : Forall survives l -> merge l = l.*1.
Proof.
  induction 1 as [|[f fs] rest Hf Hrest IH]; [done|]. simpl.
  unfold survives in Hf. simpl in Hf. rewrite Hf, IH. f_equal.
  rewrite run_delay_kept, Z.add_0_r, set_delay_same; [done|].
  destruct Hrest; done.
Qed.

(** X10. Round trip without edits. For a file of at least one frame in
  which no frame but the last declares disposal 3, the decode worker is
  handed every frame, and these frames, exported under the edit marks of a
  freshly opened file (nothing dropped), are all written: the encode worker
  posts one buffer holding as many frames as the file has, with the delays
  of the file's descriptors in order, each frame covering the canvas of the
  file, and the loop count of the file. *)
Theorem unedited_round_trip (gifReader : GifReader.t) :
  1 <= GifReader.numFrames gifReader ->
  (forall j frameInfo,
      S j < GifReader.numFrames gifReader ->
      GifReader.frames gifReader !! j = Some frameInfo ->
      GifFrameInfo.disposal frameInfo <> 3) ->
  let image := {| width := GifReader.width gifReader;
                  height := GifReader.height gifReader;
                  frameCount := GifReader.numFrames gifReader;
                  loopCount := GifReader.loopCount gifReader |} in
  exists wk w,
    length (loadFrames transfers gifReader).1 = GifReader.numFrames gifReader /\
    export image (loadFrames transfers gifReader).1
      (Editor.initialFrameStates (frameCount image)) = Some wk /\
    posted wk = [w] /\
    length (GifWriter.written w) = GifReader.numFrames gifReader /\
    (fun c => GifWriter.delay (GifWriter.opts c)) <$> GifWriter.written w
      = GifFrameInfo.delay <$> GifReader.frames gifReader /\
    Forall (fun c => GifWriter.x c = 0 /\ GifWriter.y c = 0 /\
                     GifWriter.w c = GifReader.width gifReader /\
                     GifWriter.h c = GifReader.height gifReader)
      (GifWriter.written w) /\
    GifWriter.loop (GifWriter.gopts w) = GifReader.loopCount gifReader.
Proof.
  intros Hn Hplain. simpl. rewrite (transfers_complete gifReader Hplain).
  destruct (loadFrames_from_total gifReader (GifReader.frames gifReader) 0
              (initLoad gifReader) (guarded_init gifReader))
    as (yielded & st & Hrun & Hlen & _).
  pose proof (yielded_delays _ _ _ _ _ _ Hrun) as Hdelays.
  unfold loadFrames. rewrite Hrun. cbn [fst].
  unfold GifReader.numFrames in *. unfold Editor.initialFrameStates.
  set (marks := replicate (length (GifReader.frames gifReader)) {| deleted := None |}).
  assert (Hmarks : length marks = length yielded).
  { unfold marks. by rewrite length_replicate. }
  assert (Hkept : Forall survives (zip yielded marks)).
  { apply Forall_forall. intros [f fs] Hin.
    apply elem_of_zip_r in Hin. unfold marks in Hin.
    apply elem_of_replicate in Hin as [-> _]. done. }
  assert (Hmerge : merge (zip yielded marks) = yielded).
  { rewrite merge_all_kept by done. apply fst_zip. lia. }
  destruct (export_run {| width := GifReader.width gifReader;
                          height := GifReader.height gifReader;
                          frameCount := length (GifReader.frames gifReader);
                          loopCount := GifReader.loopCount gifReader |}
              yielded marks) as (_ & _ & He).
  { destruct yielded; simpl in *; [lia|done]. }
  { done. }
  { destruct (zip yielded marks) as [|p rest] eqn:E; [done|].
    by apply Forall_inv in Hkept. }
  rewrite Hmerge in He. cbn [width height loopCount] in He.
  eexists _, _. split; [done|]. split; [exact He|]. split; [reflexivity|].
  match goal with
  | |- context [fold_left addFrame ?fs ?b] =>
      destruct (addFrames_written fs b) as (calls & Hw & Hcalls & _ & Hall);
      destruct (addFrames_header fs b) as (Hg & _)
  end.
  simpl in Hw. rewrite Hw, Hg.
  split; [by rewrite <- (length_fmap (fun c => GifWriter.delay (GifWriter.opts c))),
            Hcalls, length_fmap|].
  split; [by rewrite Hcalls|]. split; [|done].
  eapply Forall_impl; [exact Hall|]. simpl. intros c (? & ? & ? & ? & _). done.
Qed.

Lemma unedited_round_trip_witness :
  exists wk w,
    export {| width := 2; height := 2; frameCount := 3; loopCount := 0 |}
      (loadFrames transfers Sample.ends_with_restore).1 (Editor.initialFrameStates 3)
      = Some wk /\
    posted wk = [w] /\
    (fun c => GifWriter.delay (GifWriter.opts c)) <$> GifWriter.written w
      = [10; 20; 5]%Z.
Proof.
  destruct (unedited_round_trip Sample.ends_with_restore)
    as (wk & w & _ & He & Hp & _ & Hd & _).
  - unfold GifReader.numFrames. simpl. lia.
  - unfold GifReader.numFrames. simpl.
    intros j frameInfo Hj Hf. destruct j as [|[|j]]; [| |lia];
      injection Hf as <-; simpl; lia.
  - exists wk, w. split; [exact He|]. split; [exact Hp|]. exact Hd.
Defined.

End EncodePipeline.

(** ** [saveFrames] of src/gif.ts against the assembler of src/gif/utils.ts *)

Section Legacy.
Import JS Canvas Inv SaveFrames.

Lemma loaded_palettes frame :
  loaded frame ->
  palette_of frame = Some (Utils.palette (streamed frame)) /\
  Gif.paletteLocal frame =
    (if Utils.isPaletteGlobal (streamed frame) then None
     else Some (Utils.palette (streamed frame))) /\
  Gif.paletteGlobal frame =
    (if Utils.isPaletteGlobal (streamed frame) then Some (Utils.palette (streamed frame))
     else None).
Proof.
  unfold loaded, streamed, palette_of. simpl.
  destruct (GifFrameInfo.has_local_palette (Gif.info frame)); simpl.
  - intros [-> [p ->]]. done.
  - intros [-> [p ->]]. done.
Qed.

Lemma saveFrames_loop_streamed frames : forall (a : Utils.Assembler) (g : GifWriter.t),
  Forall loaded frames ->
  same_file g (Utils.gf a) ->
  exists g',
    saveFrames_loop frames (Utils.a_width a) (Utils.a_height a) (Utils.context a) g = Ok g' /\
    same_file g' (Utils.gf (fold_left Utils.addFrame (streamed <$> frames) a)) /\
    GifWriter.buffer_length g' = GifWriter.buffer_length g.
Proof.
  induction frames as [|frame rest IH]; intros a g Hall Hsame.
  - by exists g.
  - apply Forall_cons in Hall as [Hf Hrest].
    destruct (loaded_palettes frame Hf) as (Hpal & Hloc & _).
    simpl. rewrite Hpal.
    destruct (IH (Utils.addFrame a (streamed frame))
                (GifWriter.addFrame g
                   {| GifWriter.x := 0; GifWriter.y := 0;
                      GifWriter.w := Utils.a_width a; GifWriter.h := Utils.a_height a;
                      GifWriter.indexed_pixels :=
                        Utils.encodeImage
                          (getImageData (drawImage (Utils.context a) (Gif.data frame) 0 0)
                             0 0 (Utils.a_width a) (Utils.a_height a))
                          (Utils.palette (streamed frame));
                      GifWriter.opts :=
                        {| GifWriter.delay := GifFrameInfo.delay (Gif.info frame);
                           GifWriter.palette := Gif.paletteLocal frame |} |}) Hrest)
      as (g' & Hrun & Hsame' & Hbuf).
    { destruct Hsame as (Hw & Hg & Hwd & Hht).
      unfold same_file. simpl. by rewrite Hw, Hg, Hwd, Hht, Hloc. }
    exists g'. split; [exact Hrun|]. split; [exact Hsame'|]. by rewrite Hbuf.
Qed.

Lemma global_palette_streamed frames :
  Forall loaded frames ->
  head (omap Gif.paletteGlobal frames)
    = Utils.palette <$> head (filter (fun f => Utils.isPaletteGlobal f = true)
                                (streamed <$> frames)).
Proof.
  induction 1 as [|frame rest Hf _ IH]; [done|].
  destruct (loaded_palettes frame Hf) as (_ & _ & Hglob).
  rewrite fmap_cons, filter_cons. simpl. rewrite Hglob.
  destruct (Utils.isPaletteGlobal (streamed frame)) eqn:E; simpl in E;
    case_decide; try congruence; [done | exact IH].
Qed.

Lemma saveFrames_begin frames w h :
  Forall loaded frames ->
  let a := fold_left Utils.addFrame (streamed <$> frames)
             (Utils.beginFile
                {| Utils.width := w; Utils.height := h;
                   Utils.frameCount := length frames; Utils.loopCount := 0 |}
                (Utils.palette <$> head (filter (fun f => Utils.isPaletteGlobal f = true)
                                           (streamed <$> frames)))) in
  exists g,
    saveFrames_loop frames w h (newCanvas w h)
      (GifWriter.new (w * h * length frames + 1024) w h
         {| GifWriter.loop := 0;
            GifWriter.gpalette := head (omap Gif.paletteGlobal frames) |}) = Ok g /\
    GifWriter.written g = GifWriter.written (Utils.gf a) /\
    GifWriter.gopts g = GifWriter.gopts (Utils.gf a) /\
    GifWriter.width g = w /\ GifWriter.height g = h /\
    GifWriter.buffer_length g = w * h * length frames + 1024 /\
    GifWriter.buffer_length (Utils.gf a) = (w * h + 1024) * length frames.
Proof.
  intros Hall a.
  pose proof (global_palette_streamed frames Hall) as Hgp.
  set (b := Utils.beginFile
              {| Utils.width := w; Utils.height := h;
                 Utils.frameCount := length frames; Utils.loopCount := 0 |}
              (Utils.palette <$> head (filter (fun f => Utils.isPaletteGlobal f = true)
                                         (streamed <$> frames)))) in *.
  destruct (saveFrames_loop_streamed frames b
              (GifWriter.new (w * h * length frames + 1024) w h
                 {| GifWriter.loop := 0;
                    GifWriter.gpalette := head (omap Gif.paletteGlobal frames) |}) Hall)
    as (g & Hrun & (Hw & Hg & Hwd & Hht) & Hbuf).
  { unfold same_file, b, Utils.beginFile, GifWriter.new.
    cbn [Utils.gf GifWriter.written GifWriter.gopts GifWriter.width GifWriter.height
         Utils.loopCount Utils.width Utils.height].
    by rewrite Hgp. }
  exists g. split; [exact Hrun|].
  destruct (addFrames_header (streamed <$> frames) b) as (_ & Hwd' & Hht' & Hbuf').
  fold a in Hw, Hg, Hwd, Hht, Hwd', Hht', Hbuf'.
  rewrite Hw, Hg, Hwd, Hht, Hwd', Hht', Hbuf, Hbuf'. done.
Qed.

(** X11. [saveFrames] of src/gif.ts throws a TypeError on an empty array and
  at a frame carrying no palette at all. On frames as [loadFrames] of
  src/gif.ts builds them it writes exactly what the assembler of
  src/gif/utils.ts writes for the same frames: the same calls in the same
  order under the same global palette, which is the first global palette
  among the frames, as [writeGifToFile] chooses it. The two differ in the
  loop count, which [saveFrames] fixes at 0, and in the size of the buffer
  they allocate. *)
Theorem saveFrames_is_the_assembler :
  saveFrames [] = Throw TypeError /\
  (forall (before : list Gif.GifFrameData) (frame : Gif.GifFrameData)
          (after : list Gif.GifFrameData),
      Forall loaded before -> palette_of frame = None ->
      saveFrames (before ++ frame :: after) = Throw TypeError) /\
  (forall (first : Gif.GifFrameData) (rest : list Gif.GifFrameData),
      Forall loaded (first :: rest) ->
      let frames := first :: rest in
      let w := Canvas.width (Gif.data first) in
      let h := Canvas.height (Gif.data first) in
      let globalPalette :=
        Utils.palette <$> head (filter (fun f => Utils.isPaletteGlobal f = true)
                                  (streamed <$> frames)) in
      let a := fold_left Utils.addFrame (streamed <$> frames)
                 (Utils.beginFile
                    {| Utils.width := w; Utils.height := h;
                       Utils.frameCount := length frames; Utils.loopCount := 0 |}
                    globalPalette) in
      exists g,
        saveFrames frames = Ok g /\
        GifWriter.written g = GifWriter.written (Utils.gf a) /\
        GifWriter.gopts g = GifWriter.gopts (Utils.gf a) /\
        GifWriter.width g = w /\ GifWriter.height g = h /\
        GifWriter.buffer_length g = w * h * length frames + 1024 /\
        GifWriter.buffer_length (Utils.gf a) = (w * h + 1024) * length frames).
Proof.
  split; [done|]. split.
  - intros before frame after Hall Hnone.
    assert (Hloop : forall w h c g,
               saveFrames_loop (before ++ frame :: after) w h c g = Throw TypeError).
    { clear -Hall Hnone. induction Hall as [|f rest Hf _ IH]; intros w h c g; simpl.
      - by rewrite Hnone.
      - destruct (loaded_palettes f Hf) as (-> & _). apply IH. }
    unfold saveFrames. destruct (before ++ frame :: after) eqn:E.
    + by destruct before.
    + apply Hloop.
  - intros first rest Hall.
    exact (saveFrames_begin (first :: rest) (Canvas.width (Gif.data first))
             (Canvas.height (Gif.data first)) Hall).
Qed.

Lemma saveFrames_is_the_assembler_witness :
  saveFrames [Fixture.bare_frame] = Throw TypeError /\
  exists g,
    saveFrames Fixture.legacy_frames = Ok g /\
    GifWriter.buffer_length g = 1040 /\
    GifWriter.width g = 2.
Proof.
  split.
  - exact (proj1 (proj2 saveFrames_is_the_assembler) [] Fixture.bare_frame []
             (Forall_nil_2 _) eq_refl).
  - destruct (proj2 (proj2 saveFrames_is_the_assembler)
                (hd Fixture.bare_frame Fixture.legacy_frames)
                (tl Fixture.legacy_frames))
      as (g & Hs & _ & _ & Hw & _ & Hb & _).
    + repeat (apply Forall_cons; split; [by split; [|eexists]|]). apply Forall_nil_2.
    + exists g. split; [exact Hs|]. split; [exact Hb | exact Hw].
Defined.

(** The calls written depend on the canvas and the dimensions only. *)
Lemma addFrames_same_calls frames : forall a1 a2,
  Utils.a_width a1 = Utils.a_width a2 ->
  Utils.a_height a1 = Utils.a_height a2 ->
  Utils.context a1 = Utils.context a2 ->
  GifWriter.written (Utils.gf a1) = GifWriter.written (Utils.gf a2) ->
  GifWriter.written (Utils.gf (fold_left Utils.addFrame frames a1))
    = GifWriter.written (Utils.gf (fold_left Utils.addFrame frames a2)).
Proof.
  induction frames as [|f rest IH]; intros a1 a2 Hw Hh Hc Hl; simpl; [done|].
  apply IH; simpl; try done.
  - by rewrite Hc.
  - by rewrite Hw, Hh, Hc, Hl.
Qed.

(** The two loaders in step, frame for frame. *)
Lemma in_step_loadFrame_streamed gifReader i frameInfo su sg frameData su' sg' :
  in_step i su sg -> guarded su ->
  Utils.loadFrame Utils.reads gifReader i frameInfo su = Ok (frameData, su') ->
  Gif.loadFrame gifReader i frameInfo sg = Ok sg' ->
  exists frame,
    Gif.result_ sg' = Gif.result_ sg ++ [frame] /\
    streamed frame = frameData /\
    loaded frame.
Proof.
  intros S G. destruct (in_step_dispose i su sg S G) as (c1 & Hdu & Hdg).
  destruct S as [_ _ Hs _ _ _ _].
  unfold Utils.loadFrame, Gif.loadFrame. rewrite Hdu, Hdg, <- Hs. simpl.
  destruct (Utils.decode gifReader i frameInfo (Utils.scratchData su)) as [scratch pal].
  intros [= <- <-] [= <-]. eexists. split; [reflexivity|]. split.
  - unfold streamed, palette_of. simpl.
    by destruct (GifFrameInfo.has_local_palette frameInfo).
  - unfold loaded. simpl.
    destruct (GifFrameInfo.has_local_palette frameInfo); by split; [|eexists].
Qed.

Lemma in_step_run_streamed gifReader infos : forall i su sg,
  in_step i su sg -> guarded su ->
  exists yielded su' sg' more,
    Utils.loadFrames_from Utils.reads gifReader infos i su = (yielded, Ok su') /\
    Gif.loadFrames_from gifReader infos i sg = Ok sg' /\
    Gif.result_ sg' = Gif.result_ sg ++ more /\
    streamed <$> more = yielded /\
    Forall loaded more.
Proof.
  induction infos as [|frameInfo rest IH]; intros i su sg S G; simpl.
  - exists [], su, sg, []. by rewrite app_nil_r.
  - destruct (in_step_loadFrame gifReader i frameInfo su sg S G)
      as (fd & su1 & g0 & sg1 & Hu & Hg & _ & _ & _ & S1 & G1).
    destruct (in_step_loadFrame_streamed _ _ _ _ _ _ _ _ S G Hu Hg)
      as (g & Hres & Hstr & Hload).
    rewrite Hu, Hg. simpl.
    destruct (IH (Datatypes.S i) su1 sg1 S1 G1)
      as (ys & su' & sg' & more & Hu' & Hg' & Hres' & Hstr' & Hall).
    rewrite Hu', Hg'. exists (fd :: ys), su', sg', (g :: more).
    split; [done|]. split; [done|].
    split; [by rewrite Hres', Hres, <- (assoc_L (++))|].
    split; [by rewrite fmap_cons, Hstr, Hstr'|].
    by apply Forall_cons.
Qed.

(** X12. The earlier pipeline and the present one write the same frames. For
  a file of at least one frame in which no frame but the last declares
  disposal 3, [loadFrames] followed by [saveFrames] of src/gif.ts succeeds,
  the export of the unedited frames that [loadFrames] of src/gif/utils.ts
  hands to the decode worker posts one buffer, and the two writers hold the
  same calls (the same pixel indices, delays and local palettes, frame by
  frame) under the same global palette and the same dimensions. *)
Theorem pipelines_write_the_same_frames (gifReader : GifReader.t) :
  1 <= GifReader.numFrames gifReader ->
  (forall j frameInfo,
      S j < GifReader.numFrames gifReader ->
      GifReader.frames gifReader !! j = Some frameInfo ->
      GifFrameInfo.disposal frameInfo <> 3) ->
  let image := {| Utils.width := GifReader.width gifReader;
                  Utils.height := GifReader.height gifReader;
                  Utils.frameCount := GifReader.numFrames gifReader;
                  Utils.loopCount := GifReader.loopCount gifReader |} in
  exists frames g wk w,
    Gif.loadFrames gifReader = Ok frames /\
    saveFrames frames = Ok g /\
    FileEditor.export image (Utils.loadFrames Utils.transfers gifReader).1
      (Editor.initialFrameStates (Utils.frameCount image)) = Some wk /\
    GifWriterWorker.posted wk = [w] /\
    GifWriter.written w = GifWriter.written g /\
    GifWriter.gpalette (GifWriter.gopts w) = GifWriter.gpalette (GifWriter.gopts g) /\
    GifWriter.width w = GifWriter.width g /\
    GifWriter.height w = GifWriter.height g.
Proof.
  intros Hn Hplain. simpl. rewrite (transfers_complete gifReader Hplain).
  destruct (in_step_run_streamed gifReader (GifReader.frames gifReader) 0 _ _
              (in_step_init gifReader) (guarded_init gifReader))
    as (yielded & su & sg & frames & Hu & Hg & Hres & <- & Hall).
  simpl in Hres.
  assert (Hlen : length frames = length (GifReader.frames gifReader)).
  { destruct (loadFrames_from_total gifReader (GifReader.frames gifReader) 0
                (Utils.initLoad gifReader) (guarded_init gifReader))
      as (ys & st & Hrun & Hl & _).
    rewrite Hu in Hrun. inversion Hrun; subst. by rewrite length_fmap in Hl. }
  unfold GifReader.numFrames in *.
  assert (Hyielded : (Utils.loadFrames Utils.reads gifReader).1 = streamed <$> frames).
  { unfold Utils.loadFrames. by rewrite Hu. }
  destruct frames as [|first rest] eqn:Hframes; [simpl in Hlen; lia|].
  rewrite <- Hframes in *.
  assert (Hdims : sized (GifReader.width gifReader) (GifReader.height gifReader)
                    (Gif.data first)).
  { apply (yielded_sized Utils.reads gifReader 0 (streamed first)).
    by rewrite Hyielded, Hframes. }
  destruct Hdims as (Hdw & Hdh & _).
  destruct (saveFrames_begin frames (GifReader.width gifReader)
              (GifReader.height gifReader) Hall)
    as (g & Hsave & Hw & Hgo & Hgw & Hgh & _).
  assert (Hsave' : saveFrames frames = Ok g).
  { rewrite <- Hsave. rewrite Hframes. unfold saveFrames. by rewrite Hdw, Hdh. }
  rewrite Hyielded. unfold Gif.loadFrames. rewrite Hg. cbn [JS.bind].
  rewrite Hres. unfold Editor.initialFrameStates.
  set (marks := replicate (length (GifReader.frames gifReader))
                  {| FileEditor.deleted := None |}).
  set (yielded := streamed <$> frames).
  assert (Hylen : length yielded = length (GifReader.frames gifReader)).
  { unfold yielded. by rewrite length_fmap. }
  assert (Hkept : Forall Merge.survives (zip yielded marks)).
  { apply Forall_forall. intros [f fs] Hin.
    apply elem_of_zip_r in Hin. unfold marks in Hin.
    apply elem_of_replicate in Hin as [-> _]. done. }
  assert (Hmerge : Merge.merge (zip yielded marks) = yielded).
  { rewrite merge_all_kept by done. apply fst_zip.
    unfold marks. rewrite length_replicate. lia. }
  destruct (export_run {| Utils.width := GifReader.width gifReader;
                          Utils.height := GifReader.height gifReader;
                          Utils.frameCount := length (GifReader.frames gifReader);
                          Utils.loopCount := GifReader.loopCount gifReader |}
              yielded marks) as (_ & _ & He).
  { intros E. rewrite E in Hylen. simpl in Hylen. lia. }
  { unfold marks. by rewrite length_replicate. }
  { destruct (zip yielded marks) as [|p tl] eqn:E; [done|].
    by apply Forall_inv in Hkept. }
  rewrite Hmerge in He. cbn [Utils.width Utils.height Utils.loopCount] in He.
  eexists frames, g, _, _.
  split; [done|]. split; [exact Hsave'|]. split; [exact He|]. split; [reflexivity|].
  rewrite Hw, Hgo, Hgw, Hgh. fold yielded.
  split; [by apply addFrames_same_calls|].
  repeat match goal with
  | |- context [Utils.gf (fold_left Utils.addFrame ?fs ?b)] =>
      let Hx := fresh in let Hy := fresh in let Hz := fresh in
      destruct (addFrames_header fs b) as (Hx & Hy & Hz & _);
      rewrite ?Hx, ?Hy, ?Hz; clear Hx Hy Hz
  end.
  done.
Qed.

Lemma pipelines_write_the_same_frames_witness :
  exists frames g wk w,
    Gif.loadFrames Sample.ends_with_restore = Ok frames /\
    saveFrames frames = Ok g /\
    GifWriterWorker.posted wk = [w] /\
    GifWriter.written w = GifWriter.written g.
Proof.
  destruct (pipelines_write_the_same_frames Sample.ends_with_restore)
    as (frames & g & wk & w & Hl & Hs & _ & Hp & Hw & _).
  - unfold GifReader.numFrames. simpl. lia.
  - unfold GifReader.numFrames. simpl.
    intros j frameInfo Hj Hf. destruct j as [|[|j]]; [| |lia];
      injection Hf as <-; simpl; lia.
  - exists frames, g, wk, w. split; [exact Hl|]. split; [exact Hs|].
    split; [exact Hp | exact Hw].
Defined.

End Legacy.

(** ** The decode worker, [readGifFromFile] and [readFile] *)

Section DecodePipeline.
Import JS Utils GifReaderWorker.

Lemma receive_frames frames : forall c n,
  framesRemaining c = Some n ->
  fold_left receive (frame <$> frames) c =
    {| framesRemaining := Some (n - Z.of_nat (length frames))%Z;
       delivered := delivered c ++ (frame <$> frames);
       resolved := resolved c +
         if decide (0 < n <= Z.of_nat (length frames))%Z then 1 else 0 |}.
Proof.
  induction frames as [|f rest IH]; intros c n Hc.
  - simpl. rewrite decide_False by lia. rewrite app_nil_r, Nat.add_0_r, Z.sub_0_r.
    destruct c. simpl in *. by rewrite Hc.
  - rewrite fmap_cons. simpl fold_left.
    rewrite (IH _ (n - 1)%Z) by (unfold receive; simpl; by rewrite Hc).
    unfold receive. cbn [framesRemaining delivered resolved]. rewrite Hc. simpl fmap.
    f_equal.
    + f_equal. simpl length. lia.
    + by rewrite <- (assoc_L (++)).
    + simpl length. destruct (decide (n - 1 = 0)%Z) as [E|E].
      * rewrite decide_True by (by rewrite E). repeat case_decide; lia.
      * rewrite decide_False by congruence. repeat case_decide; lia.
Qed.

(** X13. The decode pipeline delivers in order and settles at most once. The
  worker posts the metadata, with frameCount the number of frames of the
  file, and then one message per frame up to and including the first frame
  that declares disposal 3. [readGifFromFile] passes every message to the
  callback in the order received, and calls [resolve] upon the message that
  completes the announced frame count, and upon no other. So the promise is
  resolved, once, exactly when no frame follows the first frame that
  declares disposal 3; otherwise the worker's handler ends with an
  InvalidStateError, frames are missing, and the promise is never resolved. *)
Theorem decode_delivers_in_order_and_resolves_at_most_once (imageReader : GifReader.t) :
  let messages := (onmessage imageReader).1 in
  let reached := Run.until_restore (GifReader.frames imageReader) in
  length messages = S reached /\
  (exists m, head messages = Some (metadata m) /\
             frameCount m = GifReader.numFrames imageReader) /\
  (forall k, k <= length messages ->
     let c := fold_left receive (take k messages) start in
     delivered c = take k messages /\
     resolved c = if decide (k = S (GifReader.numFrames imageReader)) then 1 else 0) /\
  ((onmessage imageReader).2 = Ok tt <-> reached = GifReader.numFrames imageReader) /\
  (reached < GifReader.numFrames imageReader ->
   (onmessage imageReader).2 = Throw InvalidStateError /\
   resolved (readGifFromFile imageReader) = 0).
Proof.
  cbn zeta.
  destruct (transfers_count imageReader) as [Hlen Hok].
  pose proof (until_restore_le (GifReader.frames imageReader)) as Hle.
  fold (GifReader.numFrames imageReader) in Hle.
  assert (Hsteps : forall k, k <= length (onmessage imageReader).1 ->
            delivered (fold_left receive (take k (onmessage imageReader).1) start)
              = take k (onmessage imageReader).1 /\
            resolved (fold_left receive (take k (onmessage imageReader).1) start)
              = if decide (k = S (GifReader.numFrames imageReader)) then 1 else 0).
  { unfold onmessage. cbn [fst].
    intros [|k] Hk; [done|].
    simpl in Hk. rewrite length_fmap, Hlen in Hk.
    simpl take. simpl fold_left. rewrite <- fmap_take.
    rewrite (receive_frames _ _ (Z.of_nat (GifReader.numFrames imageReader))) by done.
    cbn [delivered resolved]. split; [done|].
    rewrite length_take_le by lia.
    unfold receive, start. cbn [resolved frameCount framesRemaining].
    destruct (decide (GifReader.numFrames imageReader = 0)) as [E|E].
    - rewrite decide_True by (by rewrite E). repeat case_decide; lia.
    - rewrite decide_False by (intros [= H]; lia). repeat case_decide; lia. }
  assert (Hmsgs : length (onmessage imageReader).1
                  = S (Run.until_restore (GifReader.frames imageReader))).
  { unfold onmessage. cbn [fst]. simpl. by rewrite length_fmap, Hlen. }
  assert (Hend : (onmessage imageReader).2
                 = if Run.until_restore (GifReader.frames imageReader)
                      <? GifReader.numFrames imageReader
                   then Throw InvalidStateError else Ok tt).
  { unfold onmessage. cbn [snd]. rewrite loadFrames_transfers. cbn [snd].
    destruct (Nat.ltb_spec (Run.until_restore (GifReader.frames imageReader))
                (GifReader.numFrames imageReader)); [done|].
    destruct (loadFrames_from_total imageReader (GifReader.frames imageReader) 0
                (initLoad imageReader) (guarded_init imageReader))
      as (ys & st & Hrun & _).
    unfold loadFrames. by rewrite Hrun. }
  split; [done|]. split; [by eexists|]. split; [done|]. split.
  - rewrite Hend.
    destruct (Nat.ltb_spec (Run.until_restore (GifReader.frames imageReader))
                (GifReader.numFrames imageReader)); split; (done || lia).
  - intros Hlt. rewrite Hend.
    destruct (Nat.ltb_spec (Run.until_restore (GifReader.frames imageReader))
                (GifReader.numFrames imageReader)); [|lia].
    split; [done|]. unfold readGifFromFile.
    destruct (Hsteps (length (onmessage imageReader).1) ltac:(done)) as [_ Hres].
    rewrite take_ge in Hres by done. rewrite Hres, Hmsgs.
    rewrite decide_False by lia. done.
Qed.

Lemma decode_delivers_in_order_and_resolves_at_most_once_witness :
  length (onmessage Sample.four_frames).1 = 4 /\
  (onmessage Sample.four_frames).2 = Throw InvalidStateError /\
  resolved (readGifFromFile Sample.four_frames) = 0 /\
  resolved (readGifFromFile Sample.ends_with_restore) = 1.
Proof.
  split; [|split; [|split]].
  - exact (proj1 (decode_delivers_in_order_and_resolves_at_most_once Sample.four_frames)).
  - refine (proj1 (proj2 (proj2 (proj2 (proj2
              (decode_delivers_in_order_and_resolves_at_most_once Sample.four_frames)))) _)).
    unfold GifReader.numFrames. simpl. lia.
  - refine (proj2 (proj2 (proj2 (proj2 (proj2
              (decode_delivers_in_order_and_resolves_at_most_once Sample.four_frames)))) _)).
    unfold GifReader.numFrames. simpl. lia.
  - refine (proj2 (proj1 (proj2 (proj2
              (decode_delivers_in_order_and_resolves_at_most_once
                 Sample.ends_with_restore))) 4 _)).
    rewrite (proj1 (decode_delivers_in_order_and_resolves_at_most_once
                      Sample.ends_with_restore)).
    simpl. lia.
Defined.

(** The reads of a stream that delivers the given chunks. *)
Lemma readFile_loop_fits chunks : forall prefix suffix,
  length (concat chunks) <= length suffix ->
  ReadFile.readFile_loop
    (((fun c => {| ReadFile.value := Some c; ReadFile.done_ := false |}) <$> chunks)
       ++ [{| ReadFile.value := None; ReadFile.done_ := true |}])
    (prefix ++ suffix) (length prefix)
  = ReadFile.Resolved (prefix ++ concat chunks ++ drop (length (concat chunks)) suffix).
Proof.
  induction chunks as [|c rest IH]; intros prefix suffix Hfit; simpl.
  - done.
  - simpl in Hfit. rewrite length_app in Hfit.
    unfold ReadFile.set. rewrite length_app.
    destruct (Nat.leb_spec (length prefix + length c) (length prefix + length suffix));
      [|lia].
    rewrite take_app_length, drop_app_add'  by done.
    replace (prefix ++ c ++ drop (length c) suffix)
      with ((prefix ++ c) ++ drop (length c) suffix) by by rewrite <- (assoc_L (++)).
    replace (length prefix + length c) with (length (prefix ++ c))
      by by rewrite length_app.
    rewrite IH by (rewrite length_drop; lia).
    by rewrite drop_drop, length_app, <- !(assoc_L (++)).
Qed.

Lemma readFile_loop_overflows chunks : forall prefix suffix,
  length suffix < length (concat chunks) ->
  ReadFile.readFile_loop
    (((fun c => {| ReadFile.value := Some c; ReadFile.done_ := false |}) <$> chunks)
       ++ [{| ReadFile.value := None; ReadFile.done_ := true |}])
    (prefix ++ suffix) (length prefix)
  = ReadFile.RangeError.
Proof.
  induction chunks as [|c rest IH]; intros prefix suffix Hover; simpl in *; [lia|].
  rewrite length_app in Hover.
  unfold ReadFile.set. rewrite length_app.
  destruct (Nat.leb_spec (length prefix + length c) (length prefix + length suffix));
    [|done].
  rewrite take_app_length, drop_app_add'  by done.
  replace (prefix ++ c ++ drop (length c) suffix)
    with ((prefix ++ c) ++ drop (length c) suffix) by by rewrite <- (assoc_L (++)).
  replace (length prefix + length c) with (length (prefix ++ c))
    by by rewrite length_app.
  apply IH. rewrite length_drop. lia.
Qed.

Lemma readFile_loop_unfinished chunks : forall data pos bytes,
  ReadFile.readFile_loop
    ((fun c => {| ReadFile.value := Some c; ReadFile.done_ := false |}) <$> chunks)
    data pos
  <> ReadFile.Resolved bytes.
Proof.
  induction chunks as [|c rest IH]; intros data pos bytes; simpl; [done|].
  destruct (ReadFile.set data c pos); [apply IH | done].
Qed.

(** X14. [readFile] copies the chunks of the stream one after the other into
  a buffer of the announced length. If the chunks hold no more bytes than
  announced, the reader is built over the chunks in order followed by zeros
  up to the announced length; if they hold more, the copy of the first chunk
  that does not fit throws a RangeError; and as long as the stream has not
  reported its end, nothing is returned. *)
Theorem readFile_assembles_chunks (chunks : list (list Z)) (byteLength : nat) :
  let read := fun c => {| ReadFile.value := Some c; ReadFile.done_ := false |} in
  let finished := {| ReadFile.value := None; ReadFile.done_ := true |} in
  (length (concat chunks) <= byteLength ->
   ReadFile.readFile ((read <$> chunks) ++ [finished]) byteLength =
     ReadFile.Resolved
       (concat chunks ++ replicate (byteLength - length (concat chunks)) 0%Z)) /\
  (byteLength < length (concat chunks) ->
   ReadFile.readFile ((read <$> chunks) ++ [finished]) byteLength = ReadFile.RangeError) /\
  (forall bytes, ReadFile.readFile (read <$> chunks) byteLength <> ReadFile.Resolved bytes).
Proof.
  simpl. unfold ReadFile.readFile. split; [|split].
  - intros Hfit.
    pose proof (readFile_loop_fits chunks [] (replicate byteLength 0%Z)) as H.
    simpl in H. rewrite H by by rewrite length_replicate.
    by rewrite drop_replicate.
  - intros Hover.
    apply (readFile_loop_overflows chunks [] (replicate byteLength 0%Z)).
    by rewrite length_replicate.
  - intros bytes. apply readFile_loop_unfinished.
Qed.

Lemma readFile_assembles_chunks_witness :
  ReadFile.readFile
    [{| ReadFile.value := Some [71; 73]%Z; ReadFile.done_ := false |};
     {| ReadFile.value := Some [70]%Z; ReadFile.done_ := false |};
     {| ReadFile.value := None; ReadFile.done_ := true |}] 4
    = ReadFile.Resolved [71; 73; 70; 0]%Z /\
  ReadFile.readFile
    [{| ReadFile.value := Some [71; 73]%Z; ReadFile.done_ := false |};
     {| ReadFile.value := Some [70]%Z; ReadFile.done_ := false |};
     {| ReadFile.value := None; ReadFile.done_ := true |}] 2
    = ReadFile.RangeError.
Proof.
  split.
  - apply (proj1 (readFile_assembles_chunks [[71; 73]; [70]]%Z 4)). simpl. lia.
  - apply (proj1 (proj2 (readFile_assembles_chunks [[71; 73]; [70]]%Z 2))). simpl. lia.
Defined.

End DecodePipeline.

(** ** The editor: moving between frames *)

Section Navigation.
Import JS FileEditor Editor.

Lemma index_of_nat {A} (a : list A) (i : nat) : JS.index a (Z.of_nat i) = a !! i.
Proof.
  unfold JS.index. destruct (Z.ltb_spec (Z.of_nat i) 0); [lia|]. by rewrite Nat2Z.id.
Qed.

Lemma indexOf_from_picked frameStates : forall steps i,
  (0 <= i)%Z -> (i + Z.of_nat steps = Z.of_nat (length frameStates))%Z ->
  exists j,
    indexOf_from frameStates picked i steps = Ok j /\
    ((j = -1 /\ forall k, i <= k < Z.of_nat (length frameStates) ->
                  mark frameStates k = Some true) \/
     (i <= j < Z.of_nat (length frameStates) /\
      mark frameStates j = Some false /\
      forall k, i <= k < j -> mark frameStates k = Some true))%Z.
Proof.
  induction steps as [|steps IH]; intros i Hi Hlen; simpl.
  - exists (-1)%Z. split; [done|]. left. split; [done|]. intros k Hk. lia.
  - destruct (index_in_range frameStates i ltac:(lia)) as [Hidx [fs Hfs]].
    rewrite Hidx, Hfs. simpl.
    destruct (is_deleted fs) eqn:Hdel; simpl.
    + destruct (IH (i + 1)%Z ltac:(lia) ltac:(lia)) as (j & Hj & Hcases).
      exists j. split; [done|].
      assert (Hi' : mark frameStates i = Some true).
      { unfold mark. by rewrite Hidx, Hfs; simpl; rewrite Hdel. }
      destruct Hcases as [[-> Hall] | (Hr & Hm & Hall)]; [left | right].
      * split; [done|]. intros k Hk.
        destruct (decide (k = i)) as [->|]; [done|]. apply Hall. lia.
      * split; [lia|]. split; [done|]. intros k Hk.
        destruct (decide (k = i)) as [->|]; [done|]. apply Hall. lia.
    + exists i. split; [done|]. right. split; [lia|]. split.
      * unfold mark. by rewrite Hidx, Hfs; simpl; rewrite Hdel.
      * intros k Hk. lia.
Qed.

(** X15. [indexOf] with the test "not deleted", as Alt+ArrowRight calls it:
  started at a non-negative index, it returns the first frame at or after
  that index that is not dropped, and -1 when every frame from there on is
  dropped or the index is past the end; it does not throw. Started at a
  negative index it throws a TypeError, reading [deleted] of [undefined]. *)
Theorem indexOf_finds_next_picked (frameStates : list FrameState) (fromIndex : Z) :
  ((0 <= fromIndex)%Z ->
   exists j,
     indexOf frameStates picked (Some fromIndex) = Ok j /\
     ((j = -1 /\ forall k, fromIndex <= k < Z.of_nat (length frameStates) ->
                   mark frameStates k = Some true) \/
      (fromIndex <= j < Z.of_nat (length frameStates) /\
       mark frameStates j = Some false /\
       forall k, fromIndex <= k < j -> mark frameStates k = Some true))%Z) /\
  ((fromIndex < 0)%Z -> indexOf frameStates picked (Some fromIndex) = Throw TypeError).
Proof.
  split.
  - intros Hfrom. unfold indexOf. simpl.
    destruct (Z.le_gt_cases fromIndex (Z.of_nat (length frameStates))) as [Hle|Hgt].
    + apply indexOf_from_picked; lia.
    + replace (Z.to_nat (Z.of_nat (length frameStates) - fromIndex)) with 0 by lia.
      exists (-1)%Z. split; [done|]. left. split; [done|]. intros k Hk. lia.
  - intros Hneg. unfold indexOf. simpl.
    destruct (Z.to_nat (Z.of_nat (length frameStates) - fromIndex)) as [|steps] eqn:E;
      [lia|].
    simpl. unfold JS.index. by destruct (Z.ltb_spec fromIndex 0); [|lia].
Qed.

Lemma indexOf_finds_next_picked_witness :
  indexOf Fixture.marks_one_dropped picked (Some 1%Z) = Ok 2%Z /\
  indexOf Fixture.marks_one_dropped picked (Some (-1)%Z) = Throw TypeError.
Proof.
  split.
  - destruct (proj1 (indexOf_finds_next_picked Fixture.marks_one_dropped 1))
      as (j & Hj & Hcases); [lia|].
    rewrite Hj. f_equal.
    destruct Hcases as [[_ Hall] | (Hr & Hm & Hall)].
    + specialize (Hall 2%Z ltac:(simpl; lia)). discriminate Hall.
    + simpl in Hr. destruct (decide (j = 1%Z)) as [->|]; [discriminate Hm | lia].
  - apply (proj2 (indexOf_finds_next_picked Fixture.marks_one_dropped (-1))). lia.
Defined.

Lemma lastIndexOf_from_picked frameStates : forall steps,
  steps <= length frameStates ->
  exists j,
    lastIndexOf_from frameStates picked steps = Ok j /\
    ((j = -1 /\ forall k, 0 <= k < Z.of_nat steps -> mark frameStates k = Some true) \/
     (0 <= j < Z.of_nat steps /\
      mark frameStates j = Some false /\
      forall k, j < k < Z.of_nat steps -> mark frameStates k = Some true))%Z.
Proof.
  induction steps as [|i IH]; intros Hlen; simpl.
  - exists (-1)%Z. split; [done|]. left. split; [done|]. intros k Hk. lia.
  - destruct (index_in_range frameStates (Z.of_nat i) ltac:(lia)) as [Hidx [fs Hfs]].
    rewrite Hidx, Hfs. simpl.
    destruct (is_deleted fs) eqn:Hdel; simpl.
    + destruct (IH ltac:(lia)) as (j & Hj & Hcases).
      exists j. split; [done|].
      assert (Hi' : mark frameStates (Z.of_nat i) = Some true).
      { unfold mark. by rewrite Hidx, Hfs; simpl; rewrite Hdel. }
      destruct Hcases as [[-> Hall] | (Hr & Hm & Hall)]; [left | right].
      * split; [done|]. intros k Hk.
        destruct (decide (k = Z.of_nat i)) as [->|]; [done|]. apply Hall. lia.
      * split; [lia|]. split; [done|]. intros k Hk.
        destruct (decide (k = Z.of_nat i)) as [->|]; [done|]. apply Hall. lia.
    + exists (Z.of_nat i). split; [done|]. right. split; [lia|]. split.
      * unfold mark. by rewrite Hidx, Hfs; simpl; rewrite Hdel.
      * intros k Hk. lia.
Qed.

(** X16. [lastIndexOf] with the test "not deleted", as Alt+ArrowLeft calls
  it: started at an index inside the array, it returns the last frame at or
  before that index that is not dropped, and -1 when every frame up to there
  is dropped; started below 0 it returns -1; started at or past the end of
  the array it throws a TypeError. *)
Theorem lastIndexOf_finds_previous_picked (frameStates : list FrameState) (fromIndex : Z) :
  ((fromIndex < Z.of_nat (length frameStates))%Z ->
   exists j,
     lastIndexOf frameStates picked (Some fromIndex) = Ok j /\
     ((j = -1 /\ forall k, 0 <= k <= fromIndex -> mark frameStates k = Some true) \/
      (0 <= j <= fromIndex /\
       mark frameStates j = Some false /\
       forall k, j < k <= fromIndex -> mark frameStates k = Some true))%Z) /\
  ((0 <= fromIndex)%Z -> (Z.of_nat (length frameStates) <= fromIndex)%Z ->
   lastIndexOf frameStates picked (Some fromIndex) = Throw TypeError).
Proof.
  split.
  - intros Hfrom. unfold lastIndexOf. simpl.
    destruct (lastIndexOf_from_picked frameStates (Z.to_nat (fromIndex + 1)))
      as (j & Hj & Hcases); [lia|].
    exists j. split; [done|].
    destruct Hcases as [[-> Hall] | (Hr & Hm & Hall)]; [left | right].
    + split; [done|]. intros k Hk. apply Hall. lia.
    + split; [lia|]. split; [done|]. intros k Hk. apply Hall. lia.
  - intros Hpos Hover. unfold lastIndexOf. simpl.
    replace (Z.to_nat (fromIndex + 1)) with (S (Z.to_nat fromIndex)) by lia.
    simpl. rewrite Z2Nat.id by done.
    by rewrite index_out_of_range by lia.
Qed.

Lemma lastIndexOf_finds_previous_picked_witness :
  lastIndexOf Fixture.marks_one_dropped picked (Some 1%Z) = Ok 0%Z /\
  lastIndexOf Fixture.marks_one_dropped picked (Some 3%Z) = Throw TypeError.
Proof.
  split.
  - destruct (proj1 (lastIndexOf_finds_previous_picked Fixture.marks_one_dropped 1))
      as (j & Hj & Hcases); [simpl; lia|].
    rewrite Hj. f_equal.
    destruct Hcases as [[_ Hall] | (Hr & Hm & Hall)].
    + specialize (Hall 0%Z ltac:(lia)). discriminate Hall.
    + destruct (decide (j = 1%Z)) as [->|]; [discriminate Hm | lia].
  - apply (proj2 (lastIndexOf_finds_previous_picked Fixture.marks_one_dropped 3));
      simpl; lia.
Defined.

(** Neither search throws when it starts beside a frame of the file. *)
Lemma indexOf_picked_total (frameStates : list FrameState) (fromIndex : Z) :
  ((0 <= fromIndex)%Z ->
   exists j, indexOf frameStates picked (Some fromIndex) = Ok j) /\
  ((fromIndex < Z.of_nat (length frameStates))%Z ->
   exists j, lastIndexOf frameStates picked (Some fromIndex) = Ok j).
Proof.
  split.
  - intros Hfrom. unfold indexOf. simpl.
    destruct (Z.le_gt_cases fromIndex (Z.of_nat (length frameStates))) as [Hle|Hgt].
    + destruct (indexOf_from_picked frameStates
                  (Z.to_nat (Z.of_nat (length frameStates) - fromIndex)) fromIndex)
        as (j & Hj & _); [lia..|]. by exists j.
    + replace (Z.to_nat (Z.of_nat (length frameStates) - fromIndex)) with 0 by lia.
      by eexists.
  - intros Hfrom. unfold lastIndexOf. simpl.
    destruct (lastIndexOf_from_picked frameStates (Z.to_nat (fromIndex + 1)))
      as (j & Hj & _); [lia|]. by exists j.
Qed.

Lemma gotoFrame_in_range layout frameCount selectedFrame newFrame :
  (0 <= selectedFrame < Z.of_nat frameCount)%Z ->
  (0 <= gotoFrame layout frameCount selectedFrame newFrame < Z.of_nat frameCount)%Z.
Proof.
  intros Hs. unfold gotoFrame.
  destruct layout; simpl; [|done].
  destruct (Z.leb_spec 0 newFrame); simpl; [|done].
  destruct (Z.ltb_spec newFrame (Z.of_nat frameCount)); simpl; [lia|done].
Qed.

Lemma ArrowDown_in_range curr selectedFrame :
  (0 <= selectedFrame < Z.of_nat (length curr))%Z ->
  exists next,
    onKeyDown_ArrowDown selectedFrame curr = Ok next /\
    length next = length curr /\
    mark next selectedFrame = Some true.
Proof.
  intros Hi. destruct (index_in_range curr selectedFrame Hi) as [Hidx [fs Hfs]].
  unfold onKeyDown_ArrowDown, mark. rewrite Hidx, Hfs.
  destruct (is_deleted fs) eqn:Hdel.
  - exists curr. by rewrite Hidx, Hfs; simpl; rewrite Hdel.
  - eexists. split; [done|]. split; [by rewrite length_insert|].
    destruct (index_in_range (<[Z.to_nat selectedFrame:={| deleted := Some true |}]> curr)
                selectedFrame) as [-> _]; [by rewrite length_insert|].
    by rewrite list_lookup_insert_eq by lia.
Qed.

Lemma ArrowUp_in_range curr selectedFrame :
  (0 <= selectedFrame < Z.of_nat (length curr))%Z ->
  exists next,
    onKeyDown_ArrowUp selectedFrame curr = Ok next /\
    length next = length curr /\
    mark next selectedFrame = Some false.
Proof.
  intros Hi. destruct (index_in_range curr selectedFrame Hi) as [Hidx [fs Hfs]].
  unfold onKeyDown_ArrowUp, mark. rewrite Hidx, Hfs.
  destruct (is_deleted fs) eqn:Hdel; simpl.
  - eexists. split; [done|]. split; [by rewrite length_insert|].
    destruct (index_in_range (<[Z.to_nat selectedFrame:={| deleted := Some false |}]> curr)
                selectedFrame) as [-> _]; [by rewrite length_insert|].
    by rewrite list_lookup_insert_eq by lia.
  - exists curr. by rewrite Hidx, Hfs; simpl; rewrite Hdel.
Qed.

(** X17. The keyboard keeps the editor consistent. From a state whose
  selected frame is a frame of the file and that has one edit mark per frame,
  no key raises an error, and the state after the key again has a selected
  frame of the file and one mark per frame. While playing, every key but the
  space bar leaves the state as it is. ArrowDown leaves the selected frame
  marked dropped and ArrowUp leaves it marked picked, and both then move to
  the next frame if there is one. *)
Theorem keyboard_keeps_selection_in_range
    (layout : bool) (frameCount : nat) (evt : KeyboardEvent) (v : View) :
  length (frameStates v) = frameCount ->
  (0 <= selectedFrame v < Z.of_nat frameCount)%Z ->
  exists v',
    onKeyDown layout frameCount evt v = Ok v' /\
    (0 <= selectedFrame v' < Z.of_nat frameCount)%Z /\
    length (frameStates v') = frameCount /\
    (isPlaying v = true -> key evt <> Space -> v' = v) /\
    (isPlaying v = false -> key evt = ArrowDown ->
     mark (frameStates v') (selectedFrame v) = Some true /\
     selectedFrame v' =
       gotoFrame layout frameCount (selectedFrame v) (selectedFrame v + 1)) /\
    (isPlaying v = false -> key evt = ArrowUp ->
     mark (frameStates v') (selectedFrame v) = Some false /\
     selectedFrame v' =
       gotoFrame layout frameCount (selectedFrame v) (selectedFrame v + 1)).
Proof.
  intros Hlen Hsel. unfold onKeyDown.
  pose proof (fun n => gotoFrame_in_range layout frameCount (selectedFrame v) n Hsel) as Hgo.
  destruct (key evt) eqn:Hkey.
  - (* Space *)
    eexists. split; [done|]. simpl. split; [by destruct (isPlaying v)|].
    repeat split; done.
  - (* ArrowRight *)
    destruct (isPlaying v) eqn:Hp; [by exists v|].
    destruct (altKey evt).
    + destruct (proj1 (indexOf_picked_total (frameStates v) (selectedFrame v + 1))
                  ltac:(lia)) as [j ->].
      eexists. split; [done|]. simpl. repeat split; try done; apply Hgo.
    + eexists. split; [done|]. simpl. repeat split; try done; apply Hgo.
  - (* ArrowLeft *)
    destruct (isPlaying v) eqn:Hp; [by exists v|].
    destruct (altKey evt).
    + destruct (proj2 (indexOf_picked_total (frameStates v) (selectedFrame v - 1))
                  ltac:(lia)) as [j ->].
      eexists. split; [done|]. simpl. repeat split; try done; apply Hgo.
    + eexists. split; [done|]. simpl. repeat split; try done; apply Hgo.
  - (* ArrowDown *)
    destruct (isPlaying v) eqn:Hp; [by exists v|].
    destruct (ArrowDown_in_range (frameStates v) (selectedFrame v) ltac:(lia))
      as (next & -> & Hl & Hm).
    eexists. split; [done|]. simpl. split; [apply Hgo|]. split; [lia|].
    repeat split; done.
  - (* ArrowUp *)
    destruct (isPlaying v) eqn:Hp; [by exists v|].
    destruct (ArrowUp_in_range (frameStates v) (selectedFrame v) ltac:(lia))
      as (next & -> & Hl & Hm).
    eexists. split; [done|]. simpl. split; [apply Hgo|]. split; [lia|].
    repeat split; done.
  - (* any other key *)
    by exists v.
Qed.

Lemma keyboard_keeps_selection_in_range_witness :
  exists v',
    onKeyDown true 3 {| key := ArrowDown; altKey := false |} (Fixture.view 2) = Ok v' /\
    selectedFrame v' = 2%Z /\
    mark (frameStates v') 2 = Some true.
Proof.
  destruct (keyboard_keeps_selection_in_range true 3
              {| key := ArrowDown; altKey := false |} (Fixture.view 2))
    as (v' & Hk & _ & _ & _ & Hdown & _); [reflexivity | simpl; lia |].
  exists v'. split; [exact Hk|].
  destruct (Hdown eq_refl eq_refl) as [Hm Hs]. split; [exact Hs | exact Hm].
Defined.

End Navigation.

(** ** Thumbnails, the info panel and playback *)

Section Panels.
Import JS Utils FileEditor Editor Merge.

Lemma thumbnails_from_labels inView frameStates rest : forall i,
  i + length rest <= length frameStates ->
  exists labels,
    thumbnails_from inView frameStates rest i
      = Ok (run_delay (zip rest (drop i frameStates)), labels) /\
    length labels = length rest /\
    (forall k f fs, rest !! k = Some f -> frameStates !! (i + k) = Some fs ->
       labels !! k =
         Some (if inView (i + k)
               then if is_deleted fs then IndexOnly
                    else WithDelay
                           (delay f
                            + run_delay (drop (S k) (zip rest (drop i frameStates))))
               else NotDrawn)).
Proof.
  induction rest as [|f rest IH]; intros i Hlen; simpl in *.
  - exists []. repeat split; try done.
  - destruct (IH (S i) ltac:(lia)) as (labels & Hrun & Hl & Hlabels).
    rewrite Hrun. simpl.
    destruct (lookup_lt_is_Some_2 frameStates i ltac:(lia)) as [fs Hfs].
    rewrite Hfs, (drop_S _ _ _ Hfs). simpl.
    exists ((if inView i
             then if is_deleted fs then IndexOnly
                  else WithDelay (run_delay (zip rest (drop (S i) frameStates)) + delay f)
             else NotDrawn) :: labels).
    split; [|split; [by simpl; rewrite Hl|]].
    + destruct (is_deleted fs); [|done]. do 2 f_equal. lia.
    + intros [|k] g gs Hg Hgs; simpl in *.
      * rewrite Nat.add_0_r in *. injection Hg as <-. rewrite Hfs in Hgs.
        injection Hgs as <-.
        destruct (inView i), (is_deleted fs); try done.
        rewrite drop_0. do 2 f_equal. lia.
      * replace (i + S k) with (S (i + k)) in * by lia. by apply Hlabels.
Qed.

(** The place of a picked frame in the export, and its delay there. *)
Lemma merge_lookup l : forall k f fs,
  l !! k = Some (f, fs) -> is_deleted fs = false ->
  merge l !! length (survivors (take k l))
    = Some (set_delay f (delay f + run_delay (drop (S k) l))).
Proof.
  induction l as [|[g gs] rest IH]; intros k f fs Hk Hfs; [done|].
  destruct k as [|k]; simpl in *.
  - injection Hk as -> ->. by rewrite Hfs.
  - specialize (IH k f fs Hk Hfs). unfold survivors in *. rewrite filter_cons.
    destruct (decide (survives (g, gs))) as [Hs|Hs].
    + unfold survives in Hs. simpl in Hs. by rewrite Hs.
    + apply not_survives in Hs. by rewrite Hs.
Qed.

(** X18. The labels under the thumbnails. With one edit mark per frame the
  thumbnail loop never throws, also when the first frame is dropped. For a
  frame out of view it draws nothing; for a frame in view it writes the
  index alone if the frame is dropped and the index with a delay if the frame
  is picked. When the first frame is picked, the delay written under a
  picked frame is the delay with which [download] hands that frame to the
  writer. *)
Theorem thumbnail_labels_are_export_delays
    (inView : nat -> bool) (image : GifMetadata) (frames : list GifFrameData)
    (frameStates : list FrameState) :
  length frameStates = length frames ->
  exists labels,
    thumbnail_labels inView frames frameStates = Ok labels /\
    length labels = length frames /\
    (forall k fs, frameStates !! k = Some fs ->
       if inView k
       then if is_deleted fs then labels !! k = Some IndexOnly
            else exists d, labels !! k = Some (WithDelay d)
       else labels !! k = Some NotDrawn) /\
    (starts_kept (zip frames frameStates) ->
     exists delays,
       exported_delays image frames frameStates = Some delays /\
       forall k d, labels !! k = Some (WithDelay d) ->
         delays !! length (survivors (take k (zip frames frameStates))) = Some d).
Proof.
  intros Hlen.
  destruct (thumbnails_from_labels inView frameStates frames 0 ltac:(simpl; lia))
    as (labels & Hrun & Hl & Hlabels).
  rewrite drop_0 in Hlabels. cbn [Nat.add] in Hlabels.
  exists labels. unfold thumbnail_labels. rewrite Hrun. simpl.
  split; [done|]. split; [done|]. split.
  - intros k fs Hfs.
    destruct (lookup_lt_is_Some_2 frames k) as [f Hf];
      [pose proof (lookup_lt_Some _ _ _ Hfs); lia|].
    rewrite (Hlabels k f fs Hf Hfs).
    destruct (inView k), (is_deleted fs); try done. by eexists.
  - intros Hk. unfold exported_delays, download.
    rewrite (download_from_start frames frameStates Hlen Hk). simpl.
    eexists. split; [done|]. intros k d Hd.
    pose proof (lookup_lt_Some _ _ _ Hd) as Hlt.
    destruct (lookup_lt_is_Some_2 frames k) as [f Hf]; [lia|].
    destruct (lookup_lt_is_Some_2 frameStates k) as [fs Hfs]; [lia|].
    rewrite (Hlabels k f fs Hf Hfs) in Hd.
    destruct (inView k); [|done]. destruct (is_deleted fs) eqn:Hdel; [done|].
    injection Hd as <-.
    rewrite list_lookup_fmap, (merge_lookup _ k f fs); [done| |done].
    by rewrite lookup_zip_with, Hf, Hfs.
Qed.

Lemma thumbnail_labels_are_export_delays_witness :
  thumbnail_labels (fun k => k <? 2) Sample.three_frames Fixture.marks_one_dropped
    = Ok [WithDelay 30; IndexOnly; NotDrawn] /\
  exported_delays (Sample.image 3) Sample.three_frames Fixture.marks_one_dropped
    = Some [30; 5]%Z.
Proof.
  destruct (thumbnail_labels_are_export_delays (fun k => k <? 2) (Sample.image 3)
              Sample.three_frames Fixture.marks_one_dropped eq_refl)
    as (labels & Hl & _ & _ & Hx).
  vm_compute in Hl. injection Hl as <-.
  split; [reflexivity|].
  destruct Hx as (delays & Hd & _); [reflexivity|].
  rewrite Hd. vm_compute in Hd. injection Hd as <-. reflexivity.
Defined.

Lemma pickedFrames_from frameStates : forall frames sum,
  length frameStates = length frames ->
  fold_left (fun sum fs => if is_deleted fs then sum else sum + 1) frameStates sum
    = sum + length (merge (zip frames frameStates)).
Proof.
  induction frameStates as [|fs states IH]; intros [|f rest] sum Hlen;
    simpl in *; try done; try lia.
  rewrite (IH rest) by lia.
  destruct (is_deleted fs); simpl; lia.
Qed.

Lemma merge_length_le l : length (merge l) <= length l.
Proof.
  induction l as [|[f fs] rest IH]; simpl; [done|].
  destruct (is_deleted fs); simpl; lia.
Qed.

(** X19. The count of the info panel is the size of the export. Whenever
  [download] reaches the writer for a file with one edit mark per frame, the
  frame count it puts in the metadata and the number of frames it hands over
  are both the number of picked frames the info panel shows, which is never
  more than the number of frames of the file. *)
Theorem info_panel_counts_exported_frames
    (image : GifMetadata) (frames : list GifFrameData) (frameStates : list FrameState)
    (m : GifMetadata) (framesToSave : list GifFrameData) :
  length frameStates = length frames ->
  download image frames frameStates = Ok (m, framesToSave) ->
  frameCount m = pickedFrames frameStates /\
  length framesToSave = pickedFrames frameStates /\
  pickedFrames frameStates <= length frames.
Proof.
  intros Hlen Hd.
  assert (Hk : starts_kept (zip frames frameStates)).
  { destruct frames as [|f rest], frameStates as [|fs states]; try done.
    simpl. unfold survives. simpl. destruct (is_deleted fs) eqn:Hdel; [|done].
    by rewrite (download_first_dropped image f rest fs states Hdel) in Hd. }
  unfold download in Hd. rewrite (download_from_start _ _ Hlen Hk) in Hd.
  simpl in Hd. injection Hd as <- <-. simpl.
  unfold pickedFrames. rewrite (pickedFrames_from frameStates frames 0 Hlen). simpl.
  split; [done|]. split; [done|].
  pose proof (merge_length_le (zip frames frameStates)) as Hle.
  rewrite length_zip_with in Hle. lia.
Qed.

Lemma info_panel_counts_exported_frames_witness :
  pickedFrames Fixture.marks_one_dropped = 2 /\
  exists m framesToSave,
    download (Sample.image 3) Sample.three_frames Fixture.marks_one_dropped
      = Ok (m, framesToSave) /\
    frameCount m = 2 /\ length framesToSave = 2.
Proof.
  split; [reflexivity|].
  eexists _, _. split; [reflexivity|].
  destruct (info_panel_counts_exported_frames (Sample.image 3) Sample.three_frames
              Fixture.marks_one_dropped _ _ eq_refl eq_refl) as (H1 & H2 & _).
  split; [exact H1 | exact H2].
Defined.

Lemma last_num_snoc arr x : last_num (arr ++ [x]) = x.
Proof. unfold last_num. by rewrite last_snoc. Qed.

Lemma timeline_from frames : forall pre b,
  fold_left (fun arr f => arr ++ [add (last_num arr) (Int (delay f * 10))])
    frames (pre ++ [Int b]) = pre ++ (Int <$> times b frames).
Proof.
  induction frames as [|f rest IH]; intros pre b; [done|].
  cbn [fold_left]. rewrite last_num_snoc. cbn [add].
  rewrite (IH (pre ++ [Int b])). by rewrite <- app_assoc.
Qed.

Lemma timeline_times frames : timeline frames = Int <$> times 0 frames.
Proof. exact (timeline_from frames [] 0%Z). Qed.

Lemma times_length frames : forall b, length (times b frames) = S (length frames).
Proof. induction frames as [|f rest IH]; intros b; simpl; [done|]. by rewrite IH. Qed.

Lemma start_time_cons f rest k :
  start_time (f :: rest) (S k) = (delay f * 10 + start_time rest k)%Z.
Proof. unfold start_time. simpl. lia. Qed.

Lemma times_lookup frames : forall b k,
  k <= length frames ->
  times b frames !! k = Some (b + start_time frames k)%Z.
Proof.
  induction frames as [|f rest IH]; intros b [|k] Hk; simpl in *;
    try (unfold start_time; simpl; f_equal; lia).
  rewrite (IH _ k) by lia. rewrite start_time_cons. f_equal. lia.
Qed.

Lemma last_num_timeline frames :
  last_num (timeline frames) = Int (start_time frames (length frames)).
Proof.
  unfold last_num. rewrite timeline_times, fmap_last, last_lookup, times_length.
  simpl. by rewrite times_lookup by lia.
Qed.

Lemma start_time_mono frames k :
  Forall (fun f => (0 <= delay f)%Z) frames ->
  (start_time frames k <= start_time frames (S k))%Z.
Proof.
  intros Hpos. revert k. induction Hpos as [|f rest Hf _ IH]; intros k.
  - unfold start_time. by rewrite !take_nil.
  - destruct k as [|k]; [unfold start_time; simpl; lia|].
    rewrite !start_time_cons. specialize (IH k). lia.
Qed.

(** [lastIndexOf] with a test that does not throw and does not look at the
  index. *)
Lemma lastIndexOf_from_pure {A} (array : list A) (p : option A -> bool) : forall steps,
  exists j,
    lastIndexOf_from array (fun t _ => Ok (p t)) steps = Ok j /\
    (-1 <= j < Z.of_nat steps)%Z /\
    ((0 <= j)%Z -> p (JS.index array j) = true) /\
    (forall k, (j < k < Z.of_nat steps)%Z -> p (JS.index array k) = false).
Proof.
  induction steps as [|i IH]; simpl.
  - exists (-1)%Z. repeat split; try lia. 
  - destruct (p (JS.index array (Z.of_nat i))) eqn:Hp.
    + exists (Z.of_nat i). repeat split; try lia. done.
    + destruct IH as (j & Hj & Hr & Hyes & Hno).
      exists j. split; [done|]. split; [lia|]. split; [done|].
      intros k Hk. destruct (decide (k = Z.of_nat i)) as [->|]; [done|].
      apply Hno. lia.
Qed.

(** X20. Playback shows the frame whose time has come. For a file with
  non-negative delays and a positive total time, one animation step from a
  current time that is not negative computes the new time as the current
  time plus the elapsed time (at least 1 ms), modulo the total time, and
  passes to [updateFrame] the index of a loaded frame: the frame that has
  started at the new time while the next one has not. [updateFrame] then
  selects that frame unless it is dropped, in which case the selection
  stays. *)
Theorem playback_shows_frame_at_current_time
    (frames : list GifFrameData) (currentTime ellapsed : Z) :
  Forall (fun f => (0 <= delay f)%Z) frames ->
  (0 < start_time frames (length frames))%Z ->
  (0 <= currentTime)%Z ->
  exists (i : nat) (t : Z),
    step frames (Int currentTime) ellapsed = (Ok (Z.of_nat i), Int t) /\
    t = ((currentTime + Z.max ellapsed 1) mod start_time frames (length frames))%Z /\
    i < length frames /\
    (start_time frames i <= t < start_time frames (S i))%Z /\
    forall (frameStates : list FrameState) (selectedFrame : Z),
      length frames <= length frameStates ->
      exists fs, frameStates !! i = Some fs /\
        updateFrame frameStates selectedFrame (Z.of_nat i)
          = Ok (if is_deleted fs then selectedFrame else Z.of_nat i).
Proof.
  intros Hpos Htotal Hcur.
  set (T := start_time frames (length frames)) in *.
  set (t := ((currentTime + Z.max ellapsed 1) mod T)%Z).
  assert (Ht : (0 <= t < T)%Z) by (apply Z.mod_pos_bound; lia).
  assert (Hnew : rem (add (Int currentTime) (Int (Z.max ellapsed 1)))
                   (last_num (timeline frames)) = Int t).
  { rewrite last_num_timeline. fold T. simpl.
    destruct (Z.eqb_spec T 0); [lia|]. by rewrite Z.rem_mod_nonneg by lia. }
  unfold step. rewrite Hnew. unfold lastIndexOf. simpl.
  rewrite timeline_times, length_fmap, times_length.
  replace (Z.to_nat (Z.of_nat (S (length frames)) - 1 + 1)) with (S (length frames))
    by lia.
  destruct (lastIndexOf_from_pure (Int <$> times 0 frames)
              (fun t0 => le t0 (Int t)) (S (length frames)))
    as (j & Hj & Hr & Hyes & Hno).
  assert (Hat : forall k : nat, k <= length frames ->
            le (JS.index (Int <$> times 0 frames) (Z.of_nat k)) (Int t)
              = (start_time frames k <=? t)%Z).
  { intros k Hk. rewrite index_of_nat, list_lookup_fmap, times_lookup by done. done. }
  assert (H0 : (0 <= j)%Z).
  { destruct (decide (0 <= j)%Z) as [|Hneg]; [done|].
    pose proof (Hno (Z.of_nat 0) ltac:(lia)) as Hz. rewrite (Hat 0) in Hz by lia.
    apply Z.leb_gt in Hz. unfold start_time in Hz. rewrite take_0 in Hz.
    simpl in Hz. lia. }
  assert (Hj' : j = Z.of_nat (Z.to_nat j)) by lia.
  specialize (Hyes H0). rewrite Hj', Hat in Hyes by lia. apply Z.leb_le in Hyes.
  assert (Hlt : Z.to_nat j < length frames).
  { destruct (decide (Z.to_nat j = length frames)) as [E|]; [|lia].
    rewrite E in Hyes. fold T in Hyes. lia. }
  specialize (Hno (Z.of_nat (S (Z.to_nat j))) ltac:(lia)).
  rewrite Hat in Hno by lia. apply Z.leb_gt in Hno.
  exists (Z.to_nat j), t. rewrite <- Hj'.
  split; [by rewrite Hj|]. split; [done|]. split; [done|]. split; [lia|].
  intros frameStates selectedFrame Hlen.
  destruct (lookup_lt_is_Some_2 frameStates (Z.to_nat j) ltac:(lia)) as [fs Hfs].
  exists fs. split; [done|]. unfold updateFrame.
  rewrite Hj', index_of_nat, Hfs. by destruct (is_deleted fs).
Qed.

Lemma playback_shows_frame_at_current_time_witness :
  step Sample.three_frames (Int 90) 20 = (Ok 1%Z, Int 110) /\
  updateFrame Fixture.marks_one_dropped 0 1 = Ok 0%Z.
Proof.
  destruct (playback_shows_frame_at_current_time Sample.three_frames 90 20)
    as (i & t & Hs & _ & _ & _ & Hu).
  - repeat constructor; by vm_compute.
  - by vm_compute.
  - lia.
  - assert (Hv : step Sample.three_frames (Int 90) 20 = (Ok 1%Z, Int 110))
      by (vm_compute; reflexivity).
    rewrite Hv in Hs. injection Hs as Hi Ht.
    assert (i = 1) as -> by lia. subst t.
    split; [reflexivity|].
    destruct (Hu Fixture.marks_one_dropped 0%Z ltac:(simpl; lia)) as (fs & Hfs & Hup).
    vm_compute in Hfs. injection Hfs as <-. exact Hup.
Defined.

(** X21. Playback of a file without time. When the delays of the loaded
  frames add up to zero, as they do before the first frame has arrived,
  one animation step computes a new time that is not a number, finds no
  frame and calls [updateFrame] with -1, which throws a TypeError whatever
  the edit marks and the selection are. *)
Theorem playback_without_time_throws
    (frames : list GifFrameData) (currentTime : num) (ellapsed : Z)
    (frameStates : list FrameState) (selectedFrame : Z) :
  start_time frames (length frames) = 0%Z ->
  step frames currentTime ellapsed = (Ok (-1)%Z, NaN) /\
  updateFrame frameStates selectedFrame (-1) = Throw TypeError.
Proof.
  intros Htotal. split; [|done].
  assert (Hnew : rem (add currentTime (Int (Z.max ellapsed 1)))
                   (last_num (timeline frames)) = NaN).
  { rewrite last_num_timeline, Htotal. by destruct currentTime. }
  unfold step. rewrite Hnew. f_equal.
  unfold lastIndexOf. simpl.
  destruct (lastIndexOf_from_pure (timeline frames) (fun t0 => le t0 NaN)
              (Z.to_nat (Z.of_nat (length (timeline frames)) - 1 + 1)))
    as (j & Hj & Hr & Hyes & _).
  rewrite Hj. f_equal.
  destruct (decide (0 <= j)%Z) as [H0|]; [|lia].
  specialize (Hyes H0). unfold le in Hyes.
  by destruct (JS.index (timeline frames) j) as [[]|].
Qed.

Lemma playback_without_time_throws_witness :
  step [] (Int 0) 16 = (Ok (-1)%Z, NaN) /\
  updateFrame (initialFrameStates 3) 0 (-1) = Throw TypeError.
Proof.
  exact (playback_without_time_throws [] (Int 0) 16 (initialFrameStates 3) 0 eq_refl).
Defined.

End Panels.
